(** * Hotel city tax form: the calculation core of the two page variants

    The repository holds two variants of one React page component [Home]:
    the first (called strict below) validates typed text against a pattern,
    reformats an amount when its field loses focus, refuses blank rows at
    calculation time and offers a reset; the second (lenient) stores any
    typed text and skips blank rows.  Both hold the same state: the rows
    [inputs], the id counter [nextId], the published [result], the [error]
    message and the flag [isResultVisible].

    Every event handler runs to completion before the next event, so a
    handler is a function from state to state.  JavaScript strings are
    lists of UTF-16 code units, JavaScript numbers are IEEE 754 binary64
    values ([spec_float] at precision 53), and the built-ins the handlers
    call ([trim], [replace], [parseFloat], [toFixed], [Intl.NumberFormat],
    a regular expression test) are modelled after ECMA-262 and ECMA-402.

    Where the standards leave a choice the model takes what the engines
    do: a decimal text is read as the double nearest to its exact value
    (ties to even) however many digits it has, [ToString] picks the
    closest of the shortest digit strings, and the formatter rounds the
    exact value of the double half away from zero.  Row ids and the id
    counter are Numbers holding small integers, exact below 2^53, and
    are taken in [Z].

    Of what the component renders, the conditions on the state are
    taken ([View]): when the result card and the error are shown, and
    when the remove button of a row is disabled.  The markup, the class
    names and the focus effect on the last input are not modelled. *)

From Stdlib Require Import ZArith NArith PArith List Bool Lia String Ascii.
From Stdlib Require Import Floats.SpecFloat.
From Stdlib Require Import Sorting.Sorted.
Import ListNotations.

Set Implicit Arguments.

(* ================================================================== *)
(** ** JavaScript strings *)
(* ================================================================== *)

Module JsString.

(** A string is its sequence of UTF-16 code units. *)
Definition jsstring := list N.

(** An ASCII literal as a JavaScript string. *)
Definition str (s : string) : jsstring :=
  map N_of_ascii (list_ascii_of_string s).

Definition chComma : N := 44.
Definition chDot : N := 46.
Definition chPlus : N := 43.
Definition chMinus : N := 45.
Definition chZero : N := 48.

(** [WhiteSpace] and [LineTerminator] of ECMA-262: what [trim] and the
    start of [parseFloat] strip. *)
Definition isWhiteSpace (c : N) : bool :=
  ((9 <=? c) && (c <=? 13) || (c =? 32) || (c =? 160) || (c =? 5760)
   || (8192 <=? c) && (c <=? 8202) || (c =? 8232) || (c =? 8233)
   || (c =? 8239) || (c =? 8287) || (c =? 12288) || (c =? 65279))%N.

(** [\d] of a regular expression without the unicode flag, and
    [DecimalDigit] of the numeric grammar: 0 to 9. *)
Definition isDigit (c : N) : bool := ((48 <=? c) && (c <=? 57))%N.

Fixpoint takeWhile (p : N -> bool) (s : jsstring) : jsstring :=
  match s with
  | c :: r => if p c then c :: takeWhile p r else []
  | [] => []
  end.

Fixpoint dropWhile (p : N -> bool) (s : jsstring) : jsstring :=
  match s with
  | c :: r => if p c then dropWhile p r else s
  | [] => []
  end.

Definition trimStart (s : jsstring) : jsstring := dropWhile isWhiteSpace s.
Definition trimEnd (s : jsstring) : jsstring :=
  rev (dropWhile isWhiteSpace (rev s)).

(** [String.prototype.trim]. *)
Definition trim (s : jsstring) : jsstring := trimEnd (trimStart s).

(** [s.replace(a, b)] for one-character strings [a] and [b]: a string
    pattern replaces its first occurrence only. *)
Fixpoint replace (a b : N) (s : jsstring) : jsstring :=
  match s with
  | c :: r => if (c =? a)%N then b :: r else c :: replace a b r
  | [] => []
  end.

Fixpoint startsWith (p s : jsstring) : bool :=
  match p, s with
  | [], _ => true
  | a :: p', c :: s' => (a =? c)%N && startsWith p' s'
  | _ :: _, [] => false
  end.

(** [s === ''] *)
Definition isEmpty (s : jsstring) : bool :=
  match s with [] => true | _ :: _ => false end.

Definition jsstring_eq_dec (a b : jsstring) : {a = b} + {a <> b} :=
  list_eq_dec N.eq_dec a b.

End JsString.

Import JsString.

(* ================================================================== *)
(** ** Decimal digits *)
(* ================================================================== *)

Module Digits.
Local Open Scope Z_scope.

Definition digitChar (d : Z) : N := (Z.to_N d + 48)%N.
Definition digitVal (c : N) : Z := Z.of_N c - 48.

(** The value of a digit string, most significant digit first. *)
Definition digitsVal (ds : jsstring) : Z :=
  fold_left (fun acc c => 10 * acc + digitVal c) ds 0.

Fixpoint digitsFuel (fuel : nat) (n : Z) (acc : jsstring) : jsstring :=
  match fuel with
  | O => acc
  | S f =>
      let acc' := digitChar (n mod 10) :: acc in
      if n <? 10 then acc' else digitsFuel f (n / 10) acc'
  end.

(** The decimal representation of [n >= 0] without leading zeros
    (["0"] for zero). *)
Definition decimalDigits (n : Z) : jsstring :=
  digitsFuel (S (Z.to_nat (Z.log2 n))) n [].

End Digits.

Import Digits.

(* ================================================================== *)
(** ** JavaScript numbers: IEEE 754 binary64 *)
(* ================================================================== *)

Module JsNumber.
Local Open Scope Z_scope.

Definition double := spec_float.

Definition prec : Z := 53.
Definition emax : Z := 1024.

Definition add : double -> double -> double := SFadd prec emax.
Definition mul : double -> double -> double := SFmul prec emax.
Definition div : double -> double -> double := SFdiv prec emax.
Definition ltb : double -> double -> bool := SFltb.

Definition isNaN (x : double) : bool :=
  match x with S754_nan => true | _ => false end.

Definition isFinite (x : double) : bool :=
  match x with S754_zero _ | S754_finite _ _ _ => true | _ => false end.

Definition zero : double := S754_zero false.


(** The nearest integer to [a / b] for [b > 0], ties to the even one. *)
Definition roundHalfEven (a b : Z) : Z :=
  let k := a / b in
  match 2 * (a mod b) ?= b with
  | Lt => k
  | Gt => k + 1
  | Eq => if Z.even k then k else k + 1
  end.

(** Finite doubles are the multiples [m * 2^t / 2^1074] with
    [m < 2^53] and [0 <= t]; [binade A B] is the [t] of the doubles
    around the scaled rational [A / B]. *)
Definition binade (A B : Z) : Z :=
  let t0 := Z.max (Z.log2 A - Z.log2 B - 53) 0 in
  if 2 ^ 53 * (B * 2 ^ t0) <=? A then t0 + 1 else t0.

(** The double nearest to [num / den] (for [0 <= num], [0 < den]),
    ties to even, with the given sign: the Number value of a
    mathematical value.  Overflow gives an infinity, underflow a zero. *)
Definition roundQ (sign : bool) (num den : Z) : double :=
  if num <=? 0 then S754_zero sign
  else
    let A := num * 2 ^ 1074 in
    let t := binade A den in
    let m := roundHalfEven A (den * 2 ^ t) in
    let '(m', t') := if m =? 2 ^ 53 then (2 ^ 52, t + 1) else (m, t) in
    match m' with
    | Zpos p =>
        if t' - 1074 <=? emax - prec then S754_finite sign p (t' - 1074)
        else S754_infinity sign
    | _ => S754_zero sign
    end.

(** The Number value of a non-negative integer, as of an array length. *)
Definition ofNat (n : nat) : double := roundQ false (Z.of_nat n) 1.

Definition double_eq_dec (x y : double) : {x = y} + {x <> y}.
Proof.
  decide equality; auto using Bool.bool_dec, Pos.eq_dec, Z.eq_dec.
Defined.

Definition double_eqb (x y : double) : bool :=
  if double_eq_dec x y then true else false.

(** The numerator and denominator of the magnitude of a finite double. *)
Definition numOf (m : positive) (e : Z) : Z := Zpos m * 2 ^ Z.max e 0.
Definition denOf (e : Z) : Z := 2 ^ Z.max (- e) 0.

(** *** [parseFloat]

    ECMA-262 [parseFloat(string)]: strip leading white space, take the
    longest prefix that is a [StrDecimalLiteral] (an optional sign, then
    [Infinity] or digits with an optional fraction and an optional
    exponent), and return its Number value, or NaN when there is no
    such prefix. *)

Definition isExponentIndicator (c : N) : bool :=
  ((c =? 101) || (c =? 69))%N.

(** The value of the [ExponentPart] a string starts with, 0 when it
    starts with none. *)
Definition parseExponent (s : jsstring) : Z :=
  match s with
  | c :: r =>
      if isExponentIndicator c then
        let '(neg, r') :=
          match r with
          | c' :: r'' =>
              if (c' =? chPlus)%N then (false, r'')
              else if (c' =? chMinus)%N then (true, r'')
              else (false, r)
          | [] => (false, r)
          end in
        match takeWhile isDigit r' with
        | [] => 0
        | ds => if neg then - digitsVal ds else digitsVal ds
        end
      else 0
  | [] => 0
  end.

(** The Number value of the digits [ds] times ten to the [e]. *)
Definition decimalValue (neg : bool) (ds : jsstring) (e : Z) : double :=
  if 0 <=? e then roundQ neg (digitsVal ds * 10 ^ e) 1
  else roundQ neg (digitsVal ds) (10 ^ (- e)).

(** The fraction digits after a point, and what follows them. *)
Definition splitFraction (r1 : jsstring) : jsstring * jsstring :=
  match r1 with
  | c :: r =>
      if (c =? chDot)%N then (takeWhile isDigit r, dropWhile isDigit r)
      else ([], r1)
  | [] => ([], r1)
  end.

(** The longest [StrUnsignedDecimalLiteral] that [u] starts with. *)
Definition parseUnsigned (neg : bool) (u : jsstring) : double :=
  if startsWith (str "Infinity") u then S754_infinity neg
  else
    let ip := takeWhile isDigit u in
    let '(fp, r2) := splitFraction (dropWhile isDigit u) in
    match ip ++ fp with
    | [] => S754_nan
    | ds => decimalValue neg ds (parseExponent r2 - Z.of_nat (List.length fp))
    end.

Definition parseFloat (s : jsstring) : double :=
  let t := trimStart s in
  match t with
  | c :: r =>
      if (c =? chMinus)%N then parseUnsigned true r
      else if (c =? chPlus)%N then parseUnsigned false r
      else parseUnsigned false t
  | [] => parseUnsigned false t
  end.

(** *** [Number.prototype.toFixed] with two fraction digits

    ECMA-262: a value that is not finite gives its [ToString]; a
    magnitude from 10^21 on gives the [ToString] of the double (the
    shortest digits that read back as the same double, in exponent
    notation); below, the integer [n] nearest to 100 times the magnitude
    (the larger on a tie) is written with a point before its last two
    digits. *)

(** The integer nearest to 100 * num / den, the larger on a tie. *)
Definition hundredths (num den : Z) : Z := (200 * num + den) / (2 * den).

Definition padZeros (len : nat) (ds : jsstring) : jsstring :=
  repeat chZero (len - List.length ds) ++ ds.

(** [n] with a decimal point before its last two digits. *)
Definition fixedDigits (n : Z) : jsstring :=
  let m := padZeros 3 (decimalDigits n) in
  let k := List.length m in
  firstn (k - 2) m ++ chDot :: skipn (k - 2) m.

(** The [k]-digit integers [s] (with the power of ten [n]) for which
    [s * 10^(n - k)] reads back as [x], near the integer [X] that [x]
    holds. *)
Definition candidatesAt (x : double) (X n0 k : Z) : list (Z * Z) :=
  filter
    (fun c => (10 ^ (k - 1) <=? fst c) && (fst c <? 10 ^ k)
              && double_eqb (roundQ false (fst c * 10 ^ (snd c - k)) 1) x)
    (flat_map (fun n => let lo := X / 10 ^ (n - k) in [(lo, n); (lo + 1, n)])
              [n0; n0 + 1]).

(** Of two candidates the one closer to [X], the even one on a tie. *)
Definition better (X k : Z) (a b : Z * Z) : Z * Z :=
  let da := Z.abs (fst a * 10 ^ (snd a - k) - X) in
  let db := Z.abs (fst b * 10 ^ (snd b - k) - X) in
  if db <? da then b
  else if (db =? da) && Z.even (fst b) then b
  else a.

Definition pick (X k : Z) (cs : list (Z * Z)) : option (Z * Z) :=
  match cs with
  | [] => None
  | c :: r => Some (fold_left (better X k) r c)
  end.

(** The least double of digits [k], counted up from the given one, with
    its [s] and [n]; all [n0] digits of [X] when no fewer do. *)
Fixpoint shortestFrom (fuel : nat) (x : double) (X n0 k : Z) : Z * Z * Z :=
  match fuel with
  | O => (X, n0, n0)
  | S f =>
      match pick X k (candidatesAt x X n0 k) with
      | Some (s, n) => (s, k, n)
      | None => shortestFrom f x X n0 (k + 1)
      end
  end.

Definition shortest (x : double) (X : Z) : Z * Z * Z :=
  let n0 := List.length (decimalDigits X) in
  shortestFrom (n0 - 1) x X (Z.of_nat n0) 1.

(** Digits [s] and power [n] in exponent notation, as [ToString] writes
    a value from 10^21 on. *)
Definition exponentForm (s n : Z) : jsstring :=
  match decimalDigits s with
  | d :: rest =>
      d :: match rest with [] => [] | _ :: _ => chDot :: rest end
        ++ str "e+" ++ decimalDigits (n - 1)
  | [] => []
  end.

(** [ToString] of a finite [x] whose value is the integer
    [X >= 10^21]. *)
Definition toStringLarge (x : double) (X : Z) : jsstring :=
  let '(s, _, n) := shortest x X in exponentForm s n.

Definition toFixed2 (x : double) : jsstring :=
  match x with
  | S754_nan => str "NaN"
  | S754_infinity s => (if s then str "-" else []) ++ str "Infinity"
  | S754_zero _ => str "0.00"
  | S754_finite s m e =>
      (if s then str "-" else []) ++
      let num := numOf m e in
      let den := denOf e in
      if 10 ^ 21 * den <=? num
      then toStringLarge (S754_finite false m e) (num / den)
      else fixedDigits (hundredths num den)
  end.

End JsNumber.

Import JsNumber.

(* ================================================================== *)
(** ** [Intl.NumberFormat('de-DE', currency EUR, two fraction digits)] *)
(* ================================================================== *)

Module Intl.
Local Open Scope Z_scope.

Inductive partType :=
| integer | group | decimal | fraction | literal | currency
| minusSign | infinity | nan.

Record part := { type : partType; value : jsstring }.

Definition partType_eq_dec (a b : partType) : {a = b} + {a <> b}.
Proof. decide equality. Defined.

Definition euroSign : jsstring := [8364%N].
Definition noBreakSpace : jsstring := [160%N].
Definition infinitySign : jsstring := [8734%N].

Fixpoint chunk3 (l : jsstring) : list jsstring :=
  match l with
  | a :: b :: c :: r => [a; b; c] :: chunk3 r
  | [] => []
  | l' => [l']
  end.

(** The digits in groups of three, counted from the right. *)
Definition groupsOf (ds : jsstring) : list jsstring :=
  rev (map (@rev N) (chunk3 (rev ds))).

Fixpoint integerParts (gs : list jsstring) : list part :=
  match gs with
  | [] => []
  | [g] => [{| type := integer; value := g |}]
  | g :: r =>
      {| type := integer; value := g |}
        :: {| type := group; value := [chDot] |} :: integerParts r
  end.

(** The parts of a magnitude of [n] hundredths: [1.234,56]. *)
Definition magnitudeParts (n : Z) : list part :=
  integerParts (groupsOf (decimalDigits (n / 100)))
    ++ [{| type := decimal; value := [chComma] |};
        {| type := fraction; value := padZeros 2 (decimalDigits (n mod 100)) |}].

Definition signParts (s : bool) : list part :=
  if s then [{| type := minusSign; value := str "-" |}] else [].

Definition currencyParts : list part :=
  [{| type := literal; value := noBreakSpace |};
   {| type := currency; value := euroSign |}].

(** [currencyFormatter.formatToParts(x)]: the value rounded to two
    fraction digits (half away from zero), digits grouped by three with
    a period, a decimal comma, then a no-break space and the euro
    sign. *)
Definition formatToParts (x : double) : list part :=
  match x with
  | S754_nan => {| type := nan; value := str "NaN" |} :: currencyParts
  | S754_infinity s =>
      signParts s ++ {| type := infinity; value := infinitySign |} :: currencyParts
  | S754_zero s => signParts s ++ magnitudeParts 0 ++ currencyParts
  | S754_finite s m e =>
      signParts s ++ magnitudeParts (hundredths (numOf m e) (denOf e))
        ++ currencyParts
  end.

End Intl.

(* ================================================================== *)
(** ** Regular expressions *)
(* ================================================================== *)

Module Regex.

Inductive regex :=
| Void                                (* matches nothing *)
| Eps                                 (* the empty string *)
| Class (p : N -> bool)               (* one code unit of a class *)
| Seq (r1 r2 : regex)
| Alt (r1 r2 : regex)
| Star (r : regex).

(** [r?] and [r{0,n}] *)
Definition Opt (r : regex) : regex := Alt r Eps.

Fixpoint UpTo (n : nat) (r : regex) : regex :=
  match n with
  | O => Eps
  | S n' => Opt (Seq r (UpTo n' r))
  end.

(** The strings a pattern denotes. *)
Inductive lang : regex -> jsstring -> Prop :=
| lang_eps : lang Eps []
| lang_class p c : p c = true -> lang (Class p) [c]
| lang_seq r1 r2 s1 s2 : lang r1 s1 -> lang r2 s2 -> lang (Seq r1 r2) (s1 ++ s2)
| lang_alt_l r1 r2 s : lang r1 s -> lang (Alt r1 r2) s
| lang_alt_r r1 r2 s : lang r2 s -> lang (Alt r1 r2) s
| lang_star_nil r : lang (Star r) []
| lang_star_cons r s1 s2 :
    lang r s1 -> lang (Star r) s2 -> lang (Star r) (s1 ++ s2).

Fixpoint nullable (r : regex) : bool :=
  match r with
  | Void => false
  | Eps => true
  | Class _ => false
  | Seq r1 r2 => nullable r1 && nullable r2
  | Alt r1 r2 => nullable r1 || nullable r2
  | Star _ => true
  end.

(** The derivative: what may follow the code unit [c]. *)
Fixpoint deriv (c : N) (r : regex) : regex :=
  match r with
  | Void => Void
  | Eps => Void
  | Class p => if p c then Eps else Void
  | Seq r1 r2 =>
      if nullable r1 then Alt (Seq (deriv c r1) r2) (deriv c r2)
      else Seq (deriv c r1) r2
  | Alt r1 r2 => Alt (deriv c r1) (deriv c r2)
  | Star r1 => Seq (deriv c r1) (Star r1)
  end.

(** [/^r$/.test(s)]: the whole string matches. *)
Fixpoint test (r : regex) (s : jsstring) : bool :=
  match s with
  | [] => nullable r
  | c :: s' => test (deriv c r) s'
  end.

End Regex.

(* ================================================================== *)
(** ** The state of the page and what both variants share *)
(* ================================================================== *)

Module Model.
Local Open Scope Z_scope.

Record Input := { id : Z; value : jsstring }.

Record Result := { number : jsstring; currency : jsstring }.

(** The component state: the [useState] cells and the [nextId] ref.
    Ids are small integer Numbers, on which [+= 1] and [===] are exact;
    they are taken in [Z]. *)
Record State := {
  inputs : list Input;
  nextId : Z;
  result : Result;
  error : jsstring;
  isResultVisible : bool
}.

Definition setInputs (v : list Input) (s : State) : State :=
  {| inputs := v; nextId := nextId s; result := result s;
     error := error s; isResultVisible := isResultVisible s |}.

Definition setNextId (v : Z) (s : State) : State :=
  {| inputs := inputs s; nextId := v; result := result s;
     error := error s; isResultVisible := isResultVisible s |}.

Definition setResult (v : Result) (s : State) : State :=
  {| inputs := inputs s; nextId := nextId s; result := v;
     error := error s; isResultVisible := isResultVisible s |}.

Definition setError (v : jsstring) (s : State) : State :=
  {| inputs := inputs s; nextId := nextId s; result := result s;
     error := v; isResultVisible := isResultVisible s |}.

Definition setIsResultVisible (v : bool) (s : State) : State :=
  {| inputs := inputs s; nextId := nextId s; result := result s;
     error := error s; isResultVisible := v |}.

(** The state a freshly mounted component starts from. *)
Definition initialState : State :=
  {| inputs := [{| id := 1; value := [] |}];
     nextId := 2;
     result := {| number := str "0.00"; currency := Intl.euroSign |};
     error := [];
     isResultVisible := false |}.

(** The two failures of a calculation, and the message of each. *)
Inductive ErrorKind := MissingAmount | InvalidAmount.

Definition message (k : ErrorKind) : jsstring :=
  match k with
  | MissingAmount =>
      str "Bitte f" ++ [252%N]
        ++ str "llen Sie alle Felder aus oder entfernen Sie leere Zeilen."
  | InvalidAmount =>
      str "Bitte stellen Sie sicher, dass alle Betr" ++ [228%N]
        ++ str "ge g" ++ [252%N] ++ str "ltige, positive Zahlen sind."
  end.

(** [/^\d*([,.]\d{0,2})?$/] *)
Definition isSeparator (c : N) : bool := ((c =? chComma) || (c =? chDot))%N.

Definition decimalInput : Regex.regex :=
  Regex.Seq (Regex.Star (Regex.Class isDigit))
    (Regex.Opt (Regex.Seq (Regex.Class isSeparator)
                          (Regex.UpTo 2 (Regex.Class isDigit)))).

(** [input.value.trim() === ''] *)
Definition isBlank (text : jsstring) : bool := isEmpty (trim text).

(** [parseFloat(input.value.replace(',', '.'))] *)
Definition numericValueOf (text : jsstring) : double :=
  parseFloat (replace chComma chDot text).

(** [isNaN(numericValue) || numericValue < 0] *)
Definition isInvalid (numericValue : double) : bool :=
  isNaN numericValue || ltb numericValue zero.

(** [inputs.map(i => i.id === id ? { ...i, value } : i)] *)
Definition withValue (id0 : Z) (v : jsstring) (l : list Input) : list Input :=
  map (fun input =>
         if id input =? id0 then {| id := id input; value := v |} else input)
      l.

(** The body of the [parts.forEach] of the calculation: the currency
    part gives the symbol, the integer, group, decimal and fraction parts
    the number text; every other part is dropped. *)
Definition collectPart (acc : Result) (part : Intl.part) : Result :=
  match Intl.type part with
  | Intl.currency => {| number := number acc; currency := Intl.value part |}
  | Intl.integer | Intl.group | Intl.decimal | Intl.fraction =>
      {| number := number acc ++ Intl.value part; currency := currency acc |}
  | _ => acc
  end.

Definition collectParts (parts : list Intl.part) : Result :=
  fold_left collectPart parts {| number := []; currency := Intl.euroSign |}.

(** [(sum / inputs.length) * 0.05] *)
Definition finalResultValue (sum : double) (count : nat) : double :=
  mul (div sum (ofNat count)) (roundQ false 5 100).

(** The end of a successful calculation, the same in both variants. *)
Definition publish (sum : double) (s : State) : State :=
  let s1 := setError [] s in
  let parts := Intl.formatToParts (finalResultValue sum (List.length (inputs s))) in
  setIsResultVisible true (setResult (collectParts parts) s1).

(** The end of a failed calculation. *)
Definition failWith (k : ErrorKind) (s : State) : State :=
  setIsResultVisible false (setError (message k) s).

End Model.

Import Model.

(* ================================================================== *)
(** ** The strict variant *)
(* ================================================================== *)

Module Strict.
Local Open Scope Z_scope.

Definition handleInputChange (id0 : Z) (v : jsstring) (s : State) : State :=
  let s1 := if isResultVisible s then setIsResultVisible false s else s in
  if Regex.test decimalInput v then
    let newInputs := withValue id0 v (inputs s) in
    let s2 := setInputs newInputs s1 in
    if negb (isEmpty (error s)) then setError [] s2 else s2
  else s1.

Definition handleInputBlur (id0 : Z) (s : State) : State :=
  match find (fun i => id i =? id0) (inputs s) with
  | None => s
  | Some input =>
      if isBlank (value input) then s
      else
        let numericValue := numericValueOf (value input) in
        if negb (isNaN numericValue) then
          let formattedValue := replace chDot chComma (toFixed2 numericValue) in
          setInputs (withValue id0 formattedValue (inputs s)) s
        else s
  end.

Definition addInput (s : State) : State :=
  setNextId (nextId s + 1)
    (setInputs (inputs s ++ [{| id := nextId s; value := [] |}]) s).

Definition removeInput (id0 : Z) (s : State) : State :=
  if (1 <? List.length (inputs s))%nat
  then setInputs (filter (fun input => negb (id input =? id0)) (inputs s)) s
  else s.

(** The [for] loop of the calculation: the sum of the rows, or the
    failure of the first row that stops it. *)
Fixpoint sumInputs (l : list Input) (sum : double) : double + ErrorKind :=
  match l with
  | [] => inl sum
  | input :: rest =>
      if isBlank (value input) then inr MissingAmount
      else
        let numericValue := numericValueOf (value input) in
        if isInvalid numericValue then inr InvalidAmount
        else sumInputs rest (add sum numericValue)
  end.

Definition handleCalculation (s : State) : State :=
  match sumInputs (inputs s) zero with
  | inr k => failWith k s
  | inl sum => publish sum s
  end.

Definition handleReset (s : State) : State :=
  setResult {| number := str "0.00"; currency := Intl.euroSign |}
    (setError []
       (setIsResultVisible false
          (setNextId 2 (setInputs [{| id := 1; value := [] |}] s)))).

(** The events of the page. *)
Inductive Op :=
| InputChange (id0 : Z) (v : jsstring)
| InputBlur (id0 : Z)
| AddInput
| RemoveInput (id0 : Z)
| Calculation
| ResetForm.

Definition step (s : State) (op : Op) : State :=
  match op with
  | InputChange id0 v => handleInputChange id0 v s
  | InputBlur id0 => handleInputBlur id0 s
  | AddInput => addInput s
  | RemoveInput id0 => removeInput id0 s
  | Calculation => handleCalculation s
  | ResetForm => handleReset s
  end.

Definition run (ops : list Op) (s : State) : State := fold_left step ops s.

(** The ids of the rows that a sequence of events creates, in order. *)
Fixpoint createdIds (ops : list Op) (s : State) : list Z :=
  match ops with
  | [] => []
  | op :: rest =>
      match op with
      | AddInput => [nextId s]
      | ResetForm => [1]
      | _ => []
      end ++ createdIds rest (step s op)
  end.

End Strict.

(* ================================================================== *)
(** ** The lenient variant *)
(* ================================================================== *)

Module Lenient.
Local Open Scope Z_scope.

Definition handleInputChange (id0 : Z) (v : jsstring) (s : State) : State :=
  let newInputs := withValue id0 v (inputs s) in
  let s1 := setInputs newInputs s in
  if negb (isEmpty (error s)) then setError [] s1 else s1.

Definition addInput (s : State) : State :=
  setNextId (nextId s + 1)
    (setInputs (inputs s ++ [{| id := nextId s; value := [] |}]) s).

Definition removeInput (id0 : Z) (s : State) : State :=
  if (1 <? List.length (inputs s))%nat
  then setInputs (filter (fun input => negb (id input =? id0)) (inputs s)) s
  else s.

(** The [for] loop of the calculation: blank rows are passed over. *)
Fixpoint sumInputs (l : list Input) (sum : double) : double + ErrorKind :=
  match l with
  | [] => inl sum
  | input :: rest =>
      if isBlank (value input) then sumInputs rest sum
      else
        let numericValue := numericValueOf (value input) in
        if isInvalid numericValue then inr InvalidAmount
        else sumInputs rest (add sum numericValue)
  end.

Definition handleCalculation (s : State) : State :=
  match sumInputs (inputs s) zero with
  | inr k => failWith k s
  | inl sum => publish sum s
  end.

Inductive Op :=
| InputChange (id0 : Z) (v : jsstring)
| AddInput
| RemoveInput (id0 : Z)
| Calculation.

Definition step (s : State) (op : Op) : State :=
  match op with
  | InputChange id0 v => handleInputChange id0 v s
  | AddInput => addInput s
  | RemoveInput id0 => removeInput id0 s
  | Calculation => handleCalculation s
  end.

Definition run (ops : list Op) (s : State) : State := fold_left step ops s.

Fixpoint createdIds (ops : list Op) (s : State) : list Z :=
  match ops with
  | [] => []
  | op :: rest =>
      match op with
      | AddInput => [nextId s]
      | _ => []
      end ++ createdIds rest (step s op)
  end.

End Lenient.

(* ================================================================== *)
(** ** What the page renders from the state *)
(* ================================================================== *)

Module View.

(** [disabled={inputs.length <= 1}] of the remove button of a row. *)
Definition removeDisabled (s : State) : bool :=
  (List.length (inputs s) <=? 1)%nat.

(** [{isResultVisible && (...)}]: the result card is rendered. *)
Definition resultShown (s : State) : bool := isResultVisible s.

(** [{error && !isResultVisible && (...)}]: the error card of the strict
    page is rendered; a string is truthy when it is not empty. *)
Definition strictErrorShown (s : State) : bool :=
  negb (isEmpty (error s)) && negb (isResultVisible s).

(** [{error && <p ...>{error}</p>}]: the error line of the lenient page. *)
Definition lenientErrorShown (s : State) : bool := negb (isEmpty (error s)).

End View.

(* ================================================================== *)
(** ** The vocabulary of the statements *)
(* ================================================================== *)

Section Vocabulary.
Local Open Scope Z_scope.

(** What every reachable state satisfies: there is a row, the rows have
    distinct ids, and every id is below the counter. *)
Definition wellFormed (s : State) : Prop :=
  inputs s <> []
  /\ NoDup (map id (inputs s))
  /\ Forall (fun i => id i < nextId s) (inputs s).

(** A row the strict loop passes: not blank, and a number that is
    neither NaN nor negative. *)
Definition strictRowOk (i : Input) : Prop :=
  isBlank (value i) = false /\ isInvalid (numericValueOf (value i)) = false.

(** A row the lenient loop passes: blank, or such a number. *)
Definition lenientRowOk (i : Input) : Prop :=
  isBlank (value i) = true \/ isInvalid (numericValueOf (value i)) = false.

(** The running sum over the rows, blank rows adding nothing. *)
Definition sumParsed (l : list Input) (sum : double) : double :=
  fold_left
    (fun acc i =>
       if isBlank (value i) then acc else add acc (numericValueOf (value i)))
    l sum.


(** A row of a concrete state, and a state that holds given rows. *)
Definition row (n : Z) (text : string) : Input :=
  {| id := n; value := str text |}.

Definition withInputs (l : list Input) : State := setInputs l initialState.


(** A text of digits only. *)
Definition allDigits (s : jsstring) : Prop :=
  Forall (fun c => isDigit c = true) s.

(** The pattern in the words of the specification: zero or more digits,
    optionally followed by a single comma or period and zero to two
    digits. *)
Definition decimalPattern (v : jsstring) : Prop :=
  exists ds,
    allDigits ds
    /\ (v = ds
        \/ exists sep fs,
             isSeparator sep = true /\ allDigits fs
             /\ (List.length fs <= 2)%nat /\ v = ds ++ sep :: fs).

(** A finite double in canonical form: at most 53 bits of mantissa, the
    exponent in range, and a full mantissa unless the exponent is the
    least one. *)
Definition validFinite (m : positive) (e : Z) : Prop :=
  Zpos m < 2 ^ 53 /\ -1074 <= e <= 971 /\ (e = -1074 \/ 2 ^ 52 <= Zpos m).

(** The value of a finite double in units of 2^-1074, an integer. *)
Definition scaled (m : positive) (e : Z) : Z := Zpos m * 2 ^ (e + 1074).

(** A rest of text that a run of digits stops at. *)
Definition stopsDigits (r : jsstring) : Prop :=
  match r with [] => True | c :: _ => isDigit c = false end.

(** Digits [s] and a power [n] that read back as the double [x]. *)
Definition readsBack (x : double) (s n : Z) : Prop :=
  0 <= s
  /\ Z.of_nat (List.length (decimalDigits s)) <= n
  /\ roundQ false (s * 10 ^ (n - Z.of_nat (List.length (decimalDigits s)))) 1 = x.

(** A text that starts with a digit or with the I of Infinity. *)
Definition digitHead (f : jsstring) : Prop :=
  exists c r, f = c :: r /\ (isDigit c = true \/ c = 73%N).

(** A double as the strict variant reads one from its rows: not
    negative, and in canonical form. *)
Definition plainValue (x : double) : Prop :=
  match x with
  | S754_nan => True
  | S754_zero s | S754_infinity s => s = false
  | S754_finite s m e => s = false /\ validFinite m e
  end.

(** A text whose first code unit is neither white space nor a minus. *)
Definition plainText (t : jsstring) : Prop :=
  match t with
  | [] => True
  | c :: _ => isWhiteSpace c = false /\ (c =? chMinus)%N = false
  end.

(** Every row holds a text the strict variant let in or wrote itself. *)
Definition textsPlain (s : State) : Prop :=
  Forall (fun i => plainText (value i)) (inputs s).

(** A divisor that makes a division one by zero. *)
Definition isZero (x : double) : bool :=
  match x with S754_zero _ => true | _ => false end.

(** The parts whose text the calculation keeps, and the text of a run
    of parts. *)
Definition isNumberPart (p : Intl.part) : bool :=
  match Intl.type p with
  | Intl.integer | Intl.group | Intl.decimal | Intl.fraction => true
  | _ => false
  end.

Definition partsText (ps : list Intl.part) : jsstring :=
  List.concat (map Intl.value ps).

(** What the integer part of a formatted number is made of. *)
Definition digitOrDot (c : N) : Prop := isDigit c = true \/ c = chDot.

(** A number text with exactly two fraction digits: integer digits in
    groups separated by periods, a decimal comma, two digits. *)
Definition twoFractionDigits (t : jsstring) : Prop :=
  exists ip d1 d2,
    t = ip ++ [chComma; d1; d2]
    /\ isDigit d1 = true /\ isDigit d2 = true
    /\ ip <> []
    /\ Forall (fun c => isDigit c = true \/ c = chDot) ip.

(** A text of white space only. *)
Definition allWhiteSpace (t : jsstring) : Prop :=
  Forall (fun c => isWhiteSpace c = true) t.

(** A double that is a number and not below zero: what the calculation
    loop lets pass. *)
Definition nonNegative (x : double) : Prop :=
  match x with
  | S754_nan => False
  | S754_zero s | S754_infinity s | S754_finite s _ _ => s = false
  end.

(** A rest of text at which a decimal literal ends: no digit, no
    exponent indicator. *)
Definition endsLiteral (r : jsstring) : Prop :=
  match r with
  | [] => True
  | c :: _ => isDigit c = false /\ isExponentIndicator c = false
  end.

(** The text of a lone separator. *)
Definition loneSeparator (t : jsstring) : Prop := t = [chComma] \/ t = [chDot].

(** A text the calculation takes as an amount. *)
Definition amountText (t : jsstring) : Prop :=
  isBlank t = false /\ isInvalid (numericValueOf t) = false.

(** The texts a row of the strict page can hold: the empty one, a lone
    separator, or an amount. *)
Definition strictText (t : jsstring) : Prop :=
  t = [] \/ loneSeparator t \/ amountText t.

Definition textsStrict (s : State) : Prop :=
  Forall (fun i => strictText (value i)) (inputs s).

(** The rows are in the order of their ids, which lie from 1 up to the
    counter. *)
Definition orderedIds (s : State) : Prop :=
  StronglySorted Z.lt (map id (inputs s))
  /\ Forall (fun i => 1 <= id i < nextId s) (inputs s)
  /\ 2 <= nextId s.

(** An error message and a visible result exclude each other. *)
Definition errorHidesResult (s : State) : Prop :=
  isResultVisible s = true -> error s = [].

(** What the calculation reads of a row: whether it is blank, and its
    number. *)
Definition reading (i : Input) : bool * double :=
  (isBlank (value i), numericValueOf (value i)).

(** A text whose number survives the rewriting on blur: blank and
    unreadable texts are not rewritten, and any other is rewritten to a
    text that reads as the same number. *)
Definition stableText (t : jsstring) : Prop :=
  isBlank t = true \/ isNaN (numericValueOf t) = true
  \/ numericValueOf (replace chDot chComma (toFixed2 (numericValueOf t)))
     = numericValueOf t.

Definition textsStable (s : State) : Prop :=
  Forall (fun i => stableText (value i)) (inputs s).

(** The events of the strict page that leave the number of rows. *)
Definition keepsRows (op : Strict.Op) : bool :=
  match op with
  | Strict.AddInput | Strict.RemoveInput _ => false
  | _ => true
  end.

(** A visible result is the one a calculation on the rows as they stand
    gives: calculating again changes nothing. *)
Definition resultCurrent (s : State) : Prop :=
  isResultVisible s = true -> Strict.handleCalculation s = s.

End Vocabulary.

(* ================================================================== *)
(** ** States the page can reach *)
(* ================================================================== *)

Section Reachability.
Local Open Scope Z_scope.

Lemma map_id_withValue id0 v l : map id (withValue id0 v l) = map id l.
Proof.
  unfold withValue. induction l as [|a l IH]; simpl; [reflexivity|].
  rewrite IH. destruct (id a =? id0); reflexivity.
Qed.

Lemma withValue_nil id0 v l : withValue id0 v l = [] -> l = [].
Proof. destruct l; simpl; [reflexivity | discriminate]. Qed.

Lemma Forall_id_withValue (P : Z -> Prop) id0 v l :
  Forall (fun i => P (id i)) l -> Forall (fun i => P (id i)) (withValue id0 v l).
Proof.
  unfold withValue. induction 1 as [|a l Ha _ IH]; simpl; constructor; auto.
  destruct (id a =? id0); simpl; assumption.
Qed.

Lemma wellFormed_withValue id0 v s :
  wellFormed s -> wellFormed (setInputs (withValue id0 v (inputs s)) s).
Proof.
  intros (Hne & Hnd & Hlt). repeat split; simpl.
  - intros H. apply Hne. eapply withValue_nil; eassumption.
  - rewrite map_id_withValue. assumption.
  - apply (Forall_id_withValue (fun z => z < nextId s)). assumption.
Qed.

Lemma NoDup_map_id_filter (f : Input -> bool) l :
  NoDup (map id l) -> NoDup (map id (filter f l)).
Proof.
  induction l as [|a l IH]; simpl; intros H; [constructor|].
  inversion H as [|x xs Hnotin Hnd]; subst.
  destruct (f a); simpl; auto.
  constructor; auto.
  intros Hin. apply Hnotin.
  apply in_map_iff in Hin. destruct Hin as (b & Hb & Hin).
  apply filter_In in Hin. rewrite <- Hb. apply in_map. tauto.
Qed.

Lemma Forall_filter (P : Input -> Prop) (f : Input -> bool) l :
  Forall P l -> Forall P (filter f l).
Proof.
  induction 1 as [|a l Ha _ IH]; simpl; [constructor|].
  destruct (f a); auto.
Qed.

(** Removing by id from two or more rows with distinct ids leaves a row. *)
Lemma filter_other_ids_nonempty id0 l :
  NoDup (map id l) -> (1 < List.length l)%nat ->
  filter (fun input => negb (id input =? id0)) l <> [].
Proof.
  destruct l as [|a [|b l]]; simpl; try lia.
  intros Hnd _.
  inversion Hnd as [|x xs Hnotin _]; subst.
  destruct (Z.eqb_spec (id a) id0) as [Ha|Ha]; simpl; [|discriminate].
  destruct (Z.eqb_spec (id b) id0) as [Hb|Hb]; simpl; [|discriminate].
  exfalso. apply Hnotin. left. congruence.
Qed.

Lemma wellFormed_initialState : wellFormed initialState.
Proof.
  repeat split; simpl.
  - discriminate.
  - constructor; [intros [] | constructor].
  - constructor; [simpl; lia | constructor].
Qed.

Lemma wellFormed_add s :
  wellFormed s ->
  wellFormed
    (setNextId (nextId s + 1)
       (setInputs (inputs s ++ [{| id := nextId s; value := [] |}]) s)).
Proof.
  intros (Hne & Hnd & Hlt). repeat split; simpl.
  - intros H. apply app_eq_nil in H. destruct H; discriminate.
  - rewrite map_app. simpl.
    apply NoDup_app; [assumption | constructor; [intros [] | constructor] |].
    intros x Hx [Hx'|[]]. subst x.
    apply in_map_iff in Hx. destruct Hx as (i & Hi & Hin).
    rewrite Forall_forall in Hlt. specialize (Hlt i Hin). lia.
  - apply Forall_app. split.
    + eapply Forall_impl; [|eassumption]. simpl. intros; lia.
    + constructor; [simpl; lia | constructor].
Qed.

Lemma wellFormed_remove id0 s :
  wellFormed s ->
  wellFormed
    (if (1 <? List.length (inputs s))%nat
     then setInputs (filter (fun input => negb (id input =? id0)) (inputs s)) s
     else s).
Proof.
  intros Hwf. destruct (Nat.ltb_spec 1 (List.length (inputs s))) as [Hlen|Hlen];
    [|assumption].
  destruct Hwf as (Hne & Hnd & Hlt). repeat split; simpl.
  - apply filter_other_ids_nonempty; assumption.
  - apply NoDup_map_id_filter; assumption.
  - apply Forall_filter; assumption.
Qed.

Lemma wellFormed_publish sum s : wellFormed s -> wellFormed (publish sum s).
Proof. intros H. exact H. Qed.

Lemma wellFormed_failWith k s : wellFormed s -> wellFormed (failWith k s).
Proof. intros H. exact H. Qed.

Lemma strict_step_wellFormed s op : wellFormed s -> wellFormed (Strict.step s op).
Proof.
  intros Hwf. destruct op as [id0 v|id0| |id0| |]; simpl.
  - unfold Strict.handleInputChange.
    assert (Hs1 : wellFormed
              (if isResultVisible s then setIsResultVisible false s else s))
      by (destruct (isResultVisible s); exact Hwf).
    destruct (Regex.test decimalInput v); [|exact Hs1].
    assert (H2 : wellFormed
              (setInputs (withValue id0 v (inputs s))
                 (if isResultVisible s then setIsResultVisible false s else s))).
    { destruct (isResultVisible s); apply (wellFormed_withValue id0 v Hwf). }
    destruct (negb (isEmpty (error s))); exact H2.
  - unfold Strict.handleInputBlur.
    destruct (find _ (inputs s)) as [input|]; [|exact Hwf].
    destruct (isBlank (value input)); [exact Hwf|].
    destruct (negb (isNaN (numericValueOf (value input)))); [|exact Hwf].
    apply wellFormed_withValue; exact Hwf.
  - apply wellFormed_add; exact Hwf.
  - apply wellFormed_remove; exact Hwf.
  - unfold Strict.handleCalculation.
    destruct (Strict.sumInputs (inputs s) zero); exact Hwf.
  - exact wellFormed_initialState.
Qed.

Lemma lenient_step_wellFormed s op : wellFormed s -> wellFormed (Lenient.step s op).
Proof.
  intros Hwf. destruct op as [id0 v| |id0| ]; simpl.
  - unfold Lenient.handleInputChange.
    destruct (negb (isEmpty (error s)));
      apply (wellFormed_withValue id0 v Hwf).
  - apply wellFormed_add; exact Hwf.
  - apply wellFormed_remove; exact Hwf.
  - unfold Lenient.handleCalculation.
    destruct (Lenient.sumInputs (inputs s) zero); exact Hwf.
Qed.

Lemma strict_run_wellFormed ops : forall s,
  wellFormed s -> wellFormed (Strict.run ops s).
Proof.
  induction ops as [|op ops IH]; simpl; intros s Hwf; [exact Hwf|].
  apply IH, strict_step_wellFormed, Hwf.
Qed.

Lemma lenient_run_wellFormed ops : forall s,
  wellFormed s -> wellFormed (Lenient.run ops s).
Proof.
  induction ops as [|op ops IH]; simpl; intros s Hwf; [exact Hwf|].
  apply IH, lenient_step_wellFormed, Hwf.
Qed.

End Reachability.

(* ================================================================== *)
(** ** The calculation loop *)
(* ================================================================== *)

Section CalculationLoop.
Local Open Scope Z_scope.

Lemma strict_sumInputs_app pre rest : forall sum,
  Forall strictRowOk pre ->
  Strict.sumInputs (pre ++ rest) sum = Strict.sumInputs rest (sumParsed pre sum).
Proof.
  induction pre as [|a pre IH]; simpl; intros sum H; [reflexivity|].
  inversion H as [|x xs [Hb Hv] Hrest]; subst.
  unfold sumParsed. simpl. rewrite Hb, Hv. apply IH. assumption.
Qed.

Lemma lenient_sumInputs_app pre rest : forall sum,
  Forall lenientRowOk pre ->
  Lenient.sumInputs (pre ++ rest) sum = Lenient.sumInputs rest (sumParsed pre sum).
Proof.
  induction pre as [|a pre IH]; simpl; intros sum H; [reflexivity|].
  inversion H as [|x xs Ha Hrest]; subst.
  unfold sumParsed. simpl.
  destruct (isBlank (value a)) eqn:Hb; [apply IH; assumption|].
  destruct Ha as [Ha|Ha]; [congruence|].
  rewrite Ha. apply IH. assumption.
Qed.

Lemma strict_sumInputs_ok l sum :
  Forall strictRowOk l -> Strict.sumInputs l sum = inl (sumParsed l sum).
Proof.
  intros H. rewrite <- (app_nil_r l) at 1.
  rewrite strict_sumInputs_app by assumption. reflexivity.
Qed.


(** The strict loop fails on every list that holds a blank row. *)
Lemma strict_sumInputs_blank l : forall sum,
  existsb (fun i => isBlank (value i)) l = true ->
  exists k, Strict.sumInputs l sum = inr k.
Proof.
  induction l as [|a l IH]; simpl; intros sum H; [discriminate|].
  destruct (isBlank (value a)); [eexists; reflexivity|].
  destruct (isInvalid (numericValueOf (value a))); [eexists; reflexivity|].
  apply IH. exact H.
Qed.

(** The lenient loop never reports a missing amount. *)
Lemma lenient_sumInputs_kind l : forall sum k,
  Lenient.sumInputs l sum = inr k -> k = InvalidAmount.
Proof.
  induction l as [|a l IH]; simpl; intros sum k H; [discriminate|].
  destruct (isBlank (value a)); [eauto|].
  destruct (isInvalid (numericValueOf (value a))); [congruence | eauto].
Qed.

(** What a failed calculation leaves: one message, a hidden result card,
    and everything else as it was. *)
Lemma failWith_spec k s :
  error (failWith k s) = message k
  /\ isResultVisible (failWith k s) = false
  /\ result (failWith k s) = result s
  /\ inputs (failWith k s) = inputs s
  /\ nextId (failWith k s) = nextId s.
Proof. repeat split. Qed.

Lemma message_nonempty k : message k <> [].
Proof. destruct k; vm_compute; discriminate. Qed.

Lemma message_injective k1 k2 : message k1 = message k2 -> k1 = k2.
Proof.
  destruct k1, k2; intros H; try reflexivity; vm_compute in H; discriminate H.
Qed.

End CalculationLoop.

(* ================================================================== *)
(** ** Rows, ids and reset *)
(* ================================================================== *)

Section Rows.
Local Open Scope Z_scope.

(** C6: removing the only row changes nothing, and no sequence of events
    of either variant leaves the page without a row. *)
Theorem C6_sole_row_stays :
  (forall ops, inputs (Strict.run ops initialState) <> [])
  /\ (forall ops, inputs (Lenient.run ops initialState) <> [])
  /\ (forall ops id0,
        List.length (inputs (Strict.run ops initialState)) = 1%nat ->
        Strict.removeInput id0 (Strict.run ops initialState)
        = Strict.run ops initialState)
  /\ (forall ops id0,
        List.length (inputs (Lenient.run ops initialState)) = 1%nat ->
        Lenient.removeInput id0 (Lenient.run ops initialState)
        = Lenient.run ops initialState).
Proof.
  split; [|split; [|split]].
  - intros ops. apply (strict_run_wellFormed ops wellFormed_initialState).
  - intros ops. apply (lenient_run_wellFormed ops wellFormed_initialState).
  - intros ops id0 H. unfold Strict.removeInput. rewrite H. reflexivity.
  - intros ops id0 H. unfold Lenient.removeInput. rewrite H. reflexivity.
Qed.

(** C9: whatever happened before, a reset leaves one blank row, no error,
    the default result ['0.00'] with the euro sign, and the result card
    hidden: the state of a freshly mounted page. *)
Theorem C9_reset_restores_initial_state : forall ops,
  let s := Strict.handleReset (Strict.run ops initialState) in
  map value (inputs s) = [[]]
  /\ error s = []
  /\ result s = {| number := str "0.00"; currency := Intl.euroSign |}
  /\ isResultVisible s = false
  /\ s = initialState.
Proof. intros ops. repeat split. Qed.

Lemma strict_nextId_step s op :
  op <> Strict.ResetForm ->
  nextId (Strict.step s op)
  = nextId s + match op with Strict.AddInput => 1 | _ => 0 end.
Proof.
  intros Hop. destruct op as [id0 v|id0| |id0| |]; simpl.
  - unfold Strict.handleInputChange.
    destruct (isResultVisible s), (Regex.test decimalInput v),
      (negb (isEmpty (error s))); simpl; lia.
  - unfold Strict.handleInputBlur.
    destruct (find _ (inputs s)) as [input|]; [|lia].
    destruct (isBlank (value input)); [lia|].
    destruct (negb (isNaN (numericValueOf (value input)))); simpl; lia.
  - reflexivity.
  - unfold Strict.removeInput.
    destruct (1 <? List.length (inputs s))%nat; simpl; lia.
  - unfold Strict.handleCalculation.
    destruct (Strict.sumInputs (inputs s) zero); simpl; lia.
  - congruence.
Qed.

Lemma lenient_nextId_step s op :
  nextId (Lenient.step s op)
  = nextId s + match op with Lenient.AddInput => 1 | _ => 0 end.
Proof.
  destruct op as [id0 v| |id0| ]; simpl.
  - unfold Lenient.handleInputChange.
    destruct (negb (isEmpty (error s))); simpl; lia.
  - reflexivity.
  - unfold Lenient.removeInput.
    destruct (1 <? List.length (inputs s))%nat; simpl; lia.
  - unfold Lenient.handleCalculation.
    destruct (Lenient.sumInputs (inputs s) zero); simpl; lia.
Qed.

(** Without a reset the counter only grows, so the ids handed out are
    distinct and none is below the counter they started from. *)
Lemma strict_createdIds_fresh ops : forall s,
  Forall (fun op => op <> Strict.ResetForm) ops ->
  NoDup (Strict.createdIds ops s)
  /\ Forall (fun x => nextId s <= x) (Strict.createdIds ops s).
Proof.
  induction ops as [|op ops IH]; intros s Hops; simpl.
  - split; constructor.
  - inversion Hops as [|x xs Hop Hrest]; subst.
    destruct (IH (Strict.step s op) Hrest) as [Hnd Hge].
    rewrite (strict_nextId_step s Hop) in Hge.
    destruct op; simpl in *; try contradiction;
      try (split; [assumption | eapply Forall_impl; [|eassumption]; simpl; intros; lia]).
    split.
    + constructor; [|assumption].
      intros Hin. rewrite Forall_forall in Hge. specialize (Hge _ Hin). lia.
    + constructor; [lia|]. eapply Forall_impl; [|eassumption]. simpl; intros; lia.
Qed.

Lemma lenient_createdIds_fresh ops : forall s,
  NoDup (Lenient.createdIds ops s)
  /\ Forall (fun x => nextId s <= x) (Lenient.createdIds ops s).
Proof.
  induction ops as [|op ops IH]; intros s; simpl.
  - split; constructor.
  - destruct (IH (Lenient.step s op)) as [Hnd Hge].
    rewrite (lenient_nextId_step s) in Hge.
    destruct op; simpl in *;
      try (split; [assumption | eapply Forall_impl; [|eassumption]; simpl; intros; lia]).
    split.
    + constructor; [|assumption].
      intros Hin. rewrite Forall_forall in Hge. specialize (Hge _ Hin). lia.
    + constructor; [lia|]. eapply Forall_impl; [|eassumption]. simpl; intros; lia.
Qed.

Lemma NoDup_one_cons l : NoDup l -> Forall (fun x => 2 <= x) l -> NoDup (1 :: l).
Proof.
  intros Hnd Hge. constructor; [|assumption].
  intros Hin. rewrite Forall_forall in Hge. specialize (Hge _ Hin). lia.
Qed.

(** C8, as the code has it: the ids of the rows created since the page
    was mounted (lenient variant, which has no reset) or since the last
    reset (strict variant) are pairwise distinct, the first row's id 1
    included.  The row that [addInput] appends carries the counter. *)
Theorem C8_ids_fresh_since_last_reset :
  (forall ops, NoDup (1 :: Lenient.createdIds ops initialState))
  /\ (forall post,
        Forall (fun op => op <> Strict.ResetForm) post ->
        NoDup (1 :: Strict.createdIds post initialState))
  /\ (forall pre post,
        Forall (fun op => op <> Strict.ResetForm) post ->
        NoDup (Strict.createdIds (Strict.ResetForm :: post)
                 (Strict.run pre initialState)))
  /\ (forall s, inputs (Strict.addInput s)
                = inputs s ++ [{| id := nextId s; value := [] |}])
  /\ (forall s, inputs (Lenient.addInput s)
                = inputs s ++ [{| id := nextId s; value := [] |}]).
Proof.
  split; [|split; [|split; [|split]]].
  - intros ops. destruct (lenient_createdIds_fresh ops initialState).
    apply NoDup_one_cons; assumption.
  - intros post Hpost. destruct (strict_createdIds_fresh initialState Hpost).
    apply NoDup_one_cons; assumption.
  - intros pre post Hpost. simpl.
    destruct (strict_createdIds_fresh initialState Hpost).
    apply NoDup_one_cons; assumption.
  - reflexivity.
  - reflexivity.
Qed.

(** C8 as stated fails in the strict variant: a reset puts the counter
    back to 2, and the next added row gets the id of an earlier one. *)
Lemma C8_counterexample_reset_reuses_id :
  Strict.createdIds [Strict.AddInput; Strict.ResetForm; Strict.AddInput]
    initialState = [2; 1; 2]
  /\ ~ NoDup (1 :: Strict.createdIds
                     [Strict.AddInput; Strict.ResetForm; Strict.AddInput]
                     initialState).
Proof.
  split; [reflexivity|].
  simpl. intros H. inversion H as [|x xs _ H1]; subst.
  inversion H1 as [|x xs Hnotin _]; subst.
  apply Hnotin. right. left. reflexivity.
Qed.

End Rows.

(* ================================================================== *)
(** ** Failures of the calculation *)
(* ================================================================== *)

Section Failures.
Local Open Scope Z_scope.

(** C2, as the code has it: the strict calculation fails on every list
    that holds a blank row and leaves the stored result as it was; the
    failure is [MissingAmount] when every row before the first blank one
    is a valid amount (an invalid row met earlier stops the loop first,
    with [InvalidAmount]). *)
Theorem C2_strict_blank_row_fails : forall s,
  (existsb (fun i => isBlank (value i)) (inputs s) = true ->
   exists k,
     Strict.handleCalculation s = failWith k s
     /\ error (Strict.handleCalculation s) = message k
     /\ result (Strict.handleCalculation s) = result s)
  /\ (forall pre x post,
        inputs s = pre ++ x :: post ->
        Forall strictRowOk pre ->
        isBlank (value x) = true ->
        Strict.handleCalculation s = failWith MissingAmount s
        /\ error (Strict.handleCalculation s) = message MissingAmount
        /\ isResultVisible (Strict.handleCalculation s) = false
        /\ result (Strict.handleCalculation s) = result s).
Proof.
  intros s. split.
  - intros H. destruct (strict_sumInputs_blank (inputs s) zero H) as [k Hk].
    exists k. unfold Strict.handleCalculation. rewrite Hk. repeat split.
  - intros pre x post Hin Hpre Hx.
    unfold Strict.handleCalculation. rewrite Hin.
    rewrite strict_sumInputs_app by assumption. simpl. rewrite Hx.
    repeat split.
Qed.

Lemma C2_witness_five_then_blank :
  let s := withInputs [row 1 "5"; row 2 ""] in
  existsb (fun i => isBlank (value i)) (inputs s) = true
  /\ error (Strict.handleCalculation s) = message MissingAmount
  /\ result (Strict.handleCalculation s) = result s.
Proof.
  intros s. split; [reflexivity|].
  destruct (C2_strict_blank_row_fails s) as [_ H].
  destruct (H [row 1 "5"] (row 2 "") []) as (_ & He & _ & Hr).
  - reflexivity.
  - constructor; [split; vm_compute; reflexivity | constructor].
  - reflexivity.
  - split; assumption.
Defined.

(** C2 as stated fails: with the rows ["."] and [""] the list holds a
    blank row, yet the loop stops at the first row, which is not a
    number, and reports [InvalidAmount]. *)
Lemma C2_counterexample_invalid_row_first :
  let s := Strict.run [Strict.InputChange 1 (str "."); Strict.AddInput]
             initialState in
  map value (inputs s) = [str "."; str ""]
  /\ existsb (fun i => isBlank (value i)) (inputs s) = true
  /\ error (Strict.handleCalculation s) = message InvalidAmount
  /\ error (Strict.handleCalculation s) <> message MissingAmount.
Proof.
  vm_compute. repeat split. discriminate.
Qed.

Lemma isInvalid_spec v :
  isInvalid v = true <-> v = S754_nan \/ ltb v zero = true.
Proof.
  unfold isInvalid. rewrite orb_true_iff. split; intros [H|H]; auto.
  - left. destruct v; simpl in H; try discriminate. reflexivity.
  - left. subst v. reflexivity.
Qed.

(** C4, as the code has it: the calculation fails with [InvalidAmount]
    at the first row that is not blank and is not a non-negative number,
    whatever follows it, provided the loop gets there: in the lenient
    variant always (blank rows before it are passed over), in the strict
    variant when no blank row comes before it.  The failure sets one
    message and leaves the stored result as it was. *)
Theorem C4_first_invalid_row_fails :
  (forall s pre x post,
     inputs s = pre ++ x :: post ->
     Forall lenientRowOk pre ->
     isBlank (value x) = false ->
     isInvalid (numericValueOf (value x)) = true ->
     Lenient.handleCalculation s = failWith InvalidAmount s)
  /\ (forall s pre x post,
        inputs s = pre ++ x :: post ->
        Forall strictRowOk pre ->
        isBlank (value x) = false ->
        isInvalid (numericValueOf (value x)) = true ->
        Strict.handleCalculation s = failWith InvalidAmount s)
  /\ (forall s,
        error (failWith InvalidAmount s) = message InvalidAmount
        /\ isResultVisible (failWith InvalidAmount s) = false
        /\ result (failWith InvalidAmount s) = result s).
Proof.
  split; [|split].
  - intros s pre x post Hin Hpre Hb Hv.
    unfold Lenient.handleCalculation. rewrite Hin.
    rewrite lenient_sumInputs_app by assumption. simpl. rewrite Hb, Hv.
    reflexivity.
  - intros s pre x post Hin Hpre Hb Hv.
    unfold Strict.handleCalculation. rewrite Hin.
    rewrite strict_sumInputs_app by assumption. simpl. rewrite Hb, Hv.
    reflexivity.
  - intros s. repeat split.
Qed.

Lemma C4_witness_blank_then_letters :
  let s := withInputs [row 1 ""; row 2 "abc"; row 3 "-1"] in
  Lenient.handleCalculation s = failWith InvalidAmount s
  /\ Strict.handleCalculation (withInputs [row 1 "7"; row 2 "-1"; row 3 "x"])
     = failWith InvalidAmount (withInputs [row 1 "7"; row 2 "-1"; row 3 "x"]).
Proof.
  intros s. destruct C4_first_invalid_row_fails as (Hl & Hs & _). split.
  - apply (Hl s [row 1 ""] (row 2 "abc") [row 3 "-1"]).
    + reflexivity.
    + constructor; [left; reflexivity | constructor].
    + reflexivity.
    + reflexivity.
  - apply (Hs _ [row 1 "7"] (row 2 "-1") [row 3 "x"]).
    + reflexivity.
    + constructor; [split; vm_compute; reflexivity | constructor].
    + reflexivity.
    + vm_compute; reflexivity.
Defined.

(** C4 as stated fails in the strict variant: with the rows [""] and
    ["."] the second row is not blank and is not a number, yet the loop
    stops at the blank first row and reports [MissingAmount]. *)
Lemma C4_counterexample_blank_row_first :
  let s := Strict.run [Strict.AddInput; Strict.InputChange 2 (str ".")]
             initialState in
  map value (inputs s) = [str ""; str "."]
  /\ isBlank (str ".") = false
  /\ isNaN (numericValueOf (str ".")) = true
  /\ error (Strict.handleCalculation s) = message MissingAmount
  /\ error (Strict.handleCalculation s) <> message InvalidAmount.
Proof.
  vm_compute. repeat split. discriminate.
Qed.

End Failures.

(* ================================================================== *)
(** ** The pattern of typed text *)
(* ================================================================== *)

Section TypedText.
Local Open Scope Z_scope.

Import Regex.

Lemma nullable_lang r : nullable r = true <-> lang r [].
Proof.
  split.
  - induction r; simpl; intros H; try discriminate.
    + constructor.
    + apply andb_true_iff in H. destruct H as [H1 H2].
      change (@nil N) with (@nil N ++ @nil N). constructor; auto.
    + apply orb_true_iff in H. destruct H as [H|H];
        [apply lang_alt_l | apply lang_alt_r]; auto.
    + constructor.
  - intros H. remember (@nil N) as w eqn:Hw.
    induction H; simpl; try reflexivity; try discriminate.
    + apply app_eq_nil in Hw. destruct Hw. rewrite IHlang1, IHlang2; auto.
    + rewrite IHlang; auto.
    + rewrite IHlang; auto. apply orb_true_r.
Qed.

Lemma deriv_sound c r : forall s, lang (deriv c r) s -> lang r (c :: s).
Proof.
  induction r; simpl; intros s H.
  - inversion H.
  - inversion H.
  - destruct (p c) eqn:Hp; inversion H; subst. constructor. exact Hp.
  - assert (Hseq : forall w, lang (Seq (deriv c r1) r2) w -> lang (Seq r1 r2) (c :: w)).
    { intros w Hw. inversion Hw; subst.
      change (c :: s1 ++ s2) with ((c :: s1) ++ s2). constructor; auto. }
    destruct (nullable r1) eqn:Hn; [|auto].
    inversion H; subst; [auto|].
    change (c :: s) with ([] ++ c :: s). constructor; auto.
    apply nullable_lang. exact Hn.
  - inversion H; subst; [apply lang_alt_l | apply lang_alt_r]; auto.
  - inversion H; subst.
    change (c :: s1 ++ s2) with ((c :: s1) ++ s2). constructor; auto.
Qed.

Lemma deriv_complete c r w :
  lang r w -> forall t, w = c :: t -> lang (deriv c r) t.
Proof.
  induction 1 as [|p c0 Hp|r1 r2 s1 s2 H1 IH1 H2 IH2|r1 r2 s0 H0 IH0
                  |r1 r2 s0 H0 IH0|r0|r0 s1 s2 H1 IH1 H2 IH2];
    intros t Hw; simpl.
  - discriminate.
  - injection Hw as -> <-. rewrite Hp. constructor.
  - destruct s1 as [|c1 s1]; simpl in Hw.
    + subst s2. assert (Hn : nullable r1 = true) by (apply nullable_lang; assumption).
      rewrite Hn. apply lang_alt_r. auto.
    + injection Hw as -> <-.
      assert (Hs : lang (Seq (deriv c r1) r2) (s1 ++ s2)) by (constructor; auto).
      destruct (nullable r1); [apply lang_alt_l|]; exact Hs.
  - apply lang_alt_l. auto.
  - apply lang_alt_r. auto.
  - discriminate.
  - destruct s1 as [|c1 s1]; simpl in Hw.
    + subst s2. apply (IH2 t eq_refl).
    + injection Hw as -> <-. constructor; auto.
Qed.

(** The matcher decides the language of the pattern. *)
Lemma test_lang r : forall s, test r s = true <-> lang r s.
Proof.
  intros s. revert r. induction s as [|c s IH]; intros r; simpl.
  - apply nullable_lang.
  - rewrite IH. split.
    + apply deriv_sound.
    + intros H. eapply deriv_complete; [eassumption | reflexivity].
Qed.

Lemma lang_star_class p s :
  lang (Star (Class p)) s <-> Forall (fun c => p c = true) s.
Proof.
  split.
  - intros H. remember (Star (Class p)) as r eqn:Hr.
    induction H; try discriminate; [constructor|].
    injection Hr as ->. inversion H; subst. simpl. constructor; auto.
  - induction 1 as [|c s Hc _ IH]; [constructor|].
    change (c :: s) with ([c] ++ s). constructor; [constructor|]; assumption.
Qed.

Ltac invert_lang :=
  repeat match goal with
    | H : lang (Seq _ _) _ |- _ => inversion H; subst; clear H
    | H : lang (Alt _ _) _ |- _ => inversion H; subst; clear H
    | H : lang (Class _) _ |- _ => inversion H; subst; clear H
    | H : lang Eps _ |- _ => inversion H; subst; clear H
    end.

Lemma lang_upTo2_class p s :
  lang (UpTo 2 (Class p)) s
  <-> Forall (fun c => p c = true) s /\ (List.length s <= 2)%nat.
Proof.
  simpl. unfold Opt. split.
  - intros H. invert_lang; simpl;
      (split; [repeat constructor; assumption | simpl; lia]).
  - intros [Hall Hlen].
    destruct s as [|a [|b [|c s]]]; simpl in Hlen; try lia.
    + apply lang_alt_r. constructor.
    + inversion Hall; subst. apply lang_alt_l.
      change [a] with ([a] ++ []). constructor; [constructor; assumption|].
      apply lang_alt_r. constructor.
    + inversion Hall as [|? ? Ha Hall']; subst. inversion Hall'; subst.
      apply lang_alt_l.
      change [a; b] with ([a] ++ [b]). constructor; [constructor; assumption|].
      apply lang_alt_l.
      change [b] with ([b] ++ []). constructor; constructor; assumption.
Qed.

(** The regular expression of the strict variant is that pattern. *)
Lemma decimalInput_pattern v :
  Regex.test decimalInput v = true <-> decimalPattern v.
Proof.
  rewrite test_lang. unfold decimalInput, decimalPattern, Opt. split.
  - intros H. inversion H as [| |? ? ds rest Hds Hrest| | | |]; subst.
    apply lang_star_class in Hds. exists ds. split; [exact Hds|].
    inversion Hrest as [| | |? ? ? Hsome|? ? ? Hnone| |]; subst.
    + right. inversion Hsome as [| |? ? sp fs Hsp Hfs| | | |]; subst.
      inversion Hsp; subst. apply lang_upTo2_class in Hfs.
      destruct Hfs as [Hfs Hlen]. simpl. eauto 10.
    + left. inversion Hnone; subst. apply app_nil_r.
  - intros (ds & Hds & [Hv | (sep & fs & Hsep & Hfs & Hlen & Hv)]); subst v.
    + rewrite <- (app_nil_r ds). constructor.
      * apply lang_star_class. exact Hds.
      * apply lang_alt_r. constructor.
    + constructor.
      * apply lang_star_class. exact Hds.
      * apply lang_alt_l. change (sep :: fs) with ([sep] ++ fs).
        constructor; [constructor; assumption|].
        apply lang_upTo2_class. split; assumption.
Qed.

Lemma value_withValue id0 v l :
  map value (withValue id0 v l)
  = map (fun i => if id i =? id0 then v else value i) l.
Proof.
  unfold withValue. induction l as [|a l IH]; simpl; [reflexivity|].
  rewrite IH. destruct (id a =? id0); reflexivity.
Qed.

(** C5, as the code has it.  Strict variant: the typed text is stored,
    in every row with the given id, exactly when it matches the pattern
    "zero or more digits, optionally followed by a single comma or period
    and zero to two digits", and the error is then cleared; any other
    text leaves every row and the error as they were.  Lenient variant:
    every typed text is stored.  Neither touches the stored result. *)
Theorem C5_typed_text_stored_when_it_matches : forall id0 v s,
  (decimalPattern v ->
   inputs (Strict.handleInputChange id0 v s) = withValue id0 v (inputs s)
   /\ error (Strict.handleInputChange id0 v s) = [])
  /\ (~ decimalPattern v ->
      inputs (Strict.handleInputChange id0 v s) = inputs s
      /\ error (Strict.handleInputChange id0 v s) = error s)
  /\ result (Strict.handleInputChange id0 v s) = result s
  /\ inputs (Lenient.handleInputChange id0 v s) = withValue id0 v (inputs s)
  /\ error (Lenient.handleInputChange id0 v s) = []
  /\ result (Lenient.handleInputChange id0 v s) = result s
  /\ map id (withValue id0 v (inputs s)) = map id (inputs s)
  /\ map value (withValue id0 v (inputs s))
     = map (fun i => if id i =? id0 then v else value i) (inputs s).
Proof.
  intros id0 v s.
  pose proof (decimalInput_pattern v) as Hpat.
  unfold Strict.handleInputChange, Lenient.handleInputChange.
  destruct (Regex.test decimalInput v) eqn:Ht.
  - assert (Hyes : decimalPattern v) by (apply Hpat; reflexivity).
    split; [intros _ | split; [intros Hno; contradiction |]].
    + destruct (isResultVisible s), (error s) eqn:He; simpl; rewrite ?He;
        split; reflexivity.
    + split; [destruct (isResultVisible s), (error s); reflexivity|].
      split; [destruct (error s); reflexivity|].
      split; [destruct (error s) eqn:He; simpl; rewrite ?He; reflexivity|].
      split; [destruct (error s); reflexivity|].
      split; [apply map_id_withValue | apply value_withValue].
  - assert (Hno : ~ decimalPattern v) by (intros Hp; apply Hpat in Hp; discriminate).
    split; [intros Hp; contradiction | split; [intros _ |]].
    + destruct (isResultVisible s); split; reflexivity.
    + split; [destruct (isResultVisible s); reflexivity|].
      split; [destruct (error s); reflexivity|].
      split; [destruct (error s) eqn:He; simpl; rewrite ?He; reflexivity|].
      split; [destruct (error s); reflexivity|].
      split; [apply map_id_withValue | apply value_withValue].
Qed.

Lemma C5_witness_typed_amounts :
  inputs (Strict.handleInputChange 1 (str "12,5") initialState)
  = [{| id := 1; value := str "12,5" |}]
  /\ inputs (Strict.handleInputChange 1 (str "1.234")
               (Strict.handleInputChange 1 (str "12,5") initialState))
     = [{| id := 1; value := str "12,5" |}].
Proof.
  split.
  - destruct (C5_typed_text_stored_when_it_matches 1 (str "12,5") initialState)
      as ((H & _) & _).
    + apply decimalInput_pattern. reflexivity.
    + exact H.
  - destruct (C5_typed_text_stored_when_it_matches 1 (str "1.234")
                (Strict.handleInputChange 1 (str "12,5") initialState))
      as (_ & (H & _) & _).
    + intros Hp. apply decimalInput_pattern in Hp. discriminate Hp.
    + exact H.
Defined.

(** C5 as stated fails in the lenient variant, whose handler tests no
    pattern: the text ["abc"] is stored. *)
Lemma C5_counterexample_lenient_stores_any_text :
  ~ decimalPattern (str "abc")
  /\ inputs (Lenient.handleInputChange 1 (str "abc") initialState)
     = [{| id := 1; value := str "abc" |}].
Proof.
  split; [|reflexivity].
  intros Hp. apply decimalInput_pattern in Hp. discriminate Hp.
Qed.

End TypedText.

(* ================================================================== *)
(** ** Rounding to the nearest double *)
(* ================================================================== *)

Section Rounding.
Local Open Scope Z_scope.

Lemma roundHalfEven_close a b :
  0 < b -> - b <= 2 * (roundHalfEven a b * b - a) <= b.
Proof.
  intros Hb. unfold roundHalfEven.
  pose proof (Z.div_mod a b ltac:(lia)) as Hdm.
  pose proof (Z.mod_pos_bound a b Hb) as Hr.
  set (k := a / b) in *. set (r := a mod b) in *.
  destruct (Z.compare_spec (2 * r) b) as [He|Hl|Hg].
  - destruct (Z.even k); nia.
  - nia.
  - nia.
Qed.

Lemma roundHalfEven_nearest a b k :
  0 < b -> Z.abs (roundHalfEven a b * b - a) <= Z.abs (k * b - a).
Proof.
  intros Hb. pose proof (@roundHalfEven_close a b Hb) as Hc.
  set (m := roundHalfEven a b) in *.
  destruct (Z.lt_trichotomy k m) as [Hlt|[Heq|Hgt]].
  - assert ((k + 1) * b <= m * b) by (apply Z.mul_le_mono_nonneg_r; lia). lia.
  - subst k. lia.
  - assert ((m + 1) * b <= k * b) by (apply Z.mul_le_mono_nonneg_r; lia). lia.
Qed.

Lemma roundHalfEven_bounds a b lo hi :
  0 < b -> lo * b <= a -> a < hi * b -> lo <= roundHalfEven a b <= hi.
Proof.
  intros Hb Hlo Hhi. pose proof (@roundHalfEven_close a b Hb) as Hc.
  set (m := roundHalfEven a b) in *.
  split.
  - destruct (Z_lt_le_dec m lo) as [Hlt|]; [|assumption].
    assert ((m + 1) * b <= lo * b) by (apply Z.mul_le_mono_nonneg_r; lia). lia.
  - destruct (Z_lt_le_dec hi m) as [Hlt|]; [|assumption].
    assert ((hi + 1) * b <= m * b) by (apply Z.mul_le_mono_nonneg_r; lia). lia.
Qed.

Lemma binade_spec A B :
  0 < A -> 0 < B ->
  0 <= binade A B
  /\ (binade A B = 0 \/ 2 ^ 52 * (B * 2 ^ binade A B) <= A)
  /\ A < 2 ^ 53 * (B * 2 ^ binade A B).
Proof.
  intros HA HB. unfold binade.
  pose proof (Z.log2_spec A HA) as [HA1 HA2].
  pose proof (Z.log2_spec B HB) as [HB1 HB2].
  pose proof (Z.log2_nonneg A) as Ha. pose proof (Z.log2_nonneg B) as Hb.
  set (a := Z.log2 A) in *. set (b := Z.log2 B) in *.
  replace (Z.succ a) with (a + 1) in HA2 by lia.
  replace (Z.succ b) with (b + 1) in HB2 by lia.
  set (t0 := Z.max (a - b - 53) 0).
  assert (Ht0 : 0 <= t0) by lia.
  assert (Hp0 : 0 < 2 ^ t0) by (apply Z.pow_pos_nonneg; lia).
  assert (Hsucc : 2 ^ (t0 + 1) = 2 * 2 ^ t0) by (rewrite Z.pow_add_r by lia; lia).
  change (2 ^ 53) with 9007199254740992. change (2 ^ 52) with 4503599627370496.
  destruct (Z.leb_spec (9007199254740992 * (B * 2 ^ t0)) A) as [Hle|Hgt].
  - split; [lia|]. split; [right; rewrite Hsucc; lia|].
    rewrite Hsucc.
    assert (Hpow : 2 ^ (a + 1) <= 2 ^ (54 + b + t0))
      by (apply Z.pow_le_mono_r; lia).
    assert (E : 2 ^ (54 + b + t0) = 18014398509481984 * (2 ^ b * 2 ^ t0)).
    { rewrite !Z.pow_add_r by lia. change (2 ^ 54) with 18014398509481984. ring. }
    assert (2 ^ b * 2 ^ t0 <= B * 2 ^ t0) by (apply Z.mul_le_mono_nonneg_r; lia).
    lia.
  - split; [lia|]. split; [|lia].
    destruct (Z.eq_dec t0 0) as [Hz|Hnz]; [left; exact Hz | right].
    assert (Ht : t0 = a - b - 53) by lia.
    assert (Hpow : 2 ^ a = 4503599627370496 * (2 ^ (b + 1) * 2 ^ t0)).
    { change 4503599627370496 with (2 ^ 52).
      rewrite <- !Z.pow_add_r by lia. f_equal. lia. }
    assert (B * 2 ^ t0 <= 2 ^ (b + 1) * 2 ^ t0) by (apply Z.mul_le_mono_nonneg_r; lia).
    lia.
Qed.

Lemma nearest_core A den t :
  0 < den -> 0 <= t ->
  (t = 0 \/ 2 ^ 52 * (den * 2 ^ t) <= A) ->
  forall m' t', 0 <= m' < 2 ^ 53 -> 0 <= t' ->
    Z.abs (roundHalfEven A (den * 2 ^ t) * 2 ^ t * den - A)
    <= Z.abs (m' * 2 ^ t' * den - A).
Proof.
  intros Hden Ht Hlow m' t' Hm' Ht'.
  assert (HG : 0 < 2 ^ t) by (apply Z.pow_pos_nonneg; lia).
  assert (HD : 0 < den * 2 ^ t) by (apply Z.mul_pos_pos; lia).
  set (m0 := roundHalfEven A (den * 2 ^ t)).
  replace (m0 * 2 ^ t * den) with (m0 * (den * 2 ^ t)) by ring.
  destruct (Z_le_gt_dec t t') as [Hle|Hgt].
  - replace (m' * 2 ^ t' * den) with (m' * 2 ^ (t' - t) * (den * 2 ^ t)).
    + apply roundHalfEven_nearest. exact HD.
    + replace t' with ((t' - t) + t) at 2 by lia.
      rewrite Z.pow_add_r by lia. ring.
  - destruct Hlow as [Hz|Hlow]; [lia|].
    pose proof (@roundHalfEven_nearest A (den * 2 ^ t) (2 ^ 52) HD) as Hn. fold m0 in Hn.
    assert (HX : 0 < 2 ^ t') by (apply Z.pow_pos_nonneg; lia).
    assert (HP : 2 ^ 1 <= 2 ^ (t - t')) by (apply Z.pow_le_mono_r; lia).
    assert (EG : 2 ^ t = 2 ^ (t - t') * 2 ^ t').
    { rewrite <- Z.pow_add_r by lia. f_equal. lia. }
    change (2 ^ 1) with 2 in HP.
    change (2 ^ 53) with 9007199254740992 in Hm'.
    change (2 ^ 52) with 4503599627370496 in *.
    assert (H1 : m' * 2 ^ t' + 1 <= 4503599627370496 * 2 ^ t).
    { rewrite EG.
      assert (m' * 2 ^ t' <= 9007199254740991 * 2 ^ t')
        by (apply Z.mul_le_mono_nonneg_r; lia).
      assert (2 * 2 ^ t' <= 2 ^ (t - t') * 2 ^ t')
        by (apply Z.mul_le_mono_nonneg_r; lia).
      lia. }
    assert (H2 : (m' * 2 ^ t' + 1) * den <= 4503599627370496 * 2 ^ t * den)
      by (apply Z.mul_le_mono_nonneg_r; lia).
    lia.
Qed.

Lemma roundQ_cases sign num den :
  0 < num -> 0 < den ->
  exists m t,
    0 <= t /\ 0 <= m < 2 ^ 53 /\ (t = 0 \/ 2 ^ 52 <= m)
    /\ (forall m' t', 0 <= m' < 2 ^ 53 -> 0 <= t' ->
          Z.abs (m * 2 ^ t * den - num * 2 ^ 1074)
          <= Z.abs (m' * 2 ^ t' * den - num * 2 ^ 1074))
    /\ 2 * Z.abs (m * 2 ^ t * den - num * 2 ^ 1074) <= den * 2 ^ t
    /\ roundQ sign num den
       = match m with
         | Zpos p =>
             if t - 1074 <=? 971 then S754_finite sign p (t - 1074)
             else S754_infinity sign
         | _ => S754_zero sign
         end.
Proof.
  intros Hnum Hden. unfold roundQ.
  destruct (Z.leb_spec num 0) as [Hle|_]; [lia|].
  assert (HS : 0 < 2 ^ 1074) by (apply Z.pow_pos_nonneg; lia).
  set (A := num * 2 ^ 1074).
  assert (HA : 0 < A) by (apply Z.mul_pos_pos; assumption).
  destruct (@binade_spec A den HA Hden) as (Ht & Hlow & Hup).
  set (t := binade A den) in *.
  assert (HG : 0 < 2 ^ t) by (apply Z.pow_pos_nonneg; lia).
  assert (HD : 0 < den * 2 ^ t) by (apply Z.mul_pos_pos; lia).
  pose proof (@nearest_core A den t Hden Ht Hlow) as Hnear.
  pose proof (@roundHalfEven_close A (den * 2 ^ t) HD) as Hclose.
  assert (Hm0 : 0 <= roundHalfEven A (den * 2 ^ t) <= 2 ^ 53).
  { apply roundHalfEven_bounds; [exact HD | lia | lia]. }
  assert (Hm1 : t = 0 \/ 2 ^ 52 <= roundHalfEven A (den * 2 ^ t)).
  { destruct Hlow as [Hz|Hlow]; [left; exact Hz | right].
    apply (@roundHalfEven_bounds A (den * 2 ^ t) (2 ^ 52) (2 ^ 53)); [exact HD | lia | lia]. }
  set (m0 := roundHalfEven A (den * 2 ^ t)) in *.
  change (emax - prec) with 971.
  destruct (Z.eqb_spec m0 (2 ^ 53)) as [Hcarry|Hno].
  - exists (2 ^ 52), (t + 1).
    assert (E : 2 ^ 52 * 2 ^ (t + 1) = m0 * 2 ^ t).
    { rewrite Hcarry, Z.pow_add_r by lia. change (2 ^ 53) with (2 ^ 52 * 2 ^ 1). ring. }
    rewrite E.
    split; [lia|]. split; [change (2 ^ 52) with 4503599627370496; change (2 ^ 53) with 9007199254740992; lia|].
    split; [right; lia|]. split; [exact Hnear|].
    split; [|reflexivity].
    rewrite Z.pow_add_r by lia. change (2 ^ 1) with 2.
    replace (m0 * 2 ^ t * den) with (m0 * (den * 2 ^ t)) by ring. lia.
  - exists m0, t.
    split; [lia|]. split; [lia|]. split; [exact Hm1|]. split; [exact Hnear|].
    split; [replace (m0 * 2 ^ t * den) with (m0 * (den * 2 ^ t)) by ring; lia|].
    destruct m0; reflexivity.
Qed.

Lemma digits2_pos_size p : digits2_pos p = Pos.size p.
Proof. induction p as [p IH|p IH|]; simpl; [rewrite IH | rewrite IH|]; reflexivity. Qed.

Lemma size_bounds p :
  2 ^ (Z.pos (Pos.size p) - 1) <= Z.pos p < 2 ^ Z.pos (Pos.size p).
Proof.
  pose proof (Pos.size_gt p) as Hgt. pose proof (Pos.size_le p) as Hle.
  apply Pos2Z.pos_lt_pos in Hgt. apply Pos2Z.pos_le_pos in Hle.
  rewrite Pos2Z.inj_pow in Hgt, Hle.
  change (Z.pos p~0) with (2 * Z.pos p) in Hle.
  replace (Z.pos (Pos.size p)) with (1 + (Z.pos (Pos.size p) - 1)) in Hle at 1 by lia.
  rewrite Z.pow_add_r in Hle by lia. change (2 ^ 1) with 2 in Hle.
  split; lia.
Qed.

(** The canonical form of this development is that of the standard
    library's binary64. *)
Lemma validFinite_bounded m e : validFinite m e -> bounded prec emax m e = true.
Proof.
  intros (Hm & He & Hnorm). unfold bounded, canonical_mantissa, fexp, emin.
  rewrite digits2_pos_size.
  destruct (size_bounds m) as [Hlo Hhi].
  set (d := Z.pos (Pos.size m)) in *.
  assert (Hd : d <= 53).
  { destruct (Z_le_gt_dec d 53) as [|Hbig]; [assumption|]. exfalso.
    assert (2 ^ 53 <= 2 ^ (d - 1)) by (apply Z.pow_le_mono_r; lia). lia. }
  change (emax - prec) with 971. change (3 - emax - prec) with (-1074).
  change prec with 53.
  apply andb_true_iff. split; [|apply Z.leb_le; lia].
  apply Z.eqb_eq.
  destruct Hnorm as [Hmin|Hfull]; [lia|].
  assert (d = 53).
  { destruct (Z_lt_le_dec d 53) as [Hsmall|]; [|lia]. exfalso.
    assert (2 ^ d <= 2 ^ 52) by (apply Z.pow_le_mono_r; lia). lia. }
  lia.
Qed.

Lemma roundQ_valid_binary sign num den :
  0 < den -> valid_binary prec emax (roundQ sign num den) = true.
Proof.
  intros Hden. destruct (Z_le_gt_dec num 0) as [Hle|Hgt].
  - unfold roundQ. destruct (Z.leb_spec num 0); [reflexivity | lia].
  - destruct (@roundQ_cases sign num den ltac:(lia) Hden)
      as (m & t & Ht & Hm & Hnorm & _ & _ & E).
    rewrite E. destruct m as [|p|p]; [reflexivity| |reflexivity].
    destruct (Z.leb_spec (t - 1074) 971) as [Hfin|Hinf]; [|reflexivity].
    apply validFinite_bounded. unfold validFinite.
    split; [lia|]. split; [lia|]. destruct Hnorm; [left | right]; lia.
Qed.

End Rounding.

(* ================================================================== *)
(** ** Decimal text and its value *)
(* ================================================================== *)

Section DecimalText.
Local Open Scope Z_scope.

Lemma isDigit_range c : isDigit c = true <-> (48 <= c <= 57)%N.
Proof.
  unfold isDigit. rewrite andb_true_iff, !N.leb_le. tauto.
Qed.

Lemma digitChar_isDigit d : 0 <= d <= 9 -> isDigit (digitChar d) = true.
Proof.
  intros H. apply isDigit_range. unfold digitChar. lia.
Qed.

Lemma digitVal_digitChar d : 0 <= d <= 9 -> digitVal (digitChar d) = d.
Proof. intros H. unfold digitVal, digitChar. lia. Qed.

Lemma digitVal_range c : isDigit c = true -> 0 <= digitVal c <= 9.
Proof. intros H. apply isDigit_range in H. unfold digitVal. lia. Qed.

Lemma digitsVal_from ds : forall acc,
  fold_left (fun acc c => 10 * acc + digitVal c) ds acc
  = acc * 10 ^ Z.of_nat (List.length ds) + digitsVal ds.
Proof.
  unfold digitsVal. induction ds as [|c ds IH]; intros acc; cbn [fold_left].
  - simpl. lia.
  - rewrite (IH (10 * acc + digitVal c)), (IH (10 * 0 + digitVal c)).
    change (List.length (c :: ds)) with (S (List.length ds)).
    rewrite Nat2Z.inj_succ, Z.pow_succ_r by lia. ring.
Qed.

Lemma digitsVal_app a b :
  digitsVal (a ++ b) = digitsVal a * 10 ^ Z.of_nat (List.length b) + digitsVal b.
Proof.
  unfold digitsVal at 1. rewrite fold_left_app, digitsVal_from. reflexivity.
Qed.

Lemma digitsVal_nonneg ds : allDigits ds -> 0 <= digitsVal ds.
Proof.
  induction ds as [|c ds IH] using rev_ind; intros H; [unfold digitsVal; simpl; lia|].
  apply Forall_app in H. destruct H as [H1 H2]. inversion H2 as [|? ? Hc _]; subst.
  rewrite digitsVal_app. simpl List.length. change (10 ^ Z.of_nat 1) with 10.
  pose proof (@digitVal_range c Hc). specialize (IH H1).
  unfold digitsVal at 2. simpl. lia.
Qed.

(** What [digitsFuel] prepends: the digits of [n]. *)
Lemma digitsFuel_S f n acc :
  digitsFuel (S f) n acc
  = if n <? 10 then digitChar (n mod 10) :: acc
    else digitsFuel f (n / 10) (digitChar (n mod 10) :: acc).
Proof. reflexivity. Qed.

Lemma digitsFuel_spec fuel : forall n acc,
  0 <= n < 10 ^ Z.of_nat (S fuel) ->
  exists ds,
    digitsFuel (S fuel) n acc = ds ++ acc
    /\ allDigits ds /\ digitsVal ds = n /\ ds <> []
    /\ n < 10 ^ Z.of_nat (List.length ds)
    /\ (List.length ds = 1%nat \/ 10 ^ (Z.of_nat (List.length ds) - 1) <= n).
Proof.
  induction fuel as [|f IH]; intros n acc Hn;
    assert (Hd : 0 <= n mod 10 <= 9) by (pose proof (Z.mod_pos_bound n 10); lia);
    rewrite digitsFuel_S; destruct (Z.ltb_spec n 10) as [Hlt|Hge];
    try (exists [digitChar (n mod 10)]; rewrite Z.mod_small by lia;
         split; [reflexivity|];
         split; [constructor; [apply digitChar_isDigit; lia | constructor]|];
         split; [unfold digitsVal; simpl; rewrite digitVal_digitChar by lia; lia|];
         split; [discriminate|]; split; [simpl; lia | left; reflexivity]).
  assert (Hq : 0 <= n / 10 < 10 ^ Z.of_nat (S f)).
    { split; [apply Z.div_pos; lia|].
      apply Z.div_lt_upper_bound; [lia|].
      rewrite (Nat2Z.inj_succ (S f)), Z.pow_succ_r in Hn by lia. lia. }
    destruct (IH (n / 10) (digitChar (n mod 10) :: acc) Hq)
      as (ds & E & Hall & Hval & Hne & Hup & Hlow).
    exists (ds ++ [digitChar (n mod 10)]).
    rewrite E, <- app_assoc. split; [reflexivity|].
    split; [apply Forall_app; split; [exact Hall | constructor; [apply digitChar_isDigit; lia | constructor]]|].
    pose proof (Z.div_mod n 10 ltac:(lia)) as Hdm.
    split; [rewrite digitsVal_app, Hval; simpl; unfold digitsVal; simpl;
            rewrite digitVal_digitChar by lia; lia|].
    split; [intros Hnil; apply app_eq_nil in Hnil; destruct Hnil; discriminate|].
    rewrite length_app, Nat2Z.inj_add. simpl List.length.
    change (Z.of_nat 1) with 1.
    assert (Hlen : 0 < Z.of_nat (List.length ds)).
    { destruct ds; [contradiction | simpl; lia]. }
    rewrite Z.pow_add_r by lia. change (10 ^ 1) with 10.
    split; [lia|]. right.
    replace (Z.of_nat (List.length ds) + 1 - 1) with ((Z.of_nat (List.length ds) - 1) + 1) by lia.
    destruct Hlow as [H1|Hlow].
    + rewrite H1. simpl. lia.
    + rewrite Z.pow_add_r by lia. change (10 ^ 1) with 10. lia.
Qed.

Lemma log2_fuel n : 0 <= n -> n < 10 ^ Z.of_nat (S (Z.to_nat (Z.log2 n))).
Proof.
  intros Hn. destruct (Z.eq_dec n 0) as [->|Hnz]; [simpl; lia|].
  pose proof (Z.log2_spec n ltac:(lia)) as [_ H].
  pose proof (Z.log2_nonneg n) as Hl.
  rewrite Nat2Z.inj_succ, Z2Nat.id by lia.
  eapply Z.lt_le_trans; [exact H|].
  apply Z.pow_le_mono_l. lia.
Qed.

Lemma decimalDigits_spec n :
  0 <= n ->
  allDigits (decimalDigits n) /\ digitsVal (decimalDigits n) = n
  /\ decimalDigits n <> []
  /\ n < 10 ^ Z.of_nat (List.length (decimalDigits n))
  /\ (List.length (decimalDigits n) = 1%nat
      \/ 10 ^ (Z.of_nat (List.length (decimalDigits n)) - 1) <= n).
Proof.
  intros Hn. unfold decimalDigits.
  destruct (@digitsFuel_spec (Z.to_nat (Z.log2 n)) n [])
    as (ds & E & H); [split; [exact Hn | apply log2_fuel; exact Hn]|].
  rewrite E, app_nil_r. exact H.
Qed.

(** The number of digits of [n] is the [k] with [10^(k-1) <= n < 10^k]. *)
Lemma decimalDigits_length n k :
  1 <= k -> 10 ^ (k - 1) <= n < 10 ^ k ->
  Z.of_nat (List.length (decimalDigits n)) = k.
Proof.
  intros Hk [Hlo Hhi].
  assert (Hn : 0 <= n) by (pose proof (Z.pow_nonneg 10 (k - 1)); lia).
  destruct (@decimalDigits_spec n Hn) as (_ & _ & Hne & Hup & Hlow).
  set (L := Z.of_nat (List.length (decimalDigits n))) in *.
  assert (HL : 1 <= L).
  { unfold L. destruct (decimalDigits n); [contradiction | simpl; lia]. }
  destruct (Z.lt_trichotomy L k) as [Hlt|[Heq|Hgt]]; [|exact Heq|].
  - assert (10 ^ L <= 10 ^ (k - 1)) by (apply Z.pow_le_mono_r; lia). lia.
  - assert (Hlow' : 10 ^ (L - 1) <= n).
    { destruct Hlow as [H1|Hlow]; [|exact Hlow]. unfold L in Hgt. rewrite H1 in Hgt. lia. }
    assert (10 ^ k <= 10 ^ (L - 1)) by (apply Z.pow_le_mono_r; lia). lia.
Qed.

Lemma digit_cases c :
  isDigit c = true ->
  (c = 48 \/ c = 49 \/ c = 50 \/ c = 51 \/ c = 52 \/ c = 53 \/ c = 54
   \/ c = 55 \/ c = 56 \/ c = 57)%N.
Proof. intros H. apply isDigit_range in H. lia. Qed.

(** A digit is no white space, sign, separator or letter. *)
Lemma digit_plain c :
  isDigit c = true ->
  isWhiteSpace c = false
  /\ (c =? chMinus)%N = false /\ (c =? chPlus)%N = false
  /\ (c =? chDot)%N = false /\ (c =? chComma)%N = false
  /\ (73 =? c)%N = false /\ isExponentIndicator c = false.
Proof.
  intros H. apply digit_cases in H.
  repeat (destruct H as [H|H]; [subst c; repeat split|]).
  subst c; repeat split.
Qed.

Lemma takeWhile_digits a r :
  allDigits a -> stopsDigits r -> takeWhile isDigit (a ++ r) = a.
Proof.
  intros Ha Hr. induction Ha as [|c a Hc _ IH]; simpl.
  - destruct r as [|c r]; [reflexivity|]. simpl in Hr. simpl. rewrite Hr. reflexivity.
  - rewrite Hc, IH. reflexivity.
Qed.

Lemma dropWhile_digits a r :
  allDigits a -> stopsDigits r -> dropWhile isDigit (a ++ r) = r.
Proof.
  intros Ha Hr. induction Ha as [|c a Hc _ IH]; simpl.
  - destruct r as [|c r]; [reflexivity|]. simpl in Hr. simpl. rewrite Hr. reflexivity.
  - rewrite Hc, IH. reflexivity.
Qed.

Lemma startsWith_Infinity_digit c r :
  isDigit c = true -> startsWith (str "Infinity") (c :: r) = false.
Proof.
  intros H. destruct (@digit_plain c H) as (_ & _ & _ & _ & _ & HI & _).
  change (str "Infinity") with (73%N :: str "nfinity").
  cbn [startsWith]. rewrite HI. reflexivity.
Qed.

(** Digits, a point, digits, and a rest that is no digit. *)
Lemma parseUnsigned_fraction neg a b r2 :
  allDigits a -> a <> [] -> allDigits b -> stopsDigits r2 ->
  parseUnsigned neg (a ++ chDot :: b ++ r2)
  = decimalValue neg (a ++ b) (parseExponent r2 - Z.of_nat (List.length b)).
Proof.
  intros Ha Hne Hb Hr2. unfold parseUnsigned.
  destruct a as [|c a']; [contradiction|].
  assert (Hc : isDigit c = true) by (inversion Ha; assumption).
  change ((c :: a') ++ chDot :: b ++ r2) with (c :: a' ++ chDot :: b ++ r2).
  rewrite (@startsWith_Infinity_digit c _ Hc).
  change (c :: a' ++ chDot :: b ++ r2) with ((c :: a') ++ chDot :: b ++ r2).
  rewrite takeWhile_digits, dropWhile_digits by (assumption || reflexivity).
  unfold splitFraction. rewrite N.eqb_refl.
  rewrite takeWhile_digits, dropWhile_digits by assumption.
  reflexivity.
Qed.

(** Digits and a rest that is neither a digit nor a point. *)
Lemma parseUnsigned_integer neg a r2 :
  allDigits a -> a <> [] -> stopsDigits r2 ->
  match r2 with [] => True | c :: _ => (c =? chDot)%N = false end ->
  parseUnsigned neg (a ++ r2) = decimalValue neg a (parseExponent r2 - 0).
Proof.
  intros Ha Hne Hr2 Hdot. unfold parseUnsigned.
  destruct a as [|c a']; [contradiction|].
  assert (Hc : isDigit c = true) by (inversion Ha; assumption).
  change ((c :: a') ++ r2) with (c :: a' ++ r2).
  rewrite (@startsWith_Infinity_digit c _ Hc).
  change (c :: a' ++ r2) with ((c :: a') ++ r2).
  rewrite takeWhile_digits, dropWhile_digits by assumption.
  assert (Hs : splitFraction r2 = ([], r2)).
  { unfold splitFraction. destruct r2 as [|c2 r2]; [reflexivity|]. rewrite Hdot. reflexivity. }
  rewrite Hs, app_nil_r. reflexivity.
Qed.

Lemma parseFloat_digit_head c r :
  isDigit c = true -> parseFloat (c :: r) = parseUnsigned false (c :: r).
Proof.
  intros H. destruct (@digit_plain c H) as (Hws & Hm & Hp & _).
  unfold parseFloat, trimStart. cbn [dropWhile]. rewrite Hws, Hm, Hp. reflexivity.
Qed.

Lemma parseExponent_plus ex :
  allDigits ex -> ex <> [] ->
  parseExponent (str "e+" ++ ex) = digitsVal ex.
Proof.
  intros Hex Hne. change (str "e+" ++ ex) with (101%N :: 43%N :: ex).
  unfold parseExponent.
  change (isExponentIndicator 101) with true. cbn iota.
  change ((43 =? chPlus)%N) with true. cbn iota.
  rewrite <- (app_nil_r ex) at 1.
  rewrite takeWhile_digits by (assumption || exact I).
  destruct ex; [contradiction | reflexivity].
Qed.

Lemma replace_miss x y s :
  Forall (fun c => (c =? x)%N = false) s -> replace x y s = s.
Proof.
  induction 1 as [|c s Hc _ IH]; simpl; [reflexivity|]. rewrite Hc, IH. reflexivity.
Qed.

Lemma replace_hit x y a b :
  Forall (fun c => (c =? x)%N = false) a ->
  replace x y (a ++ x :: b) = a ++ y :: b.
Proof.
  induction 1 as [|c s Hc _ IH]; simpl.
  - rewrite N.eqb_refl. reflexivity.
  - rewrite Hc, IH. reflexivity.
Qed.

Lemma digits_no_dot a : allDigits a -> Forall (fun c => (c =? chDot)%N = false) a.
Proof.
  intros H. eapply Forall_impl; [|exact H]. intros c Hc.
  apply (@digit_plain c Hc).
Qed.

Lemma digits_no_comma a : allDigits a -> Forall (fun c => (c =? chComma)%N = false) a.
Proof.
  intros H. eapply Forall_impl; [|exact H]. intros c Hc.
  apply (@digit_plain c Hc).
Qed.

End DecimalText.

(* ================================================================== *)
(** ** Two-decimal text read back *)
(* ================================================================== *)

Section TwoDecimals.
Local Open Scope Z_scope.

Lemma denOf_pos e : 0 < denOf e.
Proof. unfold denOf. apply Z.pow_pos_nonneg; lia. Qed.

Lemma numOf_pos m e : 0 < numOf m e.
Proof.
  unfold numOf. apply Z.mul_pos_pos; [lia|]. apply Z.pow_pos_nonneg; lia.
Qed.

Lemma numOf_scaled m e :
  -1074 <= e -> numOf m e * 2 ^ 1074 = scaled m e * denOf e.
Proof.
  intros He. unfold numOf, denOf, scaled.
  destruct (Z_le_gt_dec 0 e) as [Hpos|Hneg].
  - rewrite Z.max_l, Z.max_r by lia. rewrite Z.pow_add_r by lia.
    change (2 ^ 0) with 1. generalize (2 ^ 1074) (2 ^ e). intros; ring.
  - rewrite Z.max_r, Z.max_l by lia. change (2 ^ 0) with 1.
    assert (E : 2 ^ 1074 = 2 ^ (e + 1074) * 2 ^ (- e)).
    { rewrite <- Z.pow_add_r by lia. f_equal. lia. }
    rewrite E. generalize (2 ^ (e + 1074)) (2 ^ (- e)). intros; ring.
Qed.

Lemma hundredths_bounds num den :
  0 < den ->
  (2 * hundredths num den - 1) * den <= 200 * num
  /\ 200 * num < (2 * hundredths num den + 1) * den.
Proof.
  intros Hden. unfold hundredths.
  pose proof (Z.mul_div_le (200 * num + den) (2 * den) ltac:(lia)).
  pose proof (Z.mul_succ_div_gt (200 * num + den) (2 * den) ltac:(lia)).
  lia.
Qed.

Lemma hundredths_unique num den n :
  0 < den ->
  (2 * n - 1) * den <= 200 * num -> 200 * num < (2 * n + 1) * den ->
  hundredths num den = n.
Proof.
  intros Hden Hlo Hhi. unfold hundredths. symmetry.
  apply (Z.div_unique _ _ n (200 * num + den - 2 * den * n)); lia.
Qed.

Section Scaled.
Variable S : Z.
Hypothesis S_pos : 0 < S.
Hypothesis S_mod : S mod 5 = 4.

(** Hundredths in units: the two readings of a value agree. *)
Lemma hundredths_units num den V n :
  0 < den -> num * S = V * den ->
  ((2 * n - 1) * den <= 200 * num /\ 200 * num < (2 * n + 1) * den)
  <-> ((2 * n - 1) * S <= 200 * V /\ 200 * V < (2 * n + 1) * S).
Proof.
  intros Hden E. split; intros [Hlo Hhi]; split.
  - apply (proj2 (Z.mul_le_mono_pos_r _ _ den Hden)).
    replace (200 * V * den) with (200 * num * S) by (rewrite <- !Z.mul_assoc, E; ring).
    replace ((2 * n - 1) * S * den) with ((2 * n - 1) * den * S) by ring.
    apply Z.mul_le_mono_nonneg_r; lia.
  - apply (proj2 (Z.mul_lt_mono_pos_r den _ _ Hden)).
    replace (200 * V * den) with (200 * num * S) by (rewrite <- !Z.mul_assoc, E; ring).
    replace ((2 * n + 1) * S * den) with ((2 * n + 1) * den * S) by ring.
    exact (proj1 (Z.mul_lt_mono_pos_r S _ _ S_pos) Hhi).
  - apply (proj2 (Z.mul_le_mono_pos_r _ _ S S_pos)).
    replace (200 * num * S) with (200 * V * den) by (rewrite <- !Z.mul_assoc, E; ring).
    replace ((2 * n - 1) * den * S) with ((2 * n - 1) * S * den) by ring.
    apply Z.mul_le_mono_nonneg_r; lia.
  - apply (proj2 (Z.mul_lt_mono_pos_r S _ _ S_pos)).
    replace (200 * num * S) with (200 * V * den) by (rewrite <- !Z.mul_assoc, E; ring).
    replace ((2 * n + 1) * den * S) with ((2 * n + 1) * S * den) by ring.
    exact (proj1 (Z.mul_lt_mono_pos_r den _ _ Hden) Hhi).
Qed.

(** A double nearest to [n] hundredths, [n] being the hundredths of a
    double, has the same hundredths: two doubles never differ by a
    hundredth, which no multiple of a power of two is. *)
Lemma hundredths_stable V0 V' n :
  (2 * n - 1) * S <= 200 * V0 -> 200 * V0 < (2 * n + 1) * S ->
  Z.abs (V' * 100 - n * S) <= Z.abs (V0 * 100 - n * S) ->
  (2 * n - 1) * S <= 200 * V' /\ 200 * V' < (2 * n + 1) * S.
Proof.
  intros Hlo Hhi Hnear.
  pose proof (Z.div_mod S 5 ltac:(lia)) as Hdm. rewrite S_mod in Hdm.
  lia.
Qed.

End Scaled.

Lemma scale_pos : 0 < 2 ^ 1074.
Proof. apply Z.pow_pos_nonneg; lia. Qed.

Lemma scale_mod5 : (2 ^ 1074) mod 5 = 4.
Proof. vm_compute. reflexivity. Qed.

(** Below 10^21 the doubles stop 2^17 short of it. *)
Lemma double_below_1e21 m e :
  validFinite m e ->
  scaled m e < 10 ^ 21 * 2 ^ 1074 ->
  scaled m e <= (10 ^ 21 - 2 ^ 17) * 2 ^ 1074.
Proof.
  intros (Hm & He & _) Hlt. unfold scaled in *.
  change (2 ^ 53) with 9007199254740992 in Hm.
  change (10 ^ 21) with 1000000000000000000000 in *.
  change (2 ^ 17) with 131072.
  pose proof scale_pos as HS.
  destruct (Z_le_gt_dec e 16) as [Hsmall|Hbig].
  - assert (E : 2 ^ (e + 1074) <= 65536 * 2 ^ 1074).
    { change 65536 with (2 ^ 16). rewrite <- Z.pow_add_r by lia.
      apply Z.pow_le_mono_r; lia. }
    assert (Hp : 0 < 2 ^ (e + 1074)) by (apply Z.pow_pos_nonneg; lia).
    remember (2 ^ 1074) as S eqn:ES. clear ES.
    remember (2 ^ (e + 1074)) as G eqn:EG. clear EG.
    assert (Z.pos m * G <= 9007199254740991 * G)
      by (apply Z.mul_le_mono_nonneg_r; lia).
    lia.
  - assert (E : 2 ^ (e + 1074) = 2 ^ (e - 17) * (131072 * 2 ^ 1074)).
    { change 131072 with (2 ^ 17). rewrite <- !Z.pow_add_r by lia. f_equal. lia. }
    rewrite E in *.
    assert (Hp : 0 < 2 ^ (e - 17)) by (apply Z.pow_pos_nonneg; lia).
    remember (2 ^ 1074) as S eqn:ES. clear ES.
    remember (2 ^ (e - 17)) as P eqn:EP. clear EP.
    set (Y := 131072 * S) in *.
    assert (HY : 0 < Y) by (unfold Y; lia).
    assert (Hk : Z.pos m * P < 7629394531250000).
    { apply (proj2 (Z.mul_lt_mono_pos_r Y _ _ HY)). unfold Y in *. lia. }
    assert (Z.pos m * P * Y <= 7629394531249999 * Y)
      by (apply Z.mul_le_mono_nonneg_r; lia).
    unfold Y in *. lia.
Qed.

Lemma fixedDigits_zero : fixedDigits 0 = str "0.00".
Proof. reflexivity. Qed.

(** Reading back the two-decimal text of a double below 10^21 and
    writing it again gives the same digits. *)
Lemma hundredths_roundtrip m e :
  validFinite m e ->
  numOf m e < 10 ^ 21 * denOf e ->
  toFixed2 (roundQ false (hundredths (numOf m e) (denOf e)) 100)
  = fixedDigits (hundredths (numOf m e) (denOf e)).
Proof.
  intros Hvalid Hsmall.
  pose proof Hvalid as (Hm & He & Hnorm).
  pose proof (denOf_pos e) as Hden. pose proof (numOf_pos m e) as Hnum.
  pose proof (@numOf_scaled m e ltac:(lia)) as Hsc.
  pose proof scale_pos as HS. pose proof scale_mod5 as HS5.
  destruct (@hundredths_bounds (numOf m e) (denOf e) Hden) as [Hlo Hhi].
  set (n := hundredths (numOf m e) (denOf e)) in *.
  assert (Hn0 : 0 <= n).
  { destruct (Z_lt_le_dec n 0) as [Hneg|]; [|assumption].
    assert ((2 * n + 1) * denOf e <= (-1) * denOf e)
      by (apply Z.mul_le_mono_nonneg_r; lia). lia. }
  destruct (Z.eq_dec n 0) as [Hz|Hnz].
  { rewrite Hz. reflexivity. }
  assert (Hscaled : (2 * n - 1) * 2 ^ 1074 <= 200 * scaled m e
                    /\ 200 * scaled m e < (2 * n + 1) * 2 ^ 1074).
  { apply (@hundredths_units (2 ^ 1074) HS (numOf m e) (denOf e) (scaled m e) n Hden Hsc).
    split; assumption. }
  assert (Hgap : scaled m e <= (10 ^ 21 - 2 ^ 17) * 2 ^ 1074).
  { apply double_below_1e21; [exact Hvalid|].
    apply (proj2 (Z.mul_lt_mono_pos_r (denOf e) _ _ Hden)).
    rewrite <- Hsc.
    replace (10 ^ 21 * 2 ^ 1074 * denOf e) with (10 ^ 21 * denOf e * 2 ^ 1074) by ring.
    exact (proj1 (Z.mul_lt_mono_pos_r (2 ^ 1074) _ _ HS) Hsmall). }
  destruct (@roundQ_cases false n 100 ltac:(lia) ltac:(lia))
    as (m' & t & Ht & Hm' & Hnorm' & Hnear & _ & Hround).
  assert (Hpt : 0 < 2 ^ t) by (apply Z.pow_pos_nonneg; lia).
  specialize (Hnear (Z.pos m) (e + 1074) ltac:(lia) ltac:(lia)).
  fold (scaled m e) in Hnear.
  destruct Hscaled as [Hlo' Hhi'].
  change (10 ^ 21) with 1000000000000000000000 in *.
  change (2 ^ 17) with 131072 in *.
  change (2 ^ 53) with 9007199254740992 in *.
  change (2 ^ 52) with 4503599627370496 in *.
  destruct (@hundredths_stable (2 ^ 1074) HS HS5 (scaled m e) (m' * 2 ^ t) n Hlo' Hhi' Hnear)
    as [Hlo2 Hhi2].
  assert (Hnpos : 2 ^ 1074 <= n * 2 ^ 1074).
  { replace (2 ^ 1074) with (1 * 2 ^ 1074) at 1 by ring.
    apply Z.mul_le_mono_nonneg_r; lia. }
  assert (Hbelow : m' * 2 ^ t < 1000000000000000000000 * 2 ^ 1074).
  { remember (2 ^ 1074) as S eqn:ES. clear ES. lia. }
  rewrite Hround.
  destruct m' as [|p|p]; [| |lia].
  - exfalso. remember (2 ^ 1074) as S eqn:ES. clear ES. lia.
  - destruct (Z.leb_spec (t - 1074) 971) as [Hfin|Hinf].
    + assert (Hsc' : numOf p (t - 1074) * 2 ^ 1074 = Z.pos p * 2 ^ t * denOf (t - 1074)).
      { rewrite numOf_scaled by lia. unfold scaled.
        replace (t - 1074 + 1074) with t by lia. reflexivity. }
      pose proof (denOf_pos (t - 1074)) as Hden'.
      cbn [toFixed2]. cbv zeta.
      change (10 ^ 21) with 1000000000000000000000.
      destruct (Z.leb_spec (1000000000000000000000 * denOf (t - 1074)) (numOf p (t - 1074))) as [Hbig|_].
      * exfalso.
        assert (1000000000000000000000 * denOf (t - 1074) * 2 ^ 1074
                <= numOf p (t - 1074) * 2 ^ 1074)
          by (apply Z.mul_le_mono_nonneg_r; lia).
        rewrite Hsc' in H.
        assert (Z.pos p * 2 ^ t * denOf (t - 1074)
                < 1000000000000000000000 * 2 ^ 1074 * denOf (t - 1074))
          by (exact (proj1 (Z.mul_lt_mono_pos_r (denOf (t - 1074)) _ _ Hden') Hbelow)).
        lia.
      * simpl app. f_equal.
        apply hundredths_unique; [exact Hden'| |];
          apply (@hundredths_units (2 ^ 1074) HS (numOf p (t - 1074))
                   (denOf (t - 1074)) (Z.pos p * 2 ^ t) n Hden' Hsc');
          split; assumption.
    + exfalso. destruct Hnorm' as [Hz|Hfull]; [lia|].
      assert (E : 2 ^ t = 2 ^ (t - 1074) * 2 ^ 1074).
      { rewrite <- Z.pow_add_r by lia. f_equal. lia. }
      assert (Hp18 : 2 ^ 18 <= 2 ^ (t - 1074)) by (apply Z.pow_le_mono_r; lia).
      change (2 ^ 18) with 262144 in Hp18.
      rewrite E in Hbelow.
      remember (2 ^ 1074) as S eqn:ES. clear ES.
      remember (2 ^ (t - 1074)) as P eqn:EP. clear EP.
      assert (4503599627370496 * (P * S) <= Z.pos p * (P * S))
        by (apply Z.mul_le_mono_nonneg_r; nia).
      assert (262144 * S <= P * S) by (apply Z.mul_le_mono_nonneg_r; lia).
      lia.
Qed.

Lemma digitsVal_zeros k ds : digitsVal (repeat chZero k ++ ds) = digitsVal ds.
Proof.
  induction k as [|k IH]; [reflexivity|].
  change (repeat chZero (S k) ++ ds) with ([chZero] ++ (repeat chZero k ++ ds)).
  rewrite digitsVal_app, IH. reflexivity.
Qed.

Lemma allDigits_zeros k : allDigits (repeat chZero k).
Proof. induction k; constructor; [reflexivity | assumption]. Qed.

Lemma padZeros_spec k ds :
  allDigits ds ->
  allDigits (padZeros k ds)
  /\ digitsVal (padZeros k ds) = digitsVal ds
  /\ List.length (padZeros k ds) = Nat.max k (List.length ds).
Proof.
  intros H. unfold padZeros. split; [|split].
  - apply Forall_app. split; [apply allDigits_zeros | exact H].
  - apply digitsVal_zeros.
  - rewrite length_app, repeat_length. lia.
Qed.

(** The two-decimal text of [n]: digits, a point, two digits. *)
Lemma fixedDigits_shape n :
  0 <= n ->
  exists a b,
    fixedDigits n = a ++ chDot :: b
    /\ allDigits a /\ a <> [] /\ allDigits b /\ List.length b = 2%nat
    /\ digitsVal (a ++ b) = n.
Proof.
  intros Hn. unfold fixedDigits.
  destruct (@decimalDigits_spec n Hn) as (Hall & Hval & _).
  destruct (@padZeros_spec 3 (decimalDigits n) Hall) as (Hpad & Hpv & Hlen).
  set (m := padZeros 3 (decimalDigits n)) in *.
  set (k := List.length m) in *.
  assert (Hk : (3 <= k)%nat) by lia.
  exists (firstn (k - 2) m), (skipn (k - 2) m).
  pose proof (firstn_skipn (k - 2) m) as Hsplit.
  assert (Hparts : allDigits (firstn (k - 2) m) /\ allDigits (skipn (k - 2) m)).
  { apply Forall_app. rewrite Hsplit. exact Hpad. }
  split; [reflexivity|]. split; [apply Hparts|].
  split.
  { intros Hnil. apply (f_equal (@List.length N)) in Hnil.
    rewrite length_firstn in Hnil. simpl in Hnil. fold k in Hnil. lia. }
  split; [apply Hparts|]. split.
  { rewrite length_skipn. fold k. lia. }
  rewrite Hsplit, Hpv. exact Hval.
Qed.

(** What the strict variant reads back from the two-decimal text it
    wrote: the double nearest to [n] hundredths. *)
Lemma numericValueOf_fixedDigits n :
  0 <= n ->
  numericValueOf (replace chDot chComma (fixedDigits n)) = roundQ false n 100.
Proof.
  intros Hn.
  destruct (@fixedDigits_shape n Hn) as (a & b & E & Ha & Hne & Hb & Hlen & Hval).
  rewrite E. unfold numericValueOf.
  rewrite (@replace_hit chDot chComma a b (digits_no_dot Ha)).
  rewrite (@replace_hit chComma chDot a b (digits_no_comma Ha)).
  destruct a as [|c a']; [contradiction|].
  assert (Hc : isDigit c = true) by (inversion Ha; assumption).
  change ((c :: a') ++ chDot :: b) with (c :: (a' ++ chDot :: b)).
  rewrite (@parseFloat_digit_head c _ Hc).
  change (c :: (a' ++ chDot :: b)) with ((c :: a') ++ chDot :: b).
  rewrite <- (app_nil_r b) at 1.
  rewrite parseUnsigned_fraction by (assumption || exact I).
  unfold decimalValue. rewrite Hval, Hlen.
  change (parseExponent [] - Z.of_nat 2) with (-2).
  change (0 <=? -2) with false. cbn iota.
  change (10 ^ (- -2)) with 100. reflexivity.
Qed.

End TwoDecimals.

(* ================================================================== *)
(** ** Exponent notation read back *)
(* ================================================================== *)

Section ExponentNotation.
Local Open Scope Z_scope.

(** Rounding the value of a normal double gives that double. *)
Lemma roundQ_canonical m e :
  Z.pos m < 2 ^ 53 -> 2 ^ 52 <= Z.pos m -> 0 <= e <= 971 ->
  roundQ false (numOf m e) 1 = S754_finite false m e.
Proof.
  intros Hm Hfull He. unfold roundQ.
  pose proof (numOf_pos m e) as Hnum.
  destruct (Z.leb_spec (numOf m e) 0) as [Hle|_]; [lia|].
  assert (EA : numOf m e * 2 ^ 1074 = Z.pos m * 2 ^ (e + 1074)).
  { unfold numOf. rewrite Z.max_l by lia. rewrite Z.pow_add_r by lia. ring. }
  rewrite EA.
  assert (Hlog : Z.log2 (Z.pos m * 2 ^ (e + 1074)) = e + 1074 + 52).
  { rewrite Z.log2_mul_pow2 by lia. f_equal.
    apply Z.log2_unique; [lia|]. change (Z.succ 52) with 53. lia. }
  assert (HG : 0 < 2 ^ (e + 1074)) by (apply Z.pow_pos_nonneg; lia).
  assert (Ebin : binade (Z.pos m * 2 ^ (e + 1074)) 1 = e + 1074).
  { unfold binade. rewrite Hlog. change (Z.log2 1) with 0.
    replace (Z.max (e + 1074 + 52 - 0 - 53) 0) with (e + 1073) by lia.
    assert (E2 : 2 ^ (e + 1074) = 2 * 2 ^ (e + 1073)).
    { replace (e + 1074) with (1 + (e + 1073)) by lia.
      rewrite Z.pow_add_r by lia. reflexivity. }
    assert (0 < 2 ^ (e + 1073)) by (apply Z.pow_pos_nonneg; lia).
    change (2 ^ 53) with 9007199254740992. change (2 ^ 52) with 4503599627370496 in Hfull.
    destruct (Z.leb_spec (9007199254740992 * (1 * 2 ^ (e + 1073)))
                (Z.pos m * 2 ^ (e + 1074))) as [_|Hcontra]; [lia|].
    exfalso. rewrite E2 in Hcontra.
    assert (4503599627370496 * 2 ^ (e + 1073) <= Z.pos m * 2 ^ (e + 1073))
      by (apply Z.mul_le_mono_nonneg_r; lia).
    lia. }
  rewrite Ebin.
  assert (Erhe : roundHalfEven (Z.pos m * 2 ^ (e + 1074)) (1 * 2 ^ (e + 1074)) = Z.pos m).
  { unfold roundHalfEven. rewrite Z.mul_1_l.
    rewrite Z.div_mul, Z.mod_mul by lia.
    change (2 * 0) with 0.
    destruct (Z.compare_spec 0 (2 ^ (e + 1074))); [lia | reflexivity | lia]. }
  rewrite Erhe.
  change (2 ^ 53) with 9007199254740992 in *.
  destruct (Z.eqb_spec (Z.pos m) 9007199254740992) as [Heq|_]; [lia|].
  change (emax - prec) with 971.
  replace (e + 1074 - 1074) with e by lia.
  destruct (Z.leb_spec e 971); [reflexivity | lia].
Qed.

Lemma better_cases X k a b : better X k a b = a \/ better X k a b = b.
Proof.
  unfold better.
  destruct (_ <? _); [right; reflexivity|].
  destruct (_ && _); [right | left]; reflexivity.
Qed.

Lemma fold_better_In X k r : forall c, In (fold_left (better X k) r c) (c :: r).
Proof.
  induction r as [|b r IH]; intros c; simpl; [left; reflexivity|].
  destruct (IH (better X k c b)) as [H|H].
  - rewrite <- H. destruct (better_cases X k c b) as [E|E]; rewrite E; auto.
  - right. right. exact H.
Qed.

Lemma pick_In X k cs c : pick X k cs = Some c -> In c cs.
Proof.
  destruct cs as [|c0 r]; simpl; [discriminate|].
  intros H. injection H as <-. apply fold_better_In.
Qed.

Lemma double_eqb_eq x y : double_eqb x y = true -> x = y.
Proof. unfold double_eqb. destruct (double_eq_dec x y); [auto | discriminate]. Qed.

Lemma candidatesAt_readsBack x X n0 k c :
  1 <= k <= n0 -> In c (candidatesAt x X n0 k) -> readsBack x (fst c) (snd c).
Proof.
  intros Hk Hin. unfold candidatesAt in Hin.
  apply filter_In in Hin. destruct Hin as [Hin Hok].
  apply andb_true_iff in Hok. destruct Hok as [Hok Heq].
  apply andb_true_iff in Hok. destruct Hok as [Hlo Hhi].
  apply Z.leb_le in Hlo. apply Z.ltb_lt in Hhi. apply double_eqb_eq in Heq.
  assert (Hn : n0 <= snd c).
  { simpl in Hin. destruct Hin as [<-|[<-|[<-|[<-|[]]]]]; simpl; lia. }
  assert (Hlen : Z.of_nat (List.length (decimalDigits (fst c))) = k)
    by (apply decimalDigits_length; lia).
  pose proof (Z.pow_nonneg 10 (k - 1) ltac:(lia)).
  unfold readsBack. rewrite Hlen. repeat split; [lia | lia | exact Heq].
Qed.

Lemma shortestFrom_readsBack x X n0 fuel : forall k,
  1 <= k -> k + Z.of_nat fuel = n0 ->
  readsBack x X n0 ->
  readsBack x (fst (fst (shortestFrom fuel x X n0 k)))
              (snd (shortestFrom fuel x X n0 k)).
Proof.
  induction fuel as [|f IH]; intros k Hk Hsum Hfull; simpl.
  - exact Hfull.
  - destruct (pick X k (candidatesAt x X n0 k)) as [[s n]|] eqn:Hp.
    + apply pick_In in Hp. simpl.
      apply (@candidatesAt_readsBack x X n0 k (s, n)); [lia | exact Hp].
    + apply IH; [lia | lia | exact Hfull].
Qed.

Lemma decimalValue_nonneg ds e :
  0 <= e -> decimalValue false ds e = roundQ false (digitsVal ds * 10 ^ e) 1.
Proof.
  intros He. unfold decimalValue.
  destruct (Z.leb_spec 0 e); [reflexivity | lia].
Qed.

(** The exponent notation of digits that read back as [x] is read back
    by the strict variant as [x], with a comma for the point or not. *)
Lemma exponentForm_readsBack x s n :
  readsBack x s n ->
  numericValueOf (replace chDot chComma (exponentForm s n)) = x
  /\ digitHead (replace chDot chComma (exponentForm s n)).
Proof.
  intros (Hs & Hlen & Hr).
  destruct (@decimalDigits_spec s Hs) as (Hall & Hval & Hne & _).
  unfold exponentForm.
  destruct (decimalDigits s) as [|d rest] eqn:E; [contradiction|].
  assert (Hd : isDigit d = true) by (inversion Hall; assumption).
  assert (Hrest : allDigits rest) by (inversion Hall; assumption).
  assert (Hn1 : 0 <= n - 1) by (simpl List.length in Hlen; lia).
  destruct (@decimalDigits_spec (n - 1) Hn1) as (Hex & Hexv & Hexne & _).
  set (ex := decimalDigits (n - 1)) in *.
  assert (Hstop : stopsDigits (str "e+" ++ ex)) by reflexivity.
  destruct (@digit_plain d Hd) as (_ & _ & _ & Hdd & Hdc & _).
  destruct rest as [|r0 rest'].
  - change (d :: [] ++ str "e+" ++ ex) with ([d] ++ (str "e+" ++ ex)).
    assert (Hnodot : Forall (fun c => (c =? chDot)%N = false) ([d] ++ str "e+" ++ ex)).
    { apply Forall_app. split; [constructor; [exact Hdd | constructor]|].
      constructor; [reflexivity|]. constructor; [reflexivity|].
      apply digits_no_dot. exact Hex. }
    assert (Hnocomma : Forall (fun c => (c =? chComma)%N = false) ([d] ++ str "e+" ++ ex)).
    { apply Forall_app. split; [constructor; [exact Hdc | constructor]|].
      constructor; [reflexivity|]. constructor; [reflexivity|].
      apply digits_no_comma. exact Hex. }
    rewrite (@replace_miss chDot chComma _ Hnodot).
    split; [|exists d, (str "e+" ++ ex); split; [reflexivity | left; exact Hd]].
    unfold numericValueOf. rewrite (@replace_miss chComma chDot _ Hnocomma).
    change ([d] ++ str "e+" ++ ex) with (d :: str "e+" ++ ex).
    rewrite (@parseFloat_digit_head d _ Hd).
    change (d :: str "e+" ++ ex) with ([d] ++ (str "e+" ++ ex)).
    rewrite parseUnsigned_integer by (assumption || discriminate || reflexivity).
    rewrite (@parseExponent_plus ex Hex Hexne), Hexv.
    rewrite decimalValue_nonneg by lia.
    rewrite Hval. simpl List.length in Hr.
    replace (n - 1 - 0) with (n - Z.of_nat 1) by lia. exact Hr.
  - set (rest := r0 :: rest') in *.
    change (d :: (chDot :: rest) ++ str "e+" ++ ex)
      with ([d] ++ chDot :: (rest ++ str "e+" ++ ex)).
    assert (Hd1 : allDigits [d]) by (constructor; [exact Hd | constructor]).
    rewrite (@replace_hit chDot chComma [d] _ (@digits_no_dot [d] Hd1)).
    split; [|exists d, (chComma :: rest ++ str "e+" ++ ex); split; [reflexivity | left; exact Hd]].
    unfold numericValueOf.
    rewrite (@replace_hit chComma chDot [d] _ (@digits_no_comma [d] Hd1)).
    change ([d] ++ chDot :: rest ++ str "e+" ++ ex)
      with (d :: chDot :: rest ++ str "e+" ++ ex).
    rewrite (@parseFloat_digit_head d _ Hd).
    change (d :: chDot :: rest ++ str "e+" ++ ex)
      with ([d] ++ chDot :: rest ++ (str "e+" ++ ex)).
    rewrite parseUnsigned_fraction by (assumption || discriminate).
    rewrite (@parseExponent_plus ex Hex Hexne), Hexv.
    change ([d] ++ rest) with (d :: rest).
    change (List.length (d :: rest)) with (S (List.length rest)) in *.
    rewrite Nat2Z.inj_succ in *.
    rewrite decimalValue_nonneg by lia.
    rewrite Hval.
    replace (n - 1 - Z.of_nat (List.length rest))
      with (n - Z.succ (Z.of_nat (List.length rest))) by lia.
    exact Hr.
Qed.

(** From 10^21 on, [toFixed] writes digits that read back as the
    double it was given. *)
Lemma toStringLarge_readsBack m e :
  validFinite m e ->
  10 ^ 21 * denOf e <= numOf m e ->
  exists s n,
    toStringLarge (S754_finite false m e) (numOf m e / denOf e) = exponentForm s n
    /\ readsBack (S754_finite false m e) s n.
Proof.
  intros (Hm & He & Hnorm) Hbig.
  pose proof (denOf_pos e) as Hden.
  assert (He0 : 0 <= e).
  { destruct (Z_lt_le_dec e 0) as [Hneg|]; [|assumption]. exfalso.
    unfold numOf in Hbig. rewrite Z.max_r in Hbig by lia.
    change (2 ^ 0) with 1 in Hbig. change (2 ^ 53) with 9007199254740992 in Hm.
    change (10 ^ 21) with 1000000000000000000000 in Hbig.
    assert (1000000000000000000000 * 1 <= 1000000000000000000000 * denOf e)
      by (apply Z.mul_le_mono_nonneg_l; lia).
    lia. }
  assert (Eden : denOf e = 1).
  { unfold denOf. rewrite Z.max_r by lia. reflexivity. }
  rewrite Eden, Z.div_1_r.
  pose proof (numOf_pos m e) as Hnum.
  set (x := S754_finite false m e). set (X := numOf m e) in *.
  destruct (@decimalDigits_spec X ltac:(lia)) as (_ & _ & Hne & _).
  unfold toStringLarge, shortest.
  set (n0 := List.length (decimalDigits X)) in *.
  assert (Hn0 : (1 <= n0)%nat).
  { unfold n0. destruct (decimalDigits X); [contradiction | simpl; lia]. }
  assert (Hfull : readsBack x X (Z.of_nat n0)).
  { unfold readsBack. fold n0. split; [lia|]. split; [lia|].
    rewrite Z.sub_diag. change (10 ^ 0) with 1. rewrite Z.mul_1_r.
    apply roundQ_canonical; [exact Hm | lia | lia]. }
  pose proof (@shortestFrom_readsBack x X (Z.of_nat n0) (n0 - 1) 1
                ltac:(lia) ltac:(lia) Hfull) as Hres.
  destruct (shortestFrom (n0 - 1) x X (Z.of_nat n0) 1) as [[s k] n].
  exists s, n. split; [reflexivity | exact Hres].
Qed.

End ExponentNotation.

(* ================================================================== *)
(** ** Reformatting an amount on blur *)
(* ================================================================== *)

Section Blur.
Local Open Scope Z_scope.

Lemma roundQ_plain num den : 0 < den -> plainValue (roundQ false num den).
Proof.
  intros Hden. destruct (Z_le_gt_dec num 0) as [Hle|Hgt].
  - unfold roundQ. destruct (Z.leb_spec num 0); [reflexivity | lia].
  - destruct (@roundQ_cases false num den ltac:(lia) Hden)
      as (m & t & Ht & Hm & Hnorm & _ & _ & E).
    rewrite E. destruct m as [|p|p]; [reflexivity| |reflexivity].
    destruct (Z.leb_spec (t - 1074) 971) as [Hfin|Hinf]; [|reflexivity].
    split; [reflexivity|]. unfold validFinite.
    split; [lia|]. split; [lia|]. destruct Hnorm; [left | right]; lia.
Qed.

Lemma decimalValue_plain ds e : plainValue (decimalValue false ds e).
Proof.
  unfold decimalValue. destruct (Z.leb_spec 0 e); apply roundQ_plain; [lia|].
  apply Z.pow_pos_nonneg; lia.
Qed.

Lemma parseUnsigned_plain u : plainValue (parseUnsigned false u).
Proof.
  unfold parseUnsigned. destruct (startsWith _ u); [reflexivity|].
  destruct (splitFraction _) as [fp r2].
  destruct (_ ++ fp); [exact I | apply decimalValue_plain].
Qed.

Lemma parseFloat_plain t : plainText t -> plainValue (parseFloat t).
Proof.
  intros H. unfold parseFloat, trimStart.
  destruct t as [|c r]; [apply parseUnsigned_plain|].
  destruct H as [Hws Hm]. cbn [dropWhile]. rewrite Hws, Hm.
  destruct (c =? chPlus)%N; apply parseUnsigned_plain.
Qed.

Lemma numericValueOf_plain t : plainText t -> plainValue (numericValueOf t).
Proof.
  intros H. unfold numericValueOf. apply parseFloat_plain.
  destruct t as [|c r]; [exact I|]. simpl.
  destruct (c =? chComma)%N; [split; reflexivity | exact H].
Qed.

Lemma digitHead_plainText f : digitHead f -> plainText f.
Proof.
  intros (c & r & -> & [Hd | ->]); simpl.
  - destruct (@digit_plain c Hd) as (Hws & Hm & _). split; assumption.
  - split; reflexivity.
Qed.

Lemma decimalPattern_plainText v : decimalPattern v -> plainText v.
Proof.
  intros (ds & Hds & [-> | (sep & fs & Hsep & _ & _ & ->)]).
  - destruct Hds as [|c ds Hc _]; [exact I|].
    destruct (@digit_plain c Hc) as (Hws & Hm & _). split; assumption.
  - destruct Hds as [|c ds Hc _]; simpl.
    + unfold isSeparator in Hsep. apply orb_true_iff in Hsep.
      destruct Hsep as [E|E]; apply N.eqb_eq in E; subst sep; split; reflexivity.
    + destruct (@digit_plain c Hc) as (Hws & Hm & _). split; assumption.
Qed.

Lemma dropWhile_snoc_nonempty p l (c : N) :
  p c = false -> dropWhile p (l ++ [c]) <> [].
Proof.
  intros Hc. induction l as [|a l IH]; simpl.
  - rewrite Hc. discriminate.
  - destruct (p a); [exact IH | discriminate].
Qed.

Lemma isBlank_head c r : isWhiteSpace c = false -> isBlank (c :: r) = false.
Proof.
  intros Hc. unfold isBlank, trim, trimStart. cbn [dropWhile]. rewrite Hc.
  unfold trimEnd. simpl rev.
  pose proof (@dropWhile_snoc_nonempty isWhiteSpace (rev r) c Hc) as Hne.
  destruct (dropWhile isWhiteSpace (rev r ++ [c])) as [|x l]; [contradiction|].
  simpl. destruct (rev l ++ [x]) eqn:E; [|reflexivity].
  apply app_eq_nil in E. destruct E; discriminate.
Qed.

Lemma digitHead_not_blank f : digitHead f -> isBlank f = false.
Proof.
  intros (c & r & -> & [Hd | ->]).
  - apply isBlank_head. apply (@digit_plain c Hd).
  - apply isBlank_head. reflexivity.
Qed.

Lemma toFixed2_finite m e :
  toFixed2 (S754_finite false m e)
  = if 10 ^ 21 * denOf e <=? numOf m e
    then toStringLarge (S754_finite false m e) (numOf m e / denOf e)
    else fixedDigits (hundredths (numOf m e) (denOf e)).
Proof. reflexivity. Qed.

(** The text the strict variant writes on blur is a fixed point of
    reading and writing again. *)
Lemma normalize_stable v :
  plainValue v -> isNaN v = false ->
  digitHead (replace chDot chComma (toFixed2 v))
  /\ replace chDot chComma
       (toFixed2 (numericValueOf (replace chDot chComma (toFixed2 v))))
     = replace chDot chComma (toFixed2 v).
Proof.
  intros Hplain Hnan. destruct v as [s|s| |s m e]; simpl in Hplain.
  - subst s. split; [|vm_compute; reflexivity].
    exists 48%N, (str ",00"). split; [reflexivity | left; reflexivity].
  - subst s. split; [|vm_compute; reflexivity].
    exists 73%N, (str "nfinity"). split; [reflexivity | right; reflexivity].
  - discriminate.
  - destruct Hplain as [-> Hvalid].
    rewrite toFixed2_finite.
    destruct (Z.leb_spec (10 ^ 21 * denOf e) (numOf m e)) as [Hbig|Hsmall].
    + destruct (@toStringLarge_readsBack m e Hvalid Hbig) as (s & n & E & Hrb).
      rewrite E.
      destruct (@exponentForm_readsBack _ s n Hrb) as [Hval Hhead].
      split; [exact Hhead|]. rewrite Hval, toFixed2_finite.
      destruct (Z.leb_spec (10 ^ 21 * denOf e) (numOf m e)) as [_|Hcontra]; [|lia].
      rewrite E. reflexivity.
    + pose proof (denOf_pos e) as Hden. pose proof (numOf_pos m e) as Hnum.
      destruct (@hundredths_bounds (numOf m e) (denOf e) Hden) as [Hlo Hhi].
      assert (Hn0 : 0 <= hundredths (numOf m e) (denOf e)).
      { destruct (Z_lt_le_dec (hundredths (numOf m e) (denOf e)) 0) as [Hneg|]; [|assumption].
        assert ((2 * hundredths (numOf m e) (denOf e) + 1) * denOf e <= (-1) * denOf e)
          by (apply Z.mul_le_mono_nonneg_r; lia). lia. }
      split.
      * destruct (@fixedDigits_shape _ Hn0) as (a & b & E & Ha & Hne & _).
        rewrite E, (@replace_hit chDot chComma a b (digits_no_dot Ha)).
        destruct a as [|c a']; [contradiction|].
        exists c, (a' ++ chComma :: b). split; [reflexivity|].
        left. inversion Ha; assumption.
      * rewrite (numericValueOf_fixedDigits Hn0).
        rewrite (hundredths_roundtrip Hvalid Hsmall). reflexivity.
Qed.

Lemma Forall_value_withValue (P : jsstring -> Prop) id0 v l :
  P v -> Forall (fun i => P (value i)) l ->
  Forall (fun i => P (value i)) (withValue id0 v l).
Proof.
  intros Hv. unfold withValue. induction 1 as [|a l Ha _ IH]; simpl; constructor; auto.
  destruct (id a =? id0); simpl; assumption.
Qed.



Lemma find_Forall (P : Input -> Prop) f l x :
  Forall P l -> find f l = Some x -> P x.
Proof.
  intros Hall Hf. apply find_some in Hf. rewrite Forall_forall in Hall.
  apply Hall, Hf.
Qed.

Lemma textsPlain_withValue id0 v s :
  plainText v -> textsPlain s ->
  textsPlain (setInputs (withValue id0 v (inputs s)) s).
Proof.
  intros Hv Hs. unfold textsPlain. simpl.
  apply (@Forall_value_withValue plainText id0 v (inputs s) Hv Hs).
Qed.

(** What a blur writes into the rows with the given id, if anything. *)
Lemma handleInputBlur_cases id0 s :
  textsPlain s ->
  Strict.handleInputBlur id0 s = s
  \/ exists input,
       find (fun i => id i =? id0) (inputs s) = Some input
       /\ isBlank (value input) = false
       /\ isNaN (numericValueOf (value input)) = false
       /\ plainValue (numericValueOf (value input))
       /\ Strict.handleInputBlur id0 s
          = setInputs
              (withValue id0
                 (replace chDot chComma (toFixed2 (numericValueOf (value input))))
                 (inputs s)) s.
Proof.
  intros Hs. unfold Strict.handleInputBlur.
  destruct (find _ (inputs s)) as [input|] eqn:Hf; [|left; reflexivity].
  destruct (isBlank (value input)) eqn:Hb; [left; reflexivity|].
  destruct (isNaN (numericValueOf (value input))) eqn:Hn; [left; reflexivity|].
  right. exists input. repeat split; try assumption.
  apply numericValueOf_plain.
  apply (@find_Forall (fun i => plainText (value i)) _ _ _ Hs Hf).
Qed.

Lemma strict_step_textsPlain s op : textsPlain s -> textsPlain (Strict.step s op).
Proof.
  intros Hs. destruct op as [id0 v|id0| |id0| |]; simpl.
  - unfold Strict.handleInputChange.
    assert (Hs1 : textsPlain
              (if isResultVisible s then setIsResultVisible false s else s))
      by (destruct (isResultVisible s); exact Hs).
    destruct (Regex.test decimalInput v) eqn:Ht; [|exact Hs1].
    assert (Hv : plainText v)
      by (apply decimalPattern_plainText, decimalInput_pattern; exact Ht).
    assert (H2 : textsPlain
              (setInputs (withValue id0 v (inputs s))
                 (if isResultVisible s then setIsResultVisible false s else s))).
    { destruct (isResultVisible s); apply (@textsPlain_withValue id0 v s Hv Hs). }
    destruct (negb (isEmpty (error s))); exact H2.
  - destruct (@handleInputBlur_cases id0 s Hs)
      as [E | (input & _ & _ & Hn & Hp & E)]; rewrite E; [exact Hs|].
    apply textsPlain_withValue; [|exact Hs].
    apply digitHead_plainText. apply (@normalize_stable _ Hp Hn).
  - unfold textsPlain. simpl. apply Forall_app. split; [exact Hs|].
    constructor; [exact I | constructor].
  - unfold Strict.removeInput.
    destruct (1 <? List.length (inputs s))%nat; [|exact Hs].
    unfold textsPlain. simpl. apply Forall_filter. exact Hs.
  - unfold Strict.handleCalculation.
    destruct (Strict.sumInputs (inputs s) zero); exact Hs.
  - unfold textsPlain. simpl. constructor; [exact I | constructor].
Qed.

Lemma strict_run_textsPlain ops : forall s,
  textsPlain s -> textsPlain (Strict.run ops s).
Proof.
  induction ops as [|op ops IH]; simpl; intros s Hs; [exact Hs|].
  apply IH, strict_step_textsPlain, Hs.
Qed.

Lemma textsPlain_initialState : textsPlain initialState.
Proof. constructor; [exact I | constructor]. Qed.





End Blur.

(* ================================================================== *)
(** ** The published result *)
(* ================================================================== *)

Section Published.
Local Open Scope Z_scope.

Lemma collect_number_parts ps : forall acc,
  forallb isNumberPart ps = true ->
  fold_left collectPart ps acc
  = {| number := number acc ++ partsText ps; currency := currency acc |}.
Proof.
  induction ps as [|p ps IH]; intros acc H; simpl.
  - unfold partsText. simpl. rewrite app_nil_r. destruct acc; reflexivity.
  - simpl in H. apply andb_true_iff in H. destruct H as [Hp Hps].
    rewrite IH by exact Hps. unfold partsText. simpl.
    unfold isNumberPart in Hp. unfold collectPart.
    destruct (Intl.type p); try discriminate; simpl; rewrite <- app_assoc; reflexivity.
Qed.

Lemma list_ind3 (A : Type) (P : list A -> Prop) :
  P [] -> (forall a, P [a]) -> (forall a b, P [a; b]) ->
  (forall a b c r, P r -> P (a :: b :: c :: r)) ->
  forall l, P l.
Proof.
  intros H0 H1 H2 H3.
  fix IH 1. intros [|a [|b [|c r]]];
    [exact H0 | exact (H1 a) | exact (H2 a b) | exact (H3 a b c r (IH r))].
Qed.

Lemma concat_chunk3 l : List.concat (Intl.chunk3 l) = l.
Proof.
  induction l as [|a|a b|a b c r IH] using list_ind3; simpl; try reflexivity.
  rewrite IH. reflexivity.
Qed.

Lemma concat_rev_map_rev (X : list jsstring) :
  List.concat (rev (map (@rev N) X)) = rev (List.concat X).
Proof.
  induction X as [|g X IH]; simpl; [reflexivity|].
  rewrite concat_app, IH, rev_app_distr. simpl. rewrite app_nil_r. reflexivity.
Qed.

Lemma concat_groupsOf ds : List.concat (Intl.groupsOf ds) = ds.
Proof.
  unfold Intl.groupsOf. rewrite concat_rev_map_rev, concat_chunk3.
  apply rev_involutive.
Qed.

Lemma integerParts_text gs :
  Forall allDigits gs ->
  forallb isNumberPart (Intl.integerParts gs) = true
  /\ Forall digitOrDot (partsText (Intl.integerParts gs))
  /\ (partsText (Intl.integerParts gs) = [] -> List.concat gs = []).
Proof.
  induction 1 as [|g gs Hg Hgs IH]; [repeat split; constructor|].
  destruct IH as (IH1 & IH2 & IH3).
  assert (Hgd : Forall digitOrDot g)
    by (eapply Forall_impl; [|exact Hg]; intros c Hc; left; exact Hc).
  destruct gs as [|g' gs'].
  - simpl. unfold partsText. simpl. rewrite app_nil_r.
    repeat split; [exact Hgd | intros ->; reflexivity].
  - change (Intl.integerParts (g :: g' :: gs'))
      with ({| Intl.type := Intl.integer; Intl.value := g |}
              :: {| Intl.type := Intl.group; Intl.value := [chDot] |}
              :: Intl.integerParts (g' :: gs')).
    split; [simpl; exact IH1|].
    unfold partsText in *. cbn [map List.concat Intl.value].
    split.
    + apply Forall_app. split; [exact Hgd|].
      apply Forall_app. split; [constructor; [right; reflexivity | constructor] | exact IH2].
    + intros Hnil. apply app_eq_nil in Hnil. destruct Hnil as [_ Hnil].
      discriminate Hnil.
Qed.

Lemma allDigits_groups ds : allDigits ds -> Forall allDigits (Intl.groupsOf ds).
Proof.
  intros H. rewrite <- (concat_groupsOf ds) in H.
  induction (Intl.groupsOf ds) as [|g gs IH]; [constructor|].
  simpl in H. apply Forall_app in H. destruct H as [Hg Hgs].
  constructor; [exact Hg | apply IH; exact Hgs].
Qed.

Lemma two_digits r :
  0 <= r < 100 ->
  exists d1 d2,
    padZeros 2 (decimalDigits r) = [d1; d2]
    /\ isDigit d1 = true /\ isDigit d2 = true.
Proof.
  intros Hr.
  destruct (@decimalDigits_spec r ltac:(lia)) as (Hall & _ & Hne & _ & Hlow).
  assert (Hlen : (List.length (decimalDigits r) <= 2)%nat).
  { destruct Hlow as [H1|Hlow]; [lia|].
    destruct (le_lt_dec (List.length (decimalDigits r)) 2) as [|Hbig]; [assumption|].
    exfalso.
    assert (10 ^ 2 <= 10 ^ (Z.of_nat (List.length (decimalDigits r)) - 1))
      by (apply Z.pow_le_mono_r; lia).
    change (10 ^ 2) with 100 in *. lia. }
  destruct (@padZeros_spec 2 (decimalDigits r) Hall) as (Hpad & _ & Hpl).
  destruct (padZeros 2 (decimalDigits r)) as [|d1 [|d2 [|d3 l]]];
    cbn [List.length] in Hpl; try lia.
  exists d1, d2. inversion Hpad as [|? ? H1 Hrest]; subst.
  inversion Hrest; subst. repeat split; assumption.
Qed.

(** The number text of a magnitude has exactly two fraction digits. *)
Lemma magnitudeParts_text n :
  0 <= n ->
  forallb isNumberPart (Intl.magnitudeParts n) = true
  /\ twoFractionDigits (partsText (Intl.magnitudeParts n)).
Proof.
  intros Hn. unfold Intl.magnitudeParts.
  assert (Hq : 0 <= n / 100) by (apply Z.div_pos; lia).
  destruct (@decimalDigits_spec (n / 100) Hq) as (Hall & _ & Hne & _).
  destruct (@integerParts_text (Intl.groupsOf (decimalDigits (n / 100)))
              (allDigits_groups Hall)) as (Hnum & Hchars & Hnil).
  destruct (@two_digits (n mod 100) (Z.mod_pos_bound n 100 ltac:(lia)))
    as (d1 & d2 & E & Hd1 & Hd2).
  split.
  - rewrite forallb_app, Hnum. reflexivity.
  - unfold partsText in *. rewrite map_app, concat_app. cbn [map List.concat Intl.value].
    rewrite E, app_nil_r.
    exists (List.concat (map Intl.value
                      (Intl.integerParts (Intl.groupsOf (decimalDigits (n / 100)))))),
      d1, d2.
    split; [reflexivity|]. split; [exact Hd1|]. split; [exact Hd2|].
    split; [|exact Hchars].
    intros Hempty. apply Hnil in Hempty. rewrite concat_groupsOf in Hempty.
    contradiction.
Qed.

Lemma collect_magnitude sign n :
  0 <= n ->
  collectParts (Intl.signParts sign ++ Intl.magnitudeParts n ++ Intl.currencyParts)
  = {| number := partsText (Intl.magnitudeParts n); currency := Intl.euroSign |}.
Proof.
  intros Hn. unfold collectParts.
  rewrite fold_left_app.
  assert (Hsign : fold_left collectPart (Intl.signParts sign)
                    {| number := []; currency := Intl.euroSign |}
                  = {| number := []; currency := Intl.euroSign |})
    by (destruct sign; reflexivity).
  rewrite Hsign, fold_left_app.
  rewrite (@collect_number_parts (Intl.magnitudeParts n) _
             (proj1 (@magnitudeParts_text n Hn))).
  reflexivity.
Qed.


(** The Number of a positive count is neither zero nor NaN. *)
Lemma ofNat_nonzero n :
  (1 <= n)%nat -> isZero (ofNat n) = false /\ isNaN (ofNat n) = false.
Proof.
  intros Hn. unfold ofNat.
  destruct (@roundQ_cases false (Z.of_nat n) 1 ltac:(lia) ltac:(lia))
    as (m & t & Ht & Hm & _ & Hnear & _ & E).
  rewrite E. destruct m as [|p|p].
  - exfalso. specialize (Hnear 1 1074 ltac:(change (2 ^ 53) with 9007199254740992; lia) ltac:(lia)).
    pose proof scale_pos as HS.
    assert (1 * 2 ^ 1074 <= Z.of_nat n * 2 ^ 1074)
      by (apply Z.mul_le_mono_nonneg_r; lia).
    remember (2 ^ 1074) as S eqn:ES. clear ES.
    remember (2 ^ t) as G eqn:EG. clear EG. lia.
  - destruct (t - 1074 <=? 971); split; reflexivity.
  - lia.
Qed.







(** C10: in every state either page can reach there is a row, so the
    divisor of the calculation is neither zero nor NaN, and the
    calculation always ends in one of two ways: it publishes a result
    (error cleared, result card shown) or it sets the message of one of
    the two error kinds (result card hidden, stored result untouched). *)
Theorem C10_reachable_calculation_is_total :
  (forall ops,
     let s := Strict.run ops initialState in
     inputs s <> []
     /\ isZero (ofNat (List.length (inputs s))) = false
     /\ isNaN (ofNat (List.length (inputs s))) = false
     /\ ((exists sum, Strict.handleCalculation s = publish sum s)
         \/ (exists k, Strict.handleCalculation s = failWith k s)))
  /\ (forall ops,
        let s := Lenient.run ops initialState in
        inputs s <> []
        /\ isZero (ofNat (List.length (inputs s))) = false
        /\ isNaN (ofNat (List.length (inputs s))) = false
        /\ ((exists sum, Lenient.handleCalculation s = publish sum s)
            \/ Lenient.handleCalculation s = failWith InvalidAmount s))
  /\ (forall sum s,
        error (publish sum s) = [] /\ isResultVisible (publish sum s) = true)
  /\ (forall k s,
        error (failWith k s) = message k /\ message k <> []
        /\ isResultVisible (failWith k s) = false
        /\ result (failWith k s) = result s).
Proof.
  assert (Hlen : forall s, inputs s <> [] -> (1 <= List.length (inputs s))%nat).
  { intros s Hne. destruct (inputs s); [contradiction | simpl; lia]. }
  split; [|split; [|split]].
  - intros ops s.
    assert (Hne : inputs s <> [])
      by (apply (strict_run_wellFormed ops wellFormed_initialState)).
    destruct (ofNat_nonzero (Hlen s Hne)) as [Hz Hn].
    repeat split; try assumption.
    unfold Strict.handleCalculation.
    destruct (Strict.sumInputs (inputs s) zero) as [sum|k]; [left | right]; eauto.
  - intros ops s.
    assert (Hne : inputs s <> [])
      by (apply (lenient_run_wellFormed ops wellFormed_initialState)).
    destruct (ofNat_nonzero (Hlen s Hne)) as [Hz Hn].
    repeat split; try assumption.
    unfold Lenient.handleCalculation.
    destruct (Lenient.sumInputs (inputs s) zero) as [sum|k] eqn:E; [left; eauto|].
    right. apply lenient_sumInputs_kind in E. subst k. reflexivity.
  - intros sum s. split; reflexivity.
  - intros k s. repeat split. apply message_nonempty.
Qed.

End Published.

(* ================================================================== *)
(** ** The row list under the events *)
(* ================================================================== *)

Section RowList.
Local Open Scope Z_scope.

Lemma StronglySorted_snoc l n :
  StronglySorted Z.lt l -> Forall (fun x => x < n) l ->
  StronglySorted Z.lt (l ++ [n]).
Proof.
  induction 1 as [|a l Hl IH Ha]; intros Hn; simpl.
  - constructor; constructor.
  - inversion Hn as [|? ? Han Hln]; subst.
    constructor; [apply IH; assumption|].
    apply Forall_app. split; [assumption | constructor; [assumption | constructor]].
Qed.

Lemma StronglySorted_map_id_filter (f : Input -> bool) l :
  StronglySorted Z.lt (map id l) -> StronglySorted Z.lt (map id (filter f l)).
Proof.
  induction l as [|a l IH]; simpl; intros H; [constructor|].
  inversion H as [|? ? Hl Ha]; subst.
  destruct (f a); simpl; [|apply IH; assumption].
  constructor; [apply IH; assumption|].
  rewrite Forall_forall in *. intros x Hx. apply Ha.
  apply in_map_iff in Hx. destruct Hx as (b & Hb & Hin).
  apply filter_In in Hin. rewrite <- Hb. apply in_map. tauto.
Qed.

Lemma orderedIds_initialState : orderedIds initialState.
Proof.
  split; [|split]; simpl.
  - constructor; constructor.
  - constructor; [simpl; lia | constructor].
  - lia.
Qed.

Lemma orderedIds_withValue id0 v s :
  orderedIds s -> orderedIds (setInputs (withValue id0 v (inputs s)) s).
Proof.
  intros (Hs & Hb & Hn). split; [|split]; simpl.
  - rewrite map_id_withValue. assumption.
  - apply (Forall_id_withValue (fun z => 1 <= z < nextId s)). assumption.
  - assumption.
Qed.

Lemma orderedIds_add s :
  orderedIds s ->
  orderedIds
    (setNextId (nextId s + 1)
       (setInputs (inputs s ++ [{| id := nextId s; value := [] |}]) s)).
Proof.
  intros (Hs & Hb & Hn). split; [|split]; simpl.
  - rewrite map_app. simpl. apply StronglySorted_snoc; [assumption|].
    rewrite Forall_map. eapply Forall_impl; [|exact Hb]. simpl. intros; lia.
  - apply Forall_app. split.
    + eapply Forall_impl; [|exact Hb]. simpl. intros; lia.
    + constructor; [simpl; lia | constructor].
  - lia.
Qed.

Lemma orderedIds_remove id0 s :
  orderedIds s ->
  orderedIds
    (if (1 <? List.length (inputs s))%nat
     then setInputs (filter (fun input => negb (id input =? id0)) (inputs s)) s
     else s).
Proof.
  intros Ho. destruct (1 <? List.length (inputs s))%nat; [|assumption].
  destruct Ho as (Hs & Hb & Hn). split; [|split]; simpl.
  - apply StronglySorted_map_id_filter; assumption.
  - apply Forall_filter; assumption.
  - assumption.
Qed.

Lemma strict_handleInputBlur_inputs id0 s :
  Strict.handleInputBlur id0 s = s
  \/ exists v, Strict.handleInputBlur id0 s
               = setInputs (withValue id0 v (inputs s)) s.
Proof.
  unfold Strict.handleInputBlur.
  destruct (find (fun i => id i =? id0) (inputs s)) as [input|]; [|left; reflexivity].
  destruct (isBlank (value input)); [left; reflexivity|].
  destruct (negb (isNaN (numericValueOf (value input)))); [|left; reflexivity].
  right. eexists. reflexivity.
Qed.

Lemma strict_step_orderedIds s op : orderedIds s -> orderedIds (Strict.step s op).
Proof.
  intros Ho. destruct op as [id0 v|id0| |id0| |]; simpl.
  - unfold Strict.handleInputChange.
    assert (Hs1 : orderedIds
              (if isResultVisible s then setIsResultVisible false s else s))
      by (destruct (isResultVisible s); exact Ho).
    destruct (Regex.test decimalInput v); [|exact Hs1].
    destruct (negb (isEmpty (error s)));
      destruct (isResultVisible s); apply (orderedIds_withValue id0 v Ho).
  - destruct (strict_handleInputBlur_inputs id0 s) as [E|[v E]]; rewrite E;
      [assumption | apply orderedIds_withValue; assumption].
  - apply orderedIds_add; assumption.
  - apply orderedIds_remove; assumption.
  - unfold Strict.handleCalculation.
    destruct (Strict.sumInputs (inputs s) zero); exact Ho.
  - exact orderedIds_initialState.
Qed.

Lemma lenient_step_orderedIds s op : orderedIds s -> orderedIds (Lenient.step s op).
Proof.
  intros Ho. destruct op as [id0 v| |id0|]; simpl.
  - unfold Lenient.handleInputChange.
    destruct (negb (isEmpty (error s))); apply (orderedIds_withValue id0 v Ho).
  - apply orderedIds_add; assumption.
  - apply orderedIds_remove; assumption.
  - unfold Lenient.handleCalculation.
    destruct (Lenient.sumInputs (inputs s) zero); exact Ho.
Qed.

Lemma strict_run_orderedIds ops : forall s,
  orderedIds s -> orderedIds (Strict.run ops s).
Proof.
  induction ops as [|op ops IH]; intros s Ho; [exact Ho|].
  apply IH, strict_step_orderedIds, Ho.
Qed.

Lemma lenient_run_orderedIds ops : forall s,
  orderedIds s -> orderedIds (Lenient.run ops s).
Proof.
  induction ops as [|op ops IH]; intros s Ho; [exact Ho|].
  apply IH, lenient_step_orderedIds, Ho.
Qed.

(** X1: in every state either page can reach, the rows stand in the order
    of their creation: the ids increase strictly down the list, and each
    lies from 1 up to, but not including, the id counter. *)
Theorem rows_stand_in_creation_order :
  (forall ops,
     let s := Strict.run ops initialState in
     StronglySorted Z.lt (map id (inputs s))
     /\ Forall (fun i => 1 <= id i < nextId s) (inputs s))
  /\ (forall ops,
        let s := Lenient.run ops initialState in
        StronglySorted Z.lt (map id (inputs s))
        /\ Forall (fun i => 1 <= id i < nextId s) (inputs s)).
Proof.
  split; intros ops s.
  - destruct (strict_run_orderedIds ops orderedIds_initialState) as (H1 & H2 & _).
    split; assumption.
  - destruct (lenient_run_orderedIds ops orderedIds_initialState) as (H1 & H2 & _).
    split; assumption.
Qed.

(** Filtering one id out of rows with distinct ids takes out the one row
    that has it. *)
Lemma filter_id_split id0 l :
  NoDup (map id l) -> In id0 (map id l) ->
  exists pre x post,
    l = pre ++ x :: post /\ id x = id0
    /\ filter (fun input => negb (id input =? id0)) l = pre ++ post.
Proof.
  induction l as [|a l IH]; simpl; intros Hnd Hin; [contradiction|].
  inversion Hnd as [|? ? Hnotin Hnd']; subst.
  destruct (Z.eqb_spec (id a) id0) as [Ha|Ha]; simpl.
  - exists [], a, l. repeat split; [assumption|].
    simpl. clear IH Hnd Hnd' Hin.
    induction l as [|b l IH]; simpl; [reflexivity|].
    destruct (Z.eqb_spec (id b) id0) as [Hb|Hb]; simpl.
    + exfalso. apply Hnotin. left. congruence.
    + f_equal. apply IH. intros H. apply Hnotin. right. exact H.
  - destruct Hin as [Hin|Hin]; [contradiction|].
    destruct (IH Hnd' Hin) as (pre & x & post & El & Ex & Ef).
    exists (a :: pre), x, post. rewrite El at 1. rewrite Ef.
    repeat split; assumption.
Qed.

Lemma filter_id_absent id0 l :
  ~ In id0 (map id l) -> filter (fun input => negb (id input =? id0)) l = l.
Proof.
  induction l as [|a l IH]; simpl; intros Hnotin; [reflexivity|].
  destruct (Z.eqb_spec (id a) id0) as [Ha|Ha]; simpl.
  - exfalso. apply Hnotin. left. assumption.
  - f_equal. apply IH. intros H. apply Hnotin. right. exact H.
Qed.

Lemma withValue_absent id0 v l :
  ~ In id0 (map id l) -> withValue id0 v l = l.
Proof.
  unfold withValue. induction l as [|a l IH]; simpl; intros Hnotin; [reflexivity|].
  destruct (Z.eqb_spec (id a) id0) as [Ha|Ha].
  - exfalso. apply Hnotin. left. assumption.
  - f_equal. apply IH. intros H. apply Hnotin. right. exact H.
Qed.

Lemma find_absent id0 l :
  ~ In id0 (map id l) -> find (fun i => id i =? id0) l = None.
Proof.
  induction l as [|a l IH]; simpl; intros Hnotin; [reflexivity|].
  destruct (Z.eqb_spec (id a) id0) as [Ha|Ha].
  - exfalso. apply Hnotin. left. assumption.
  - apply IH. intros H. apply Hnotin. right. exact H.
Qed.

(** X2: with two or more rows of distinct ids, removing the id of a row
    takes out that one row and leaves the others as they were, in their
    order; both variants do the same. *)
Theorem removeInput_takes_out_that_row s id0 :
  NoDup (map id (inputs s)) ->
  (1 < List.length (inputs s))%nat ->
  In id0 (map id (inputs s)) ->
  exists pre x post,
    inputs s = pre ++ x :: post /\ id x = id0
    /\ inputs (Strict.removeInput id0 s) = pre ++ post
    /\ inputs (Lenient.removeInput id0 s) = pre ++ post
    /\ ~ In id0 (map id (pre ++ post)).
Proof.
  intros Hnd Hlen Hin.
  destruct (filter_id_split id0 (inputs s) Hnd Hin) as (pre & x & post & El & Ex & Ef).
  exists pre, x, post.
  unfold Strict.removeInput, Lenient.removeInput.
  apply Nat.ltb_lt in Hlen. rewrite Hlen. simpl. rewrite Ef.
  repeat split; try assumption.
  rewrite El, map_app in Hnd. simpl in Hnd.
  apply NoDup_remove_2 in Hnd. rewrite <- Ex, map_app. exact Hnd.
Qed.

Lemma removeInput_takes_out_that_row_witness :
  let s := Strict.run [Strict.AddInput; Strict.AddInput] initialState in
  map id (inputs s) = [1; 2; 3]
  /\ exists pre x post,
       inputs s = pre ++ x :: post /\ id x = 2
       /\ inputs (Strict.removeInput 2 s) = pre ++ post
       /\ inputs (Lenient.removeInput 2 s) = pre ++ post
       /\ ~ In 2 (map id (pre ++ post)).
Proof.
  split; [reflexivity|].
  apply (@removeInput_takes_out_that_row
           (Strict.run [Strict.AddInput; Strict.AddInput] initialState) 2).
  - simpl. repeat constructor; simpl; intuition lia.
  - simpl. lia.
  - simpl. tauto.
Defined.

(** X3: an id that no row has changes no row: typing into it, leaving
    its field and removing it all keep the rows, and leaving the field
    keeps the whole state. *)
Theorem unknown_id_changes_no_row s id0 v :
  ~ In id0 (map id (inputs s)) ->
  inputs (Strict.handleInputChange id0 v s) = inputs s
  /\ inputs (Lenient.handleInputChange id0 v s) = inputs s
  /\ Strict.handleInputBlur id0 s = s
  /\ inputs (Strict.removeInput id0 s) = inputs s
  /\ inputs (Lenient.removeInput id0 s) = inputs s.
Proof.
  intros Hnotin.
  pose proof (withValue_absent id0 v (inputs s) Hnotin) as Ew.
  pose proof (filter_id_absent id0 (inputs s) Hnotin) as Ef.
  repeat split.
  - unfold Strict.handleInputChange.
    destruct (Regex.test decimalInput v), (negb (isEmpty (error s))),
      (isResultVisible s); simpl; try rewrite Ew; reflexivity.
  - unfold Lenient.handleInputChange.
    destruct (negb (isEmpty (error s))); simpl; rewrite Ew; reflexivity.
  - unfold Strict.handleInputBlur. rewrite (find_absent id0 (inputs s) Hnotin).
    reflexivity.
  - unfold Strict.removeInput.
    destruct (1 <? List.length (inputs s))%nat; simpl; [exact Ef | reflexivity].
  - unfold Lenient.removeInput.
    destruct (1 <? List.length (inputs s))%nat; simpl; [exact Ef | reflexivity].
Qed.

Lemma unknown_id_changes_no_row_witness :
  let s := Strict.run [Strict.InputChange 1 (str "7")] initialState in
  ~ In 5 (map id (inputs s))
  /\ inputs (Strict.handleInputChange 5 (str "12") s) = inputs s
  /\ inputs (Lenient.handleInputChange 5 (str "12") s) = inputs s
  /\ Strict.handleInputBlur 5 s = s
  /\ inputs (Strict.removeInput 5 s) = inputs s
  /\ inputs (Lenient.removeInput 5 s) = inputs s.
Proof.
  assert (H : ~ In 5 (map id (inputs (Strict.run [Strict.InputChange 1 (str "7")]
                                       initialState))))
    by (simpl; intuition lia).
  split; [exact H|].
  exact (@unknown_id_changes_no_row
           (Strict.run [Strict.InputChange 1 (str "7")] initialState)
           5 (str "12") H).
Defined.

(** X4: adding a row and removing it again gives back the rows there
    were; the id counter stays one further. *)
Theorem add_then_remove_restores_rows s :
  inputs s <> [] ->
  Forall (fun i => id i < nextId s) (inputs s) ->
  inputs (Strict.removeInput (nextId s) (Strict.addInput s)) = inputs s
  /\ nextId (Strict.removeInput (nextId s) (Strict.addInput s)) = nextId s + 1
  /\ inputs (Lenient.removeInput (nextId s) (Lenient.addInput s)) = inputs s
  /\ nextId (Lenient.removeInput (nextId s) (Lenient.addInput s)) = nextId s + 1.
Proof.
  intros Hne Hlt.
  assert (Hlen : (1 <? List.length (inputs s ++ [{| id := nextId s; value := [] |}]))%nat
                 = true).
  { apply Nat.ltb_lt. rewrite length_app. simpl.
    destruct (inputs s); [contradiction | simpl; lia]. }
  assert (Ef : filter (fun input => negb (id input =? nextId s))
                 (inputs s ++ [{| id := nextId s; value := [] |}]) = inputs s).
  { rewrite filter_app. simpl. rewrite Z.eqb_refl. simpl. rewrite app_nil_r.
    apply filter_id_absent. intros Hin.
    apply in_map_iff in Hin. destruct Hin as (i & Hi & Hin).
    rewrite Forall_forall in Hlt. specialize (Hlt i Hin). lia. }
  unfold Strict.removeInput, Strict.addInput, Lenient.removeInput, Lenient.addInput.
  simpl. rewrite Hlen. simpl. rewrite Ef. repeat split.
Qed.

Lemma add_then_remove_restores_rows_witness :
  let s := Strict.run [Strict.InputChange 1 (str "7")] initialState in
  inputs (Strict.removeInput (nextId s) (Strict.addInput s)) = inputs s
  /\ nextId (Strict.removeInput (nextId s) (Strict.addInput s)) = nextId s + 1
  /\ inputs (Lenient.removeInput (nextId s) (Lenient.addInput s)) = inputs s
  /\ nextId (Lenient.removeInput (nextId s) (Lenient.addInput s)) = nextId s + 1.
Proof.
  apply (@add_then_remove_restores_rows
           (Strict.run [Strict.InputChange 1 (str "7")] initialState)).
  - simpl. discriminate.
  - simpl. constructor; [simpl; lia | constructor].
Defined.

(** X5: the remove button of a row is disabled exactly when removing the
    row would leave the rows as they are. *)
Theorem remove_button_disabled_iff_no_effect s id0 :
  NoDup (map id (inputs s)) ->
  In id0 (map id (inputs s)) ->
  (View.removeDisabled s = true <-> inputs (Strict.removeInput id0 s) = inputs s)
  /\ (View.removeDisabled s = true
      <-> inputs (Lenient.removeInput id0 s) = inputs s).
Proof.
  intros Hnd Hin.
  assert (H : View.removeDisabled s = true
              <-> (if (1 <? List.length (inputs s))%nat
                   then filter (fun input => negb (id input =? id0)) (inputs s)
                   else inputs s) = inputs s).
  { unfold View.removeDisabled.
    destruct (Nat.ltb_spec 1 (List.length (inputs s))) as [Hlen|Hlen].
    - split.
      + intros H. apply Nat.leb_le in H. lia.
      + intros H. exfalso.
        destruct (filter_id_split id0 (inputs s) Hnd Hin)
          as (pre & x & post & El & _ & Ef).
        rewrite Ef in H. apply (f_equal (@List.length Input)) in H.
        rewrite El in H. rewrite !length_app in H. simpl in H. lia.
    - split; [reflexivity|]. intros _. apply Nat.leb_le. exact Hlen. }
  unfold Strict.removeInput, Lenient.removeInput.
  destruct (1 <? List.length (inputs s))%nat; simpl; split; exact H.
Qed.

Lemma remove_button_disabled_iff_no_effect_witness :
  let s := Strict.run [Strict.AddInput] initialState in
  View.removeDisabled s = false
  /\ (View.removeDisabled s = true <-> inputs (Strict.removeInput 2 s) = inputs s)
  /\ (View.removeDisabled s = true
      <-> inputs (Lenient.removeInput 2 s) = inputs s).
Proof.
  split; [reflexivity|].
  apply (@remove_button_disabled_iff_no_effect
           (Strict.run [Strict.AddInput] initialState) 2).
  - simpl. repeat constructor; simpl; intuition lia.
  - simpl. tauto.
Defined.






End RowList.

Section Shown.
Local Open Scope Z_scope.

Lemma errorHidesResult_initialState : errorHidesResult initialState.
Proof. intros H. reflexivity. Qed.

Lemma errorHidesResult_publish sum s : errorHidesResult (publish sum s).
Proof. intros _. reflexivity. Qed.

Lemma errorHidesResult_failWith k s : errorHidesResult (failWith k s).
Proof. intros H. discriminate H. Qed.

Lemma strict_step_errorHidesResult s op :
  errorHidesResult s -> errorHidesResult (Strict.step s op).
Proof.
  unfold errorHidesResult. intros Hs. destruct op as [id0 v|id0| |id0| |]; simpl.
  - unfold Strict.handleInputChange.
    destruct (Regex.test decimalInput v), (negb (isEmpty (error s)));
      destruct (isResultVisible s) eqn:Ev; simpl; intros H;
      try reflexivity; try congruence; auto.
  - destruct (strict_handleInputBlur_inputs id0 s) as [E|[v E]]; rewrite E;
      simpl; assumption.
  - exact Hs.
  - unfold Strict.removeInput.
    destruct (1 <? List.length (inputs s))%nat; simpl; exact Hs.
  - unfold Strict.handleCalculation.
    destruct (Strict.sumInputs (inputs s) zero);
      [apply errorHidesResult_publish | apply errorHidesResult_failWith].
  - intros _. reflexivity.
Qed.

Lemma lenient_step_errorHidesResult s op :
  errorHidesResult s -> errorHidesResult (Lenient.step s op).
Proof.
  unfold errorHidesResult. intros Hs. destruct op as [id0 v| |id0|]; simpl.
  - unfold Lenient.handleInputChange.
    destruct (negb (isEmpty (error s))); simpl; auto.
  - exact Hs.
  - unfold Lenient.removeInput.
    destruct (1 <? List.length (inputs s))%nat; simpl; exact Hs.
  - unfold Lenient.handleCalculation.
    destruct (Lenient.sumInputs (inputs s) zero);
      [apply errorHidesResult_publish | apply errorHidesResult_failWith].
Qed.

(** X7: in every state either page can reach, a visible result comes with
    no error message.  So the lenient page never renders its error line
    together with the result card, and the strict page renders its error
    card whenever a message is set. *)
Theorem error_and_result_never_shown_together :
  (forall ops,
     let s := Strict.run ops initialState in
     (isResultVisible s = true -> error s = [])
     /\ View.strictErrorShown s = negb (isEmpty (error s))
     /\ View.resultShown s && View.strictErrorShown s = false)
  /\ (forall ops,
        let s := Lenient.run ops initialState in
        (isResultVisible s = true -> error s = [])
        /\ View.resultShown s && View.lenientErrorShown s = false).
Proof.
  split; intros ops s.
  - assert (H : errorHidesResult s).
    { unfold s. generalize errorHidesResult_initialState.
      generalize initialState.
      induction ops as [|op ops IH]; intros s0 H0; [exact H0|].
      apply IH, strict_step_errorHidesResult, H0. }
    split; [exact H|]. unfold View.strictErrorShown, View.resultShown.
    destruct (isResultVisible s) eqn:Ev.
    + rewrite (H Ev). split; reflexivity.
    + rewrite andb_true_r. split; reflexivity.
  - assert (H : errorHidesResult s).
    { unfold s. generalize errorHidesResult_initialState.
      generalize initialState.
      induction ops as [|op ops IH]; intros s0 H0; [exact H0|].
      apply IH, lenient_step_errorHidesResult, H0. }
    split; [exact H|]. unfold View.lenientErrorShown, View.resultShown.
    destruct (isResultVisible s) eqn:Ev; [rewrite (H Ev)|]; reflexivity.
Qed.

End Shown.

(* ================================================================== *)
(** ** The texts of the rows as amounts *)
(* ================================================================== *)

Section TypedAmounts.
Local Open Scope Z_scope.
Import Regex.

Lemma allDigits_app_inv a b : allDigits (a ++ b) -> allDigits a /\ allDigits b.
Proof. apply Forall_app. Qed.

Lemma decimalPattern_prefix a b : decimalPattern (a ++ b) -> decimalPattern a.
Proof.
  intros (ds & Hds & [E | (sep & fs & Hsep & Hfs & Hlen & E)]).
  - exists a. split; [|left; reflexivity].
    rewrite <- E in Hds. apply (allDigits_app_inv a b Hds).
  - apply app_eq_app in E. destruct E as (l & [[E1 E2] | [E1 E2]]).
    + destruct l as [|c l'].
      * exists a. split; [|left; reflexivity].
        rewrite app_nil_r in E1. subst a. exact Hds.
      * simpl in E2. injection E2 as -> E2. subst fs.
        exists ds. split; [exact Hds|]. right. exists c, l'.
        split; [exact Hsep|]. split; [apply (allDigits_app_inv l' b Hfs)|].
        split; [rewrite length_app in Hlen; lia | exact E1].
    + exists a. split; [|left; reflexivity].
      rewrite E1 in Hds. apply (allDigits_app_inv a l Hds).
Qed.

(** X8: the input pattern is closed under prefixes: whatever text the
    strict page accepts, it accepts every beginning of it, so an
    accepted text can be typed one character after the other and
    deleted from its end. *)
Theorem accepted_text_can_be_typed_in_order a b :
  Regex.test decimalInput (a ++ b) = true ->
  Regex.test decimalInput a = true.
Proof.
  intros H. apply decimalInput_pattern.
  apply (@decimalPattern_prefix a b). apply decimalInput_pattern. exact H.
Qed.

Lemma accepted_text_can_be_typed_in_order_witness :
  Regex.test decimalInput (str "12,5" ++ str "0") = true
  /\ Regex.test decimalInput (str "12,5") = true.
Proof.
  split; [reflexivity|].
  apply (@accepted_text_can_be_typed_in_order (str "12,5") (str "0")).
  reflexivity.
Defined.


Lemma binade_unique A B t t' :
  0 < B -> 0 <= t -> 0 <= t' ->
  (t = 0 \/ 2 ^ 52 * (B * 2 ^ t) <= A) -> A < 2 ^ 53 * (B * 2 ^ t) ->
  (t' = 0 \/ 2 ^ 52 * (B * 2 ^ t') <= A) -> A < 2 ^ 53 * (B * 2 ^ t') ->
  t = t'.
Proof.
  intros HB Ht Ht' Hlo Hhi Hlo' Hhi'.
  assert (Hstep : forall u w, 0 <= u -> u < w ->
            2 ^ 52 * (B * 2 ^ w) <= A -> A < 2 ^ 53 * (B * 2 ^ u) -> False).
  { intros u w Hu Huw H1 H2.
    assert (Hp : 0 < 2 ^ u) by (apply Z.pow_pos_nonneg; lia).
    assert (Hw : 2 ^ (u + 1) <= 2 ^ w) by (apply Z.pow_le_mono_r; lia).
    rewrite Z.pow_add_r in Hw by lia. change (2 ^ 1) with 2 in Hw.
    assert (B * (2 ^ u * 2) <= B * 2 ^ w) by (apply Z.mul_le_mono_nonneg_l; lia).
    change (2 ^ 52) with 4503599627370496 in H1.
    change (2 ^ 53) with 9007199254740992 in H2. lia. }
  destruct (Z.lt_trichotomy t t') as [Hlt|[Heq|Hgt]]; [|exact Heq|].
  - exfalso. destruct Hlo' as [Hz|Hlo']; [lia|]. exact (Hstep t t' Ht Hlt Hlo' Hhi).
  - exfalso. destruct Hlo as [Hz|Hlo]; [lia|]. exact (Hstep t' t Ht' Hgt Hlo Hhi').
Qed.

Lemma binade_scale A B c :
  0 < A -> 0 < B -> 0 < c -> binade (A * c) (B * c) = binade A B.
Proof.
  intros HA HB Hc.
  destruct (@binade_spec A B HA HB) as (Ht & Hlo & Hhi).
  destruct (@binade_spec (A * c) (B * c) ltac:(apply Z.mul_pos_pos; assumption)
              ltac:(apply Z.mul_pos_pos; assumption)) as (Ht' & Hlo' & Hhi').
  symmetry. apply (@binade_unique A B _ _ HB Ht Ht' Hlo Hhi).
  - destruct Hlo' as [Hz|Hlo']; [left; exact Hz | right].
    replace (2 ^ 52 * (B * c * 2 ^ binade (A * c) (B * c)))
      with (2 ^ 52 * (B * 2 ^ binade (A * c) (B * c)) * c) in Hlo' by ring.
    exact (proj2 (Z.mul_le_mono_pos_r _ _ c Hc) Hlo').
  - replace (2 ^ 53 * (B * c * 2 ^ binade (A * c) (B * c)))
      with (2 ^ 53 * (B * 2 ^ binade (A * c) (B * c)) * c) in Hhi' by ring.
    exact (proj2 (Z.mul_lt_mono_pos_r c _ _ Hc) Hhi').
Qed.

Lemma roundHalfEven_scale a b c :
  0 < b -> 0 < c -> roundHalfEven (a * c) (b * c) = roundHalfEven a b.
Proof.
  intros Hb Hc. unfold roundHalfEven.
  rewrite Z.div_mul_cancel_r by lia.
  rewrite Z.mul_mod_distr_r by lia.
  replace (2 * (a mod b * c)) with (2 * (a mod b) * c) by ring.
  rewrite <- (Zmult_compare_compat_r (2 * (a mod b)) b c) by lia. reflexivity.
Qed.

(** The double of a quotient depends on its value only. *)
Lemma roundQ_scale sign num den c :
  0 < den -> 0 < c -> roundQ sign (num * c) (den * c) = roundQ sign num den.
Proof.
  intros Hden Hc. unfold roundQ.
  destruct (Z.leb_spec num 0) as [Hle|Hgt].
  - destruct (Z.leb_spec (num * c) 0) as [_|Hpos]; [reflexivity|]. exfalso.
    assert (num * c <= 0 * c) by (apply Z.mul_le_mono_nonneg_r; lia). lia.
  - destruct (Z.leb_spec (num * c) 0) as [Hneg|_].
    { exfalso. assert (0 < num * c) by (apply Z.mul_pos_pos; lia). lia. }
    assert (HS : 0 < 2 ^ 1074) by (apply Z.pow_pos_nonneg; lia).
    replace (num * c * 2 ^ 1074) with (num * 2 ^ 1074 * c) by ring.
    rewrite (@binade_scale (num * 2 ^ 1074) den c
               ltac:(apply Z.mul_pos_pos; lia) Hden Hc).
    set (t := binade (num * 2 ^ 1074) den).
    assert (Ht : 0 < 2 ^ t).
    { apply Z.pow_pos_nonneg; [lia|].
      apply (@binade_spec (num * 2 ^ 1074) den);
        [apply Z.mul_pos_pos; lia | exact Hden]. }
    replace (den * c * 2 ^ t) with (den * 2 ^ t * c) by ring.
    rewrite (@roundHalfEven_scale (num * 2 ^ 1074) (den * 2 ^ t) c
               ltac:(apply Z.mul_pos_pos; lia) Hc).
    reflexivity.
Qed.

Lemma plainValue_nonNegative x : plainValue x -> isNaN x = false -> nonNegative x.
Proof.
  destruct x as [s|s| |s m e]; simpl; intros H Hn;
    [exact H | exact H | discriminate | apply H].
Qed.

Lemma nonNegative_valid x : nonNegative x -> isInvalid x = false.
Proof.
  destruct x as [s|s| |s m e]; simpl; intros H;
    [subst s | subst s | contradiction | subst s]; reflexivity.
Qed.

Lemma roundQ_not_nan sign num den : 0 < den -> isNaN (roundQ sign num den) = false.
Proof.
  intros Hden. destruct (Z_le_gt_dec num 0) as [Hle|Hgt].
  - unfold roundQ. destruct (Z.leb_spec num 0); [reflexivity | lia].
  - destruct (@roundQ_cases sign num den ltac:(lia) Hden)
      as (m & t & _ & _ & _ & _ & _ & E).
    rewrite E. destruct m as [|p|p]; [reflexivity| |reflexivity].
    destruct (t - 1074 <=? 971); reflexivity.
Qed.

Lemma roundQ_nonNegative num den : 0 < den -> nonNegative (roundQ false num den).
Proof.
  intros Hden. apply plainValue_nonNegative;
    [apply roundQ_plain | apply roundQ_not_nan]; exact Hden.
Qed.

(** A point and digits, and a rest that is no digit. *)
Lemma parseUnsigned_point neg b r2 :
  allDigits b -> b <> [] -> stopsDigits r2 ->
  parseUnsigned neg (chDot :: b ++ r2)
  = decimalValue neg b (parseExponent r2 - Z.of_nat (List.length b)).
Proof.
  intros Hb Hne Hr2. unfold parseUnsigned.
  change (startsWith (str "Infinity") (chDot :: b ++ r2)) with false. cbn iota.
  change (takeWhile isDigit (chDot :: b ++ r2)) with (@nil N).
  change (dropWhile isDigit (chDot :: b ++ r2)) with (chDot :: b ++ r2).
  unfold splitFraction. rewrite N.eqb_refl.
  rewrite takeWhile_digits, dropWhile_digits by assumption.
  destruct b as [|c b']; [contradiction | reflexivity].
Qed.

Lemma parseFloat_point r : parseFloat (chDot :: r) = parseUnsigned false (chDot :: r).
Proof. reflexivity. Qed.

Lemma replace_separator ds sep fs :
  allDigits ds -> isSeparator sep = true -> allDigits fs ->
  replace chComma chDot (ds ++ sep :: fs) = ds ++ chDot :: fs.
Proof.
  intros Hds Hsep Hfs. unfold isSeparator in Hsep. apply orb_true_iff in Hsep.
  destruct Hsep as [E|E]; apply N.eqb_eq in E; subst sep.
  - apply replace_hit, digits_no_comma, Hds.
  - apply replace_miss. apply Forall_app. split; [apply digits_no_comma, Hds|].
    constructor; [reflexivity | apply digits_no_comma, Hfs].
Qed.

(** The value of digits with up to two fraction digits, in hundredths. *)
Lemma decimalValue_hundredths ds k :
  (k <= 2)%nat ->
  decimalValue false ds (0 - Z.of_nat k)
  = roundQ false (digitsVal ds * 10 ^ (2 - Z.of_nat k)) 100.
Proof.
  intros Hk. unfold decimalValue.
  destruct k as [|[|[|k]]]; [| | |lia].
  - change (0 <=? 0 - Z.of_nat 0) with true. cbn iota.
    change (10 ^ (0 - Z.of_nat 0)) with 1. change (10 ^ (2 - Z.of_nat 0)) with 100.
    rewrite <- (@roundQ_scale false (digitsVal ds * 1) 1 100) by lia.
    f_equal. ring.
  - change (0 <=? 0 - Z.of_nat 1) with false. cbn iota.
    change (10 ^ (- (0 - Z.of_nat 1))) with 10. change (10 ^ (2 - Z.of_nat 1)) with 10.
    rewrite <- (@roundQ_scale false (digitsVal ds) 10 10) by lia. reflexivity.
  - change (0 <=? 0 - Z.of_nat 2) with false. cbn iota.
    change (10 ^ (- (0 - Z.of_nat 2))) with 100. change (10 ^ (2 - Z.of_nat 2)) with 1.
    f_equal. ring.
Qed.

(** What the strict page reads from a text of its input pattern: nothing
    from the empty text and from a lone separator, and from any other the
    double nearest to a whole number of hundredths. *)
Lemma decimalPattern_value v :
  decimalPattern v ->
  v = [] \/ loneSeparator v
  \/ exists n, 0 <= n /\ numericValueOf v = roundQ false n 100.
Proof.
  intros (ds & Hds & [E | (sep & fs & Hsep & Hfs & Hlen & E)]); subst v.
  - destruct ds as [|c ds']; [left; reflexivity|]. right. right.
    assert (Hc : isDigit c = true) by (inversion Hds; assumption).
    exists (digitsVal (c :: ds') * 10 ^ (2 - Z.of_nat 0)).
    split; [apply Z.mul_nonneg_nonneg; [apply digitsVal_nonneg, Hds | lia]|].
    unfold numericValueOf.
    rewrite (@replace_miss chComma chDot _ (digits_no_comma Hds)).
    rewrite (@parseFloat_digit_head c ds' Hc).
    rewrite <- (app_nil_r (c :: ds')) at 1.
    rewrite (@parseUnsigned_integer false (c :: ds') [] Hds ltac:(discriminate) I I).
    apply (@decimalValue_hundredths (c :: ds') 0). lia.
  - right.
    unfold numericValueOf. rewrite (@replace_separator ds sep fs Hds Hsep Hfs).
    destruct ds as [|c ds'].
    + destruct fs as [|f fs'].
      * left. unfold loneSeparator, isSeparator in *.
        apply orb_true_iff in Hsep.
        destruct Hsep as [E|E]; apply N.eqb_eq in E; subst sep; auto.
      * right. exists (digitsVal (f :: fs') * 10 ^ (2 - Z.of_nat (List.length (f :: fs')))).
        split.
        { apply Z.mul_nonneg_nonneg; [apply digitsVal_nonneg, Hfs|].
          apply Z.pow_nonneg. lia. }
        change ([] ++ chDot :: f :: fs') with (chDot :: f :: fs').
        rewrite parseFloat_point.
        rewrite <- (app_nil_r (f :: fs')) at 1.
        rewrite (@parseUnsigned_point false (f :: fs') [] Hfs ltac:(discriminate) I).
        apply (@decimalValue_hundredths (f :: fs') _ Hlen).
    + right.
      assert (Hc : isDigit c = true) by (inversion Hds; assumption).
      exists (digitsVal ((c :: ds') ++ fs) * 10 ^ (2 - Z.of_nat (List.length fs))).
      split.
      { apply Z.mul_nonneg_nonneg; [|apply Z.pow_nonneg; lia].
        apply digitsVal_nonneg. apply Forall_app. split; assumption. }
      change ((c :: ds') ++ chDot :: fs) with (c :: ds' ++ chDot :: fs).
      rewrite (@parseFloat_digit_head c _ Hc).
      change (c :: ds' ++ chDot :: fs) with ((c :: ds') ++ chDot :: fs).
      rewrite <- (app_nil_r fs) at 1.
      rewrite (@parseUnsigned_fraction false (c :: ds') fs [] Hds ltac:(discriminate) Hfs I).
      apply (@decimalValue_hundredths _ _ Hlen).
Qed.

Lemma loneSeparator_invalid v :
  loneSeparator v -> isBlank v = false /\ isNaN (numericValueOf v) = true.
Proof. intros [-> | ->]; split; reflexivity. Qed.

Lemma decimalPattern_not_blank v : decimalPattern v -> v <> [] -> isBlank v = false.
Proof.
  intros Hv Hne. pose proof (@decimalPattern_plainText v Hv) as Hp.
  destruct v as [|c r]; [contradiction|]. apply isBlank_head, Hp.
Qed.

(** X9: of the texts the strict page accepts, only the empty one is
    blank and only a lone comma or period is no number; every other one
    reads as a number that is not negative, so the calculation takes
    it. *)
Theorem accepted_text_is_an_amount v :
  Regex.test decimalInput v = true ->
  v <> [] -> ~ loneSeparator v ->
  isBlank v = false
  /\ isInvalid (numericValueOf v) = false
  /\ nonNegative (numericValueOf v).
Proof.
  intros Ht Hne Hsep. apply decimalInput_pattern in Ht.
  split; [apply decimalPattern_not_blank; assumption|].
  destruct (@decimalPattern_value v Ht) as [E|[E|(n & Hn & E)]];
    [contradiction | contradiction |].
  rewrite E. split; [apply nonNegative_valid|]; apply roundQ_nonNegative; lia.
Qed.

Lemma accepted_text_is_an_amount_witness :
  Regex.test decimalInput (str ",5") = true
  /\ isBlank (str ",5") = false
  /\ isInvalid (numericValueOf (str ",5")) = false
  /\ nonNegative (numericValueOf (str ",5")).
Proof.
  split; [reflexivity|].
  apply (@accepted_text_is_an_amount (str ",5")).
  - reflexivity.
  - discriminate.
  - intros [H|H]; discriminate H.
Defined.

Lemma blur_output_amount v :
  plainValue v -> isNaN v = false ->
  amountText (replace chDot chComma (toFixed2 v)).
Proof.
  intros Hp Hn. destruct (@normalize_stable v Hp Hn) as [Hhead Hfix].
  split; [apply digitHead_not_blank, Hhead|].
  apply nonNegative_valid, plainValue_nonNegative.
  - apply numericValueOf_plain, digitHead_plainText, Hhead.
  - destruct (numericValueOf (replace chDot chComma (toFixed2 v)));
      try reflexivity.
    exfalso. change (replace chDot chComma (toFixed2 S754_nan)) with (str "NaN") in Hfix.
    rewrite <- Hfix in Hhead. destruct Hhead as (c & r & E & [Hd | Hc]).
    + injection E as <- _. discriminate Hd.
    + injection E as <- _. discriminate Hc.
Qed.

Lemma textsStrict_withValue id0 v s :
  strictText v -> textsStrict s ->
  textsStrict (setInputs (withValue id0 v (inputs s)) s).
Proof.
  intros Hv Hs. unfold textsStrict. simpl.
  apply (@Forall_value_withValue strictText id0 v (inputs s) Hv Hs).
Qed.

Lemma decimalPattern_strictText v : decimalPattern v -> strictText v.
Proof.
  intros Hv. destruct (@decimalPattern_value v Hv) as [E|[E|(n & Hn & E)]].
  - left. exact E.
  - right. left. exact E.
  - destruct v as [|c r]; [left; reflexivity|]. right. right. split.
    + apply decimalPattern_not_blank; [exact Hv | discriminate].
    + rewrite E. apply nonNegative_valid, roundQ_nonNegative. lia.
Qed.

Lemma strict_step_textsStrict s op :
  textsPlain s -> textsStrict s -> textsStrict (Strict.step s op).
Proof.
  intros Hp Hs. destruct op as [id0 v|id0| |id0| |]; simpl.
  - unfold Strict.handleInputChange.
    assert (Hs1 : textsStrict
              (if isResultVisible s then setIsResultVisible false s else s))
      by (destruct (isResultVisible s); exact Hs).
    destruct (Regex.test decimalInput v) eqn:Ht; [|exact Hs1].
    assert (Hv : strictText v)
      by (apply decimalPattern_strictText, decimalInput_pattern; exact Ht).
    assert (H2 : textsStrict
              (setInputs (withValue id0 v (inputs s))
                 (if isResultVisible s then setIsResultVisible false s else s))).
    { destruct (isResultVisible s); apply (@textsStrict_withValue id0 v s Hv Hs). }
    destruct (negb (isEmpty (error s))); exact H2.
  - destruct (@handleInputBlur_cases id0 s Hp)
      as [E | (input & _ & _ & Hn & Hpv & E)]; rewrite E; [exact Hs|].
    apply textsStrict_withValue; [|exact Hs].
    right. right. apply blur_output_amount; assumption.
  - unfold textsStrict. simpl. apply Forall_app. split; [exact Hs|].
    constructor; [left; reflexivity | constructor].
  - unfold Strict.removeInput.
    destruct (1 <? List.length (inputs s))%nat; [|exact Hs].
    unfold textsStrict. simpl. apply Forall_filter. exact Hs.
  - unfold Strict.handleCalculation.
    destruct (Strict.sumInputs (inputs s) zero); exact Hs.
  - unfold textsStrict. simpl. constructor; [left; reflexivity | constructor].
Qed.

Lemma strict_run_textsStrict ops : forall s,
  textsPlain s -> textsStrict s -> textsStrict (Strict.run ops s).
Proof.
  induction ops as [|op ops IH]; simpl; intros s Hp Hs; [exact Hs|].
  apply IH; [apply strict_step_textsPlain, Hp | apply strict_step_textsStrict; assumption].
Qed.

Lemma textsStrict_initialState : textsStrict initialState.
Proof. constructor; [left; reflexivity | constructor]. Qed.

(** The row at which the strict loop stops. *)
Lemma strict_sumInputs_culprit l : forall sum k,
  Forall (fun i => strictText (value i)) l ->
  Strict.sumInputs l sum = inr k ->
  exists i, In i l
    /\ match k with
       | MissingAmount => value i = []
       | InvalidAmount => loneSeparator (value i)
       end.
Proof.
  induction l as [|a l IH]; intros sum k Hall H; simpl in H; [discriminate|].
  inversion Hall as [|? ? Ha Hl]; subst.
  destruct Ha as [E|[E|[Hb Hv]]].
  - rewrite E in H. change (isBlank []) with true in H. cbn iota in H.
    injection H as <-. exists a. split; [left; reflexivity | exact E].
  - destruct (@loneSeparator_invalid _ E) as [Hb Hn].
    rewrite Hb in H. unfold isInvalid in H. rewrite Hn in H. simpl in H.
    injection H as <-. exists a. split; [left; reflexivity | exact E].
  - rewrite Hb, Hv in H. destruct (IH _ _ Hl H) as (i & Hin & Hi).
    exists i. split; [right; exact Hin | exact Hi].
Qed.

(** X10: in every state the strict page can reach, a failed calculation
    names a row the user can see is wrong: the message of a missing
    amount comes from a row with empty text, that of an invalid amount
    from a row holding only a comma or a period; and when no row is
    empty or a lone separator the calculation succeeds. *)
Theorem strict_failure_names_an_empty_or_separator_row : forall ops,
  let s := Strict.run ops initialState in
  (error (Strict.handleCalculation s) = message MissingAmount ->
   exists i, In i (inputs s) /\ value i = [])
  /\ (error (Strict.handleCalculation s) = message InvalidAmount ->
      exists i, In i (inputs s) /\ loneSeparator (value i))
  /\ (Forall (fun i => value i <> [] /\ ~ loneSeparator (value i)) (inputs s) ->
      exists sum, Strict.handleCalculation s = publish sum s).
Proof.
  intros ops s.
  assert (Hs : textsStrict s).
  { apply strict_run_textsStrict;
      [apply textsPlain_initialState | apply textsStrict_initialState]. }
  assert (Hk : forall k, error (Strict.handleCalculation s) = message k ->
                         Strict.sumInputs (inputs s) zero = inr k).
  { intros k. unfold Strict.handleCalculation.
    destruct (Strict.sumInputs (inputs s) zero) as [sum|k'] eqn:E; simpl; intros H.
    - exfalso. apply (@message_nonempty k). symmetry. exact H.
    - f_equal. apply message_injective. exact H. }
  split; [|split].
  - intros H. apply (@strict_sumInputs_culprit _ _ MissingAmount Hs (Hk _ H)).
  - intros H. apply (@strict_sumInputs_culprit _ _ InvalidAmount Hs (Hk _ H)).
  - intros Hall. exists (sumParsed (inputs s) zero).
    unfold Strict.handleCalculation. rewrite strict_sumInputs_ok; [reflexivity|].
    unfold textsStrict in Hs. rewrite Forall_forall in *. intros i Hin.
    destruct (Hs i Hin) as [E|[E|Ha]]; [|  |exact Ha];
      exfalso; destruct (Hall i Hin) as [H1 H2]; auto.
Qed.

Lemma isBlank_cons_white c r : isWhiteSpace c = true -> isBlank (c :: r) = isBlank r.
Proof.
  intros Hc. unfold isBlank, trim, trimStart. cbn [dropWhile]. rewrite Hc. reflexivity.
Qed.

(** X11: a row counts as blank exactly when its text holds nothing but
    white space (the empty text included). *)
Theorem blank_means_white_space_only t :
  isBlank t = true <-> allWhiteSpace t.
Proof.
  induction t as [|c r IH].
  - split; [constructor | reflexivity].
  - destruct (isWhiteSpace c) eqn:Hc.
    + rewrite (@isBlank_cons_white c r Hc), IH. split.
      * intros H. constructor; assumption.
      * intros H. inversion H; assumption.
    + rewrite (@isBlank_head c r Hc). split; [discriminate|].
      intros H. inversion H; congruence.
Qed.

Lemma white_not_comma c : isWhiteSpace c = true -> (c =? chComma)%N = false.
Proof.
  intros H. destruct (N.eqb_spec c chComma) as [E|_]; [|reflexivity].
  subst c. discriminate H.
Qed.

Lemma replace_app_miss x y p q :
  Forall (fun c => (c =? x)%N = false) p ->
  replace x y (p ++ q) = p ++ replace x y q.
Proof.
  induction 1 as [|c p Hc _ IH]; simpl; [reflexivity|]. rewrite Hc, IH. reflexivity.
Qed.

Lemma endsLiteral_replace r : endsLiteral r -> endsLiteral (replace chComma chDot r).
Proof.
  destruct r as [|c r]; simpl; [trivial|].
  destruct (N.eqb_spec c chComma) as [E|_]; intros H; [split; reflexivity | exact H].
Qed.

Lemma endsLiteral_stops r : endsLiteral r -> stopsDigits r /\ parseExponent r = 0.
Proof.
  destruct r as [|c r]; simpl; [intros _; split; reflexivity|].
  intros [Hd He]. split; [exact Hd|]. rewrite He. reflexivity.
Qed.

Lemma trimStart_white ws c r :
  allWhiteSpace ws -> isWhiteSpace c = false -> trimStart (ws ++ c :: r) = c :: r.
Proof.
  intros Hws Hc. unfold trimStart.
  induction Hws as [|w ws Hw _ IH]; simpl; [rewrite Hc | rewrite Hw]; auto.
Qed.

Lemma parseFloat_trimStart s : parseFloat (trimStart s) = parseFloat s.
Proof.
  unfold parseFloat.
  assert (E : trimStart (trimStart s) = trimStart s).
  { unfold trimStart. induction s as [|c r IH]; simpl; [reflexivity|].
    destruct (isWhiteSpace c) eqn:Hc; [exact IH|]. simpl. rewrite Hc. reflexivity. }
  rewrite E. reflexivity.
Qed.

(** X12: the lenient page reads the number a text starts with and ignores
    what follows it: white space before digits is skipped, and
    whatever comes after the digits that is no digit, separator or
    exponent letter is not looked at, so such a row is an amount. *)
Theorem text_after_the_digits_is_ignored ws a rest :
  allWhiteSpace ws -> allDigits a -> a <> [] -> endsLiteral rest ->
  match rest with [] => True | c :: _ => isSeparator c = false end ->
  numericValueOf (ws ++ a ++ rest) = numericValueOf a
  /\ numericValueOf a = roundQ false (digitsVal a) 1
  /\ isBlank (ws ++ a ++ rest) = false
  /\ isInvalid (numericValueOf (ws ++ a ++ rest)) = false.
Proof.
  intros Hws Ha Hne Hend Hsep.
  destruct a as [|c a']; [contradiction|].
  assert (Hc : isDigit c = true) by (inversion Ha; assumption).
  destruct (@digit_plain c Hc) as (Hcw & _).
  assert (Hva : numericValueOf (c :: a') = roundQ false (digitsVal (c :: a')) 1).
  { unfold numericValueOf.
    rewrite (@replace_miss chComma chDot _ (digits_no_comma Ha)).
    rewrite (@parseFloat_digit_head c a' Hc).
    rewrite <- (app_nil_r (c :: a')) at 1.
    rewrite (@parseUnsigned_integer false (c :: a') [] Ha ltac:(discriminate) I I).
    unfold decimalValue. change (0 <=? parseExponent [] - 0) with true. cbn iota.
    change (10 ^ (parseExponent [] - 0)) with 1. f_equal. ring. }
  assert (Hv : numericValueOf (ws ++ (c :: a') ++ rest) = numericValueOf (c :: a')).
  { rewrite Hva. unfold numericValueOf.
    rewrite replace_app_miss
      by (eapply Forall_impl; [|exact Hws]; intros x Hx; apply white_not_comma, Hx).
    rewrite (@replace_app_miss chComma chDot (c :: a') rest (digits_no_comma Ha)).
    pose proof (@endsLiteral_replace rest Hend) as Hend'.
    assert (Hdot : match replace chComma chDot rest with
                   | [] => True | x :: _ => (x =? chDot)%N = false end).
    { destruct rest as [|x r]; simpl; [exact I|].
      unfold isSeparator in Hsep. apply orb_false_iff in Hsep.
      destruct Hsep as [H1 H2]. rewrite H1. exact H2. }
    destruct (@endsLiteral_stops _ Hend') as [Hstop Hexp].
    rewrite <- parseFloat_trimStart.
    change (ws ++ (c :: a') ++ replace chComma chDot rest)
      with (ws ++ c :: (a' ++ replace chComma chDot rest)).
    rewrite (@trimStart_white ws c _ Hws Hcw).
    rewrite (@parseFloat_digit_head c _ Hc).
    change (c :: a' ++ replace chComma chDot rest)
      with ((c :: a') ++ replace chComma chDot rest).
    rewrite (@parseUnsigned_integer false (c :: a') _ Ha ltac:(discriminate) Hstop Hdot).
    rewrite Hexp. unfold decimalValue. change (0 <=? 0 - 0) with true. cbn iota.
    change (10 ^ (0 - 0)) with 1. f_equal. ring. }
  split; [exact Hv|]. split; [exact Hva|]. split.
  - change (ws ++ (c :: a') ++ rest) with (ws ++ c :: (a' ++ rest)).
    clear Hv. induction Hws as [|w ws Hw _ IH]; simpl.
    + apply isBlank_head, Hcw.
    + rewrite (@isBlank_cons_white w _ Hw). exact IH.
  - rewrite Hv, Hva. apply nonNegative_valid, roundQ_nonNegative. lia.
Qed.

Lemma text_after_the_digits_is_ignored_witness :
  numericValueOf (str " " ++ str "12" ++ str " EUR") = numericValueOf (str "12")
  /\ numericValueOf (str "12") = roundQ false (digitsVal (str "12")) 1
  /\ isBlank (str " " ++ str "12" ++ str " EUR") = false
  /\ isInvalid (numericValueOf (str " " ++ str "12" ++ str " EUR")) = false.
Proof.
  apply (@text_after_the_digits_is_ignored (str " ") (str "12") (str " EUR")).
  - repeat constructor.
  - repeat constructor.
  - discriminate.
  - split; reflexivity.
  - reflexivity.
Defined.

(** X13: after digits, a separator and fraction digits, whatever follows
    that is no digit or exponent letter is ignored, a second separator
    included: a text in the page's own output format with a period
    between the thousands, as ["1.234,56"], is read up to its comma. *)
Theorem text_after_the_fraction_is_ignored a sep b rest :
  allDigits a -> a <> [] -> isSeparator sep = true -> allDigits b ->
  endsLiteral rest ->
  numericValueOf (a ++ sep :: b ++ rest) = numericValueOf (a ++ sep :: b)
  /\ numericValueOf (a ++ sep :: b)
     = decimalValue false (a ++ b) (- Z.of_nat (List.length b)).
Proof.
  intros Ha Hne Hsep Hb Hend.
  destruct a as [|c a']; [contradiction|].
  assert (Hc : isDigit c = true) by (inversion Ha; assumption).
  assert (Hshort : numericValueOf ((c :: a') ++ sep :: b)
                   = decimalValue false ((c :: a') ++ b) (- Z.of_nat (List.length b))).
  { unfold numericValueOf. rewrite (@replace_separator _ sep b Ha Hsep Hb).
    change ((c :: a') ++ chDot :: b) with (c :: a' ++ chDot :: b).
    rewrite (@parseFloat_digit_head c _ Hc).
    change (c :: a' ++ chDot :: b) with ((c :: a') ++ chDot :: b).
    rewrite <- (app_nil_r b) at 1.
    rewrite (@parseUnsigned_fraction false (c :: a') b [] Ha ltac:(discriminate) Hb I).
    reflexivity. }
  split; [|exact Hshort]. rewrite Hshort. unfold numericValueOf.
  assert (E : exists r2, endsLiteral r2
              /\ replace chComma chDot ((c :: a') ++ sep :: b ++ rest)
                 = (c :: a') ++ chDot :: b ++ r2).
  { unfold isSeparator in Hsep. apply orb_true_iff in Hsep.
    destruct Hsep as [E|E]; apply N.eqb_eq in E; subst sep.
    - exists rest. split; [exact Hend|].
      apply replace_hit, digits_no_comma, Ha.
    - exists (replace chComma chDot rest). split; [apply endsLiteral_replace, Hend|].
      rewrite (@replace_app_miss chComma chDot (c :: a') _ (digits_no_comma Ha)).
      f_equal. change (chDot :: b ++ rest) with ((chDot :: b) ++ rest).
      rewrite replace_app_miss; [reflexivity|].
      constructor; [reflexivity | apply digits_no_comma, Hb]. }
  destruct E as (r2 & Hend2 & ->).
  destruct (@endsLiteral_stops _ Hend2) as [Hstop Hexp].
  change ((c :: a') ++ chDot :: b ++ r2) with (c :: a' ++ chDot :: b ++ r2).
  rewrite (@parseFloat_digit_head c _ Hc).
  change (c :: a' ++ chDot :: b ++ r2) with ((c :: a') ++ chDot :: b ++ r2).
  rewrite (@parseUnsigned_fraction false (c :: a') b r2 Ha ltac:(discriminate) Hb Hstop).
  rewrite Hexp. reflexivity.
Qed.

Lemma text_after_the_fraction_is_ignored_witness :
  numericValueOf (str "1" ++ chDot :: str "234" ++ str ",56")
  = numericValueOf (str "1" ++ chDot :: str "234")
  /\ numericValueOf (str "1" ++ chDot :: str "234")
     = decimalValue false (str "1" ++ str "234") (- Z.of_nat (List.length (str "234"))).
Proof.
  apply (@text_after_the_fraction_is_ignored (str "1") chDot (str "234") (str ",56")).
  - repeat constructor.
  - discriminate.
  - reflexivity.
  - repeat constructor.
  - split; reflexivity.
Defined.

End TypedAmounts.

(* ================================================================== *)
(** ** The two calculations side by side *)
(* ================================================================== *)

Section Sums.
Local Open Scope Z_scope.

Lemma sumInputs_agree l : forall sum,
  Forall (fun i => isBlank (value i) = false) l ->
  Strict.sumInputs l sum = Lenient.sumInputs l sum.
Proof.
  induction l as [|a l IH]; intros sum Hall; simpl; [reflexivity|].
  inversion Hall as [|? ? Ha Hl]; subst. rewrite Ha.
  destruct (isInvalid (numericValueOf (value a))); [reflexivity | apply IH, Hl].
Qed.

(** X14: when no row is blank the two variants of the calculation do the
    same: the same result published, or the same error. *)
Theorem variants_agree_without_blank_rows s :
  Forall (fun i => isBlank (value i) = false) (inputs s) ->
  Strict.handleCalculation s = Lenient.handleCalculation s.
Proof.
  intros H. unfold Strict.handleCalculation, Lenient.handleCalculation.
  rewrite (@sumInputs_agree (inputs s) zero H). reflexivity.
Qed.

Lemma variants_agree_without_blank_rows_witness :
  let s := withInputs [row 1 "10"; row 2 "x"] in
  Forall (fun i => isBlank (value i) = false) (inputs s)
  /\ Strict.handleCalculation s = Lenient.handleCalculation s.
Proof.
  intros s.
  assert (H : Forall (fun i => isBlank (value i) = false) (inputs s))
    by (constructor; [reflexivity|]; constructor; [reflexivity | constructor]).
  split; [exact H | exact (@variants_agree_without_blank_rows s H)].
Defined.

Lemma lenient_sumInputs_all_blank l : forall sum,
  Forall (fun i => isBlank (value i) = true) l -> Lenient.sumInputs l sum = inl sum.
Proof.
  induction l as [|a l IH]; intros sum Hall; simpl; [reflexivity|].
  inversion Hall as [|? ? Ha Hl]; subst. rewrite Ha. apply IH, Hl.
Qed.

Lemma zero_share n :
  (1 <= n)%nat -> finalResultValue zero n = S754_zero false.
Proof.
  intros Hn. unfold finalResultValue.
  destruct (ofNat_nonzero Hn) as [Hz Hnan].
  pose proof (@roundQ_nonNegative (Z.of_nat n) 1 ltac:(lia)) as Hpos.
  fold (ofNat n) in Hpos.
  assert (E : roundQ false 5 100 = S754_finite false 7205759403792794 (-57))
    by (vm_compute; reflexivity).
  rewrite E. clear E.
  destruct (ofNat n) as [s|s| |s m e]; simpl in Hz, Hnan, Hpos;
    [discriminate Hz | subst s; reflexivity | discriminate Hnan
    | subst s; reflexivity].
Qed.

(** X15: a form whose rows are all blank: the lenient page publishes
    ["0,00"] with the euro sign, the strict page reports a missing
    amount and leaves the stored result. *)
Theorem all_blank_rows_give_zero_or_missing s :
  inputs s <> [] ->
  Forall (fun i => isBlank (value i) = true) (inputs s) ->
  Lenient.handleCalculation s = publish zero s
  /\ result (Lenient.handleCalculation s)
     = {| number := str "0,00"; currency := Intl.euroSign |}
  /\ isResultVisible (Lenient.handleCalculation s) = true
  /\ Strict.handleCalculation s = failWith MissingAmount s.
Proof.
  intros Hne Hall.
  assert (El : Lenient.handleCalculation s = publish zero s).
  { unfold Lenient.handleCalculation.
    rewrite (@lenient_sumInputs_all_blank (inputs s) zero Hall). reflexivity. }
  rewrite El. split; [reflexivity|]. split; [|split; [reflexivity|]].
  - unfold publish. cbn [result setResult setIsResultVisible].
    rewrite zero_share; [reflexivity|].
    destruct (inputs s); [contradiction | simpl; lia].
  - unfold Strict.handleCalculation.
    destruct (inputs s) as [|a l]; [contradiction|].
    inversion Hall as [|? ? Ha Hl]; subst. simpl. rewrite Ha. reflexivity.
Qed.

Lemma all_blank_rows_give_zero_or_missing_witness :
  let s := Lenient.run [Lenient.AddInput; Lenient.InputChange 2 (str "  ")]
             initialState in
  map value (inputs s) = [str ""; str "  "]
  /\ Lenient.handleCalculation s = publish zero s
  /\ result (Lenient.handleCalculation s)
     = {| number := str "0,00"; currency := Intl.euroSign |}
  /\ isResultVisible (Lenient.handleCalculation s) = true
  /\ Strict.handleCalculation s = failWith MissingAmount s.
Proof.
  intros s. split; [reflexivity|].
  apply (@all_blank_rows_give_zero_or_missing s).
  - discriminate.
  - constructor; [reflexivity|]. constructor; [reflexivity | constructor].
Defined.

(** X16: the calculation changes neither the rows nor the id counter, and
    running it a second time changes nothing more. *)
Theorem calculation_keeps_rows_and_settles :
  (forall s,
     inputs (Strict.handleCalculation s) = inputs s
     /\ nextId (Strict.handleCalculation s) = nextId s
     /\ Strict.handleCalculation (Strict.handleCalculation s)
        = Strict.handleCalculation s)
  /\ (forall s,
        inputs (Lenient.handleCalculation s) = inputs s
        /\ nextId (Lenient.handleCalculation s) = nextId s
        /\ Lenient.handleCalculation (Lenient.handleCalculation s)
           = Lenient.handleCalculation s).
Proof.
  split; intros s.
  - assert (Hi : inputs (Strict.handleCalculation s) = inputs s).
    { unfold Strict.handleCalculation.
      destruct (Strict.sumInputs (inputs s) zero); reflexivity. }
    split; [exact Hi|]. split.
    + unfold Strict.handleCalculation.
      destruct (Strict.sumInputs (inputs s) zero); reflexivity.
    + unfold Strict.handleCalculation at 1. rewrite Hi.
      unfold Strict.handleCalculation.
      destruct (Strict.sumInputs (inputs s) zero); reflexivity.
  - assert (Hi : inputs (Lenient.handleCalculation s) = inputs s).
    { unfold Lenient.handleCalculation.
      destruct (Lenient.sumInputs (inputs s) zero); reflexivity. }
    split; [exact Hi|]. split.
    + unfold Lenient.handleCalculation.
      destruct (Lenient.sumInputs (inputs s) zero); reflexivity.
    + unfold Lenient.handleCalculation at 1. rewrite Hi.
      unfold Lenient.handleCalculation.
      destruct (Lenient.sumInputs (inputs s) zero); reflexivity.
Qed.

End Sums.

(* ================================================================== *)
(** ** The sign of what is published *)
(* ================================================================== *)

Section Signs.
Local Open Scope Z_scope.

Lemma shr_1_nonneg mrs : 0 <= shr_m mrs -> 0 <= shr_m (shr_1 mrs).
Proof.
  destruct mrs as [m r s]. simpl. intros Hm.
  destruct m as [|p|p]; [simpl; lia | | lia].
  destruct p; simpl; lia.
Qed.

Lemma iter_shr_1_nonneg p : forall mrs,
  0 <= shr_m mrs -> 0 <= shr_m (iter_pos shr_1 p mrs).
Proof.
  induction p as [p IH|p IH|]; intros mrs Hm; simpl.
  - apply IH, IH, shr_1_nonneg, Hm.
  - apply IH, IH, Hm.
  - apply shr_1_nonneg, Hm.
Qed.

Lemma shr_fexp_nonneg m e l :
  0 <= m -> 0 <= shr_m (fst (shr_fexp prec emax m e l)).
Proof.
  intros Hm. unfold shr_fexp, shr.
  assert (H0 : 0 <= shr_m (shr_record_of_loc m l))
    by (destruct l as [|[| |]]; exact Hm).
  destruct (fexp prec emax (Zdigits2 m + e) - e) as [|p|p]; simpl;
    [exact H0 | apply iter_shr_1_nonneg, H0 | exact H0].
Qed.

Lemma round_nearest_even_nonneg m l : 0 <= m -> 0 <= round_nearest_even m l.
Proof.
  intros Hm. destruct l as [|[| |]]; simpl; try lia.
  destruct (Z.even m); lia.
Qed.

(** Rounding a magnitude with the sign of a number that is not negative
    gives a number that is not negative. *)
Lemma binary_round_aux_nonNegative mx ex lx :
  0 <= mx -> nonNegative (binary_round_aux prec emax false mx ex lx).
Proof.
  intros Hm. unfold binary_round_aux.
  pose proof (@shr_fexp_nonneg mx ex lx Hm) as H1.
  destruct (shr_fexp prec emax mx ex lx) as [mrs' e']. simpl in H1.
  pose proof (@shr_fexp_nonneg
                (round_nearest_even (shr_m mrs') (loc_of_shr_record mrs'))
                e' loc_Exact (round_nearest_even_nonneg _ H1)) as H2.
  destruct (shr_fexp prec emax _ e' loc_Exact) as [mrs'' e'']. simpl in H2.
  destruct (shr_m mrs'') as [|p|p]; [reflexivity| |lia].
  destruct (e'' <=? emax - prec); reflexivity.
Qed.

Lemma valid_addend y :
  isInvalid y = false ->
  match y with
  | S754_nan => False
  | S754_zero _ => True
  | S754_infinity s | S754_finite s _ _ => s = false
  end.
Proof.
  destruct y as [s|s| |s m e]; simpl; intros H;
    [exact I | destruct s; [discriminate H | reflexivity]
    | discriminate H | destruct s; [discriminate H | reflexivity]].
Qed.

Lemma add_nonNegative x y :
  nonNegative x -> isInvalid y = false -> nonNegative (add x y).
Proof.
  intros Hx Hy. apply valid_addend in Hy.
  destruct x as [sx|sx| |sx mx ex]; simpl in Hx; try contradiction; subst sx;
    destruct y as [sy|sy| |sy my ey]; try contradiction; try subst sy;
    try reflexivity.
  - destruct sy; reflexivity.
  - unfold add, SFadd, cond_Zopp, binary_normalize.
    change (Z.pos (fst (shl_align mx ex (Z.min ex ey)))
            + Z.pos (fst (shl_align my ey (Z.min ex ey))))
      with (Z.pos (fst (shl_align mx ex (Z.min ex ey))
                   + fst (shl_align my ey (Z.min ex ey)))).
    cbv iota. unfold binary_round.
    destruct (shl_align _ _ _) as [mz ez].
    apply binary_round_aux_nonNegative. lia.
Qed.

Lemma div_nonNegative x my ey :
  nonNegative x -> nonNegative (div x (S754_finite false my ey)).
Proof.
  intros Hx.
  destruct x as [sx|sx| |sx mx ex]; simpl in Hx; try contradiction; subst sx;
    try reflexivity.
  unfold div, SFdiv, SFdiv_core_binary.
  set (m' := match _ - _ - _ with
             | 0 => Z.pos mx | Z.pos _ => Z.shiftl (Z.pos mx) _ | Z.neg _ => 0 end).
  assert (Hm' : 0 <= m').
  { unfold m'. destruct (_ - _ - _) as [|p|p]; [lia | | lia].
    apply Z.shiftl_nonneg. lia. }
  pose proof (Z.div_pos m' (Z.pos my) Hm' ltac:(lia)) as Hq.
  unfold Z.div in Hq.
  destruct (Z.div_eucl m' (Z.pos my)) as [q r].
  cbv iota beta. apply binary_round_aux_nonNegative. exact Hq.
Qed.

Lemma mul_nonNegative x my ey :
  nonNegative x -> nonNegative (mul x (S754_finite false my ey)).
Proof.
  intros Hx.
  destruct x as [sx|sx| |sx mx ex]; simpl in Hx; try contradiction; subst sx;
    try reflexivity.
  unfold mul, SFmul. apply binary_round_aux_nonNegative. lia.
Qed.

(** The Number of a row count up to the greatest array length is
    finite. *)
Lemma ofNat_finite n :
  (1 <= n)%nat -> Z.of_nat n < 2 ^ 32 ->
  exists m e, ofNat n = S754_finite false m e.
Proof.
  intros Hn Hlim. unfold ofNat.
  destruct (@roundQ_cases false (Z.of_nat n) 1 ltac:(lia) ltac:(lia))
    as (m & t & Ht & Hm & Hnorm & Hnear & Hhalf & E).
  rewrite E. destruct m as [|p|p]; [|  |lia].
  - exfalso. pose proof scale_pos as HS.
    assert (1 * 2 ^ 1074 <= Z.of_nat n * 2 ^ 1074)
      by (apply Z.mul_le_mono_nonneg_r; lia).
    specialize (Hnear 1 1074 ltac:(change (2 ^ 53) with 9007199254740992; lia) ltac:(lia)).
    remember (2 ^ 1074) as S eqn:ES. clear ES.
    remember (2 ^ t) as G eqn:EG. clear EG. lia.
  - destruct (Z.leb_spec (t - 1074) 971) as [Hfin|Hinf]; [eauto|].
    exfalso. destruct Hnorm as [Hz|Hfull]; [lia|].
    pose proof scale_pos as HS.
    assert (HG : 2 ^ (32 + 1074) <= 2 ^ t) by (apply Z.pow_le_mono_r; lia).
    rewrite Z.pow_add_r in HG by lia.
    change (2 ^ 32) with 4294967296 in *.
    change (2 ^ 52) with 4503599627370496 in *.
    assert (Z.of_nat n * 2 ^ 1074 <= 4294967296 * 2 ^ 1074)
      by (apply Z.mul_le_mono_nonneg_r; lia).
    assert (4503599627370496 * 2 ^ t <= Z.pos p * 2 ^ t)
      by (apply Z.mul_le_mono_nonneg_r; lia).
    remember (2 ^ 1074) as S eqn:ES. clear ES.
    remember (2 ^ t) as G eqn:EG. clear EG. lia.
Qed.

Lemma finalResultValue_nonNegative sum n :
  nonNegative sum -> (1 <= n)%nat -> Z.of_nat n < 2 ^ 32 ->
  nonNegative (finalResultValue sum n).
Proof.
  intros Hs Hn Hlim. unfold finalResultValue.
  destruct (@ofNat_finite n Hn Hlim) as (m & e & E). rewrite E.
  assert (E5 : roundQ false 5 100 = S754_finite false 7205759403792794 (-57))
    by (vm_compute; reflexivity).
  rewrite E5. clear E5.
  apply mul_nonNegative, div_nonNegative, Hs.
Qed.

Lemma strict_sumInputs_nonNegative l : forall acc sum,
  nonNegative acc -> Strict.sumInputs l acc = inl sum -> nonNegative sum.
Proof.
  induction l as [|a l IH]; intros acc sum Hacc H; simpl in H.
  - injection H as <-. exact Hacc.
  - destruct (isBlank (value a)); [discriminate H|].
    destruct (isInvalid (numericValueOf (value a))) eqn:Hv; [discriminate H|].
    apply (IH _ _ (@add_nonNegative _ _ Hacc Hv) H).
Qed.

Lemma lenient_sumInputs_nonNegative l : forall acc sum,
  nonNegative acc -> Lenient.sumInputs l acc = inl sum -> nonNegative sum.
Proof.
  induction l as [|a l IH]; intros acc sum Hacc H; simpl in H.
  - injection H as <-. exact Hacc.
  - destruct (isBlank (value a)); [apply (IH _ _ Hacc H)|].
    destruct (isInvalid (numericValueOf (value a))) eqn:Hv; [discriminate H|].
    apply (IH _ _ (@add_nonNegative _ _ Hacc Hv) H).
Qed.

Lemma hundredths_nonneg num den : 0 <= num -> 0 < den -> 0 <= hundredths num den.
Proof.
  intros Hnum Hden. unfold hundredths. apply Z.div_pos; lia.
Qed.

Lemma partsText_app a b : partsText (a ++ b) = partsText a ++ partsText b.
Proof. unfold partsText. rewrite map_app, concat_app. reflexivity. Qed.

(** What the formatter writes for a number that is not negative, and
    what the calculation keeps of it. *)
Lemma format_nonNegative v :
  nonNegative v ->
  Forall (fun p => Intl.type p <> Intl.minusSign /\ Intl.type p <> Intl.nan)
         (Intl.formatToParts v)
  /\ partsText (Intl.formatToParts v)
     = (if isFinite v then number (collectParts (Intl.formatToParts v))
        else Intl.infinitySign)
       ++ Intl.noBreakSpace ++ Intl.euroSign
  /\ (isFinite v = false -> number (collectParts (Intl.formatToParts v)) = []).
Proof.
  assert (Hmag : forall n, 0 <= n ->
            Forall (fun p => Intl.type p <> Intl.minusSign /\ Intl.type p <> Intl.nan)
                   (Intl.magnitudeParts n ++ Intl.currencyParts)).
  { intros n Hn. destruct (@magnitudeParts_text n Hn) as [Hall _].
    apply Forall_app. split.
    - rewrite forallb_forall in Hall. apply Forall_forall. intros p Hp.
      specialize (Hall p Hp). unfold isNumberPart in Hall.
      destruct (Intl.type p); try discriminate Hall; split; discriminate.
    - repeat constructor; simpl; discriminate. }
  assert (Htext : forall n, 0 <= n ->
            partsText (Intl.signParts false ++ Intl.magnitudeParts n ++ Intl.currencyParts)
            = number (collectParts (Intl.signParts false ++ Intl.magnitudeParts n
                                      ++ Intl.currencyParts))
              ++ Intl.noBreakSpace ++ Intl.euroSign).
  { intros n Hn. rewrite (@collect_magnitude false n Hn). cbn [number].
    change (Intl.signParts false) with (@nil Intl.part). cbn [app].
    rewrite partsText_app. reflexivity. }
  destruct v as [s|s| |s m e]; simpl; intros Hv; try contradiction; subst s.
  - split; [apply (Hmag 0); lia|]. split; [apply (Htext 0); lia | discriminate].
  - split; [|split; reflexivity].
    repeat constructor; simpl; discriminate.
  - pose proof (@hundredths_nonneg (numOf m e) (denOf e)
                  ltac:(pose proof (numOf_pos m e); lia) (denOf_pos e)) as Hn.
    split; [apply (Hmag _ Hn)|]. split; [apply (Htext _ Hn) | discriminate].
Qed.

(** X17: whenever a calculation succeeds on a form of at least one row
    (and no more rows than an array can hold), the sum and the value it
    publishes are numbers that are not negative: the formatter never
    writes a minus sign or ["NaN"], so the calculation drops nothing but
    the space before the euro sign: the formatted text is the number
    shown, a no-break space and the euro sign when the value is finite,
    and the infinity sign with an empty number shown when the sum
    overflowed. *)
Theorem published_amount_is_never_negative s sum :
  inputs s <> [] ->
  Z.of_nat (List.length (inputs s)) < 2 ^ 32 ->
  Strict.sumInputs (inputs s) zero = inl sum
  \/ Lenient.sumInputs (inputs s) zero = inl sum ->
  let v := finalResultValue sum (List.length (inputs s)) in
  nonNegative sum /\ nonNegative v
  /\ Forall (fun p => Intl.type p <> Intl.minusSign /\ Intl.type p <> Intl.nan)
            (Intl.formatToParts v)
  /\ partsText (Intl.formatToParts v)
     = (if isFinite v then number (result (publish sum s)) else Intl.infinitySign)
       ++ Intl.noBreakSpace ++ Intl.euroSign
  /\ (isFinite v = false -> number (result (publish sum s)) = []).
Proof.
  intros Hne Hlim Hsum v.
  assert (Hs : nonNegative sum).
  { destruct Hsum as [H|H];
      [apply (@strict_sumInputs_nonNegative _ zero sum eq_refl H)
      | apply (@lenient_sumInputs_nonNegative _ zero sum eq_refl H)]. }
  assert (Hv : nonNegative v).
  { apply finalResultValue_nonNegative; [exact Hs | | exact Hlim].
    destruct (inputs s); [contradiction | simpl; lia]. }
  split; [exact Hs|]. split; [exact Hv|].
  exact (@format_nonNegative v Hv).
Qed.

Lemma published_amount_is_never_negative_witness :
  let s := withInputs [row 1 "-0"; row 2 "7,5"] in
  let sum := sumParsed (inputs s) zero in
  let v := finalResultValue sum (List.length (inputs s)) in
  Lenient.sumInputs (inputs s) zero = inl sum
  /\ nonNegative sum /\ nonNegative v
  /\ Forall (fun p => Intl.type p <> Intl.minusSign /\ Intl.type p <> Intl.nan)
            (Intl.formatToParts v)
  /\ partsText (Intl.formatToParts v)
     = (if isFinite v then number (result (publish sum s)) else Intl.infinitySign)
       ++ Intl.noBreakSpace ++ Intl.euroSign
  /\ (isFinite v = false -> number (result (publish sum s)) = []).
Proof.
  intros s sum v.
  assert (H : Lenient.sumInputs (inputs s) zero = inl sum)
    by (vm_compute; reflexivity).
  split; [exact H|].
  apply (@published_amount_is_never_negative s sum).
  - discriminate.
  - simpl. lia.
  - right. exact H.
Defined.

End Signs.

(* ================================================================== *)
(** ** Blur and the calculation *)
(* ================================================================== *)

Section BlurKeepsValue.
Local Open Scope Z_scope.

(** A double has one canonical form. *)
Lemma canonical_unique m t m' t' :
  0 <= t -> 0 <= t' -> 0 < m < 2 ^ 53 -> 0 < m' < 2 ^ 53 ->
  (t = 0 \/ 2 ^ 52 <= m) -> (t' = 0 \/ 2 ^ 52 <= m') ->
  m * 2 ^ t = m' * 2 ^ t' -> m = m' /\ t = t'.
Proof.
  intros Ht Ht' Hm Hm' Hn Hn' E.
  assert (Hstep : forall a u b w, 0 <= u -> u < w -> 0 < a < 2 ^ 53 -> 2 ^ 52 <= b ->
            a * 2 ^ u = b * 2 ^ w -> False).
  { intros a u b w Hu Huw Ha Hb Eq.
    assert (Hp : 0 < 2 ^ u) by (apply Z.pow_pos_nonneg; lia).
    assert (Hw : 2 ^ (u + 1) <= 2 ^ w) by (apply Z.pow_le_mono_r; lia).
    rewrite Z.pow_add_r in Hw by lia. change (2 ^ 1) with 2 in Hw.
    change (2 ^ 53) with 9007199254740992 in Ha.
    change (2 ^ 52) with 4503599627370496 in Hb.
    assert (a * 2 ^ u <= 9007199254740991 * 2 ^ u)
      by (apply Z.mul_le_mono_nonneg_r; lia).
    assert (4503599627370496 * 2 ^ w <= b * 2 ^ w)
      by (apply Z.mul_le_mono_nonneg_r; lia).
    lia. }
  assert (Et : t = t').
  { destruct (Z.lt_trichotomy t t') as [H|[H|H]]; [|exact H|]; exfalso.
    - destruct Hn' as [Hz|Hf]; [lia|]. exact (Hstep m t m' t' Ht H Hm Hf E).
    - destruct Hn as [Hz|Hf]; [lia|].
      exact (Hstep m' t' m t Ht' H Hm' Hf (eq_sym E)). }
  subst t'. split; [|reflexivity].
  apply (Z.mul_reg_r m m' (2 ^ t)); [|exact E].
  pose proof (Z.pow_pos_nonneg 2 t ltac:(lia) Ht). lia.
Qed.

Lemma pow2_1074_split : 2 ^ 1074 = 128 * 2 ^ 1067.
Proof. change 128 with (2 ^ 7). rewrite <- Z.pow_add_r by lia. reflexivity. Qed.

(** A double of magnitude below 2^46 that is nearest to a whole number
    of hundredths gives that number back. *)
Lemma hundredths_of_nearest n V G :
  0 < G -> G <= 2 ^ 1067 ->
  2 * Z.abs (V * 100 - n * 2 ^ 1074) <= 100 * G ->
  (2 * n - 1) * 2 ^ 1074 <= 200 * V /\ 200 * V < (2 * n + 1) * 2 ^ 1074.
Proof.
  intros HG HGP Hhalf. rewrite pow2_1074_split in *.
  assert (HP : 0 < 2 ^ 1067) by (apply Z.pow_pos_nonneg; lia).
  remember (2 ^ 1067) as P eqn:EP. clear EP. lia.
Qed.

(** Above 2^46 doubles lie at least 1/64 apart, more than twice the
    error of a rounding to hundredths: the double nearest to the
    hundredths of a double is that double. *)
Lemma nearest_to_own_hundredths p a m2 t2 n' :
  2 ^ 52 <= p -> 1 <= a ->
  0 <= m2 < 2 ^ 53 -> 0 <= t2 ->
  (2 * n' - 1) * 2 ^ 1074 <= 200 * (p * (a * 2 ^ 1068)) ->
  200 * (p * (a * 2 ^ 1068)) < (2 * n' + 1) * 2 ^ 1074 ->
  Z.abs (m2 * 2 ^ t2 * 100 - n' * 2 ^ 1074)
  <= Z.abs (p * (a * 2 ^ 1068) * 100 - n' * 2 ^ 1074) ->
  m2 * 2 ^ t2 = p * (a * 2 ^ 1068).
Proof.
  intros Hp Ha Hm2 Ht2 Hlo Hhi Hnear.
  assert (ES : 2 ^ 1074 = 64 * 2 ^ 1068).
  { change 64 with (2 ^ 6). rewrite <- Z.pow_add_r by lia. reflexivity. }
  assert (EQ : 2 ^ 1068 = 2 * 2 ^ 1067).
  { change 2 with (2 ^ 1) at 2. rewrite <- Z.pow_add_r by lia. reflexivity. }
  assert (HP : 0 < 2 ^ 1067) by (apply Z.pow_pos_nonneg; lia).
  change (2 ^ 52) with 4503599627370496 in Hp.
  change (2 ^ 53) with 9007199254740992 in Hm2.
  assert (Hv : 4503599627370496 <= p * a).
  { assert (p * 1 <= p * a) by (apply Z.mul_le_mono_nonneg_l; lia). lia. }
  replace (p * (a * 2 ^ 1068)) with (p * a * 2 ^ 1068) in * by ring.
  set (v := p * a) in *.
  destruct (Z_le_gt_dec 1068 t2) as [Hbig|Hsmall].
  - assert (Eb : 2 ^ t2 = 2 ^ (t2 - 1068) * 2 ^ 1068).
    { rewrite <- Z.pow_add_r by lia. f_equal. lia. }
    rewrite Eb in *.
    replace (m2 * (2 ^ (t2 - 1068) * 2 ^ 1068))
      with (m2 * 2 ^ (t2 - 1068) * 2 ^ 1068) in * by ring.
    set (y := m2 * 2 ^ (t2 - 1068)) in *.
    rewrite ES in *.
    assert (HQ : 0 < 2 ^ 1068) by (apply Z.pow_pos_nonneg; lia).
    destruct (Z.lt_trichotomy y v) as [Hlt|[Heq|Hgt]]; [exfalso| |exfalso].
    + assert ((y + 1) * 2 ^ 1068 <= v * 2 ^ 1068)
        by (apply Z.mul_le_mono_nonneg_r; lia).
      remember (2 ^ 1068) as Q eqn:EQ'. clear EQ' EQ Eb. lia.
    + rewrite Heq. reflexivity.
    + assert ((v + 1) * 2 ^ 1068 <= y * 2 ^ 1068)
        by (apply Z.mul_le_mono_nonneg_r; lia).
      remember (2 ^ 1068) as Q eqn:EQ'. clear EQ' EQ Eb. lia.
  - exfalso.
    assert (Hpow : 2 ^ t2 <= 2 ^ 1067) by (apply Z.pow_le_mono_r; lia).
    assert (Hpos : 0 < 2 ^ t2) by (apply Z.pow_pos_nonneg; lia).
    assert (HY1 : m2 * 2 ^ t2 <= 9007199254740991 * 2 ^ t2)
      by (apply Z.mul_le_mono_nonneg_r; lia).
    assert (HY : m2 * 2 ^ t2 <= 9007199254740991 * 2 ^ 1067) by lia.
    rewrite ES, EQ in *.
    set (Y := m2 * 2 ^ t2) in *.
    assert (HV : 4503599627370496 * 2 ^ 1067 <= v * 2 ^ 1067)
      by (apply Z.mul_le_mono_nonneg_r; lia).
    assert (Hv1 : v = 4503599627370496).
    { destruct (Z_le_gt_dec v 4503599627370496) as [|Hmore]; [lia|]. exfalso.
      assert ((4503599627370496 + 1) * 2 ^ 1067 <= v * 2 ^ 1067)
        by (apply Z.mul_le_mono_nonneg_r; lia).
      clear Hpow HY1 Hpos. remember (2 ^ 1067) as P eqn:EP. clear EP.
      replace (v * (2 * P)) with (2 * (v * P)) in * by ring. lia. }
    rewrite Hv1 in *.
    assert (Hn' : n' = 7036874417766400).
    { destruct (Z.lt_trichotomy n' 7036874417766400) as [Hlt|[Heq|Hgt]];
        [exfalso|exact Heq|exfalso].
      - assert ((n' + 1) * 2 ^ 1067 <= 7036874417766400 * 2 ^ 1067)
          by (apply Z.mul_le_mono_nonneg_r; lia).
        clear Hpow HY1 Hpos Hnear. remember (2 ^ 1067) as P eqn:EP. clear EP. lia.
      - assert ((7036874417766400 + 1) * 2 ^ 1067 <= n' * 2 ^ 1067)
          by (apply Z.mul_le_mono_nonneg_r; lia).
        clear Hpow HY1 Hpos Hnear. remember (2 ^ 1067) as P eqn:EP. clear EP. lia. }
    rewrite Hn' in *.
    clear Hpow HY1 Hpos. remember (2 ^ 1067) as P eqn:EP. clear EP. lia.
Qed.

(** The text written on blur for the double nearest to a whole number
    of hundredths reads as that double again. *)
Lemma cent_value_stable n :
  0 <= n ->
  numericValueOf (replace chDot chComma (toFixed2 (roundQ false n 100)))
  = roundQ false n 100.
Proof.
  intros Hn0. destruct (Z.eq_dec n 0) as [Hz|Hnz].
  { subst n. vm_compute. reflexivity. }
  destruct (@roundQ_cases false n 100 ltac:(lia) ltac:(lia))
    as (m & t & Ht & Hm & Hnorm & Hnear & Hhalf & E).
  rewrite E. destruct m as [|p|p]; [vm_compute; reflexivity| |lia].
  destruct (Z.leb_spec (t - 1074) 971) as [Hfin|Hinf]; [|vm_compute; reflexivity].
  assert (Hvalid : validFinite p (t - 1074)).
  { unfold validFinite. split; [lia|]. split; [lia|].
    destruct Hnorm; [left | right]; lia. }
  rewrite toFixed2_finite.
  destruct (Z.leb_spec (10 ^ 21 * denOf (t - 1074)) (numOf p (t - 1074)))
    as [Hbig|Hsmall].
  { destruct (@toStringLarge_readsBack p (t - 1074) Hvalid Hbig) as (s0 & n0 & Es & Hrb).
    rewrite Es. apply (@exponentForm_readsBack _ s0 n0 Hrb). }
  pose proof (denOf_pos (t - 1074)) as Hden.
  pose proof (numOf_pos p (t - 1074)) as Hnum.
  pose proof (@hundredths_nonneg (numOf p (t - 1074)) (denOf (t - 1074))
                ltac:(lia) Hden) as Hn'.
  rewrite (@numericValueOf_fixedDigits _ Hn').
  pose proof scale_pos as HS.
  pose proof (@numOf_scaled p (t - 1074) ltac:(lia)) as Hsc.
  unfold scaled in Hsc. replace (t - 1074 + 1074) with t in Hsc by lia.
  assert (HG : 0 < 2 ^ t) by (apply Z.pow_pos_nonneg; lia).
  destruct (Z_le_gt_dec t 1067) as [Hlow|Hhigh].
  - assert (Hpow : 2 ^ t <= 2 ^ 1067) by (apply Z.pow_le_mono_r; lia).
    assert (Hb : (2 * n - 1) * 2 ^ 1074 <= 200 * (Z.pos p * 2 ^ t)
                 /\ 200 * (Z.pos p * 2 ^ t) < (2 * n + 1) * 2 ^ 1074).
    { apply (@hundredths_of_nearest n (Z.pos p * 2 ^ t) (2 ^ t) HG Hpow).
      replace (100 * 2 ^ t) with (100 * 2 ^ t) by ring. exact Hhalf. }
    assert (En : hundredths (numOf p (t - 1074)) (denOf (t - 1074)) = n).
    { apply hundredths_unique; [exact Hden | |];
        apply (proj2 (@hundredths_units (2 ^ 1074) HS (numOf p (t - 1074))
                        (denOf (t - 1074)) (Z.pos p * 2 ^ t) n Hden Hsc) Hb). }
    rewrite En, E.
    destruct (Z.leb_spec (t - 1074) 971) as [_|Hcontra]; [reflexivity | lia].
  - destruct Hnorm as [Hz|Hfull]; [lia|].
    set (n' := hundredths (numOf p (t - 1074)) (denOf (t - 1074))) in *.
    destruct (@hundredths_bounds (numOf p (t - 1074)) (denOf (t - 1074)) Hden)
      as [Hlo Hhi]. fold n' in Hlo, Hhi.
    destruct (proj1 (@hundredths_units (2 ^ 1074) HS (numOf p (t - 1074))
                       (denOf (t - 1074)) (Z.pos p * 2 ^ t) n' Hden Hsc)
                (conj Hlo Hhi)) as [Hlo' Hhi'].
    assert (Ea : 2 ^ t = 2 ^ (t - 1068) * 2 ^ 1068).
    { rewrite <- Z.pow_add_r by lia. f_equal. lia. }
    assert (Ha : 1 <= 2 ^ (t - 1068)).
    { pose proof (Z.pow_pos_nonneg 2 (t - 1068) ltac:(lia) ltac:(lia)). lia. }
    rewrite Ea in Hlo', Hhi'.
    assert (Hn'pos : 0 < n').
    { destruct (Z_lt_le_dec 0 n') as [|Hle]; [assumption|]. exfalso.
      assert (0 <= Z.pos p * (2 ^ (t - 1068) * 2 ^ 1068)).
      { apply Z.mul_nonneg_nonneg; [lia|].
        apply Z.mul_nonneg_nonneg; [lia|]. apply Z.pow_nonneg. lia. }
      assert ((2 * n' + 1) * 2 ^ 1074 <= 1 * 2 ^ 1074)
        by (apply Z.mul_le_mono_nonneg_r; lia).
      assert (1 * 2 ^ 1068 <= Z.pos p * (2 ^ (t - 1068) * 2 ^ 1068)).
      { replace (Z.pos p * (2 ^ (t - 1068) * 2 ^ 1068))
          with (Z.pos p * 2 ^ (t - 1068) * 2 ^ 1068) by ring.
        apply Z.mul_le_mono_nonneg_r; [apply Z.pow_nonneg; lia|].
        change (2 ^ 52) with 4503599627370496 in Hfull.
        assert (Z.pos p * 1 <= Z.pos p * 2 ^ (t - 1068))
          by (apply Z.mul_le_mono_nonneg_l; lia). lia. }
      assert (ES : 2 ^ 1074 = 64 * 2 ^ 1068).
      { change 64 with (2 ^ 6). rewrite <- Z.pow_add_r by lia. reflexivity. }
      rewrite ES in *.
      remember (Z.pos p * (2 ^ (t - 1068) * 2 ^ 1068)) as V eqn:EV. clear EV.
      remember (2 ^ 1068) as Q eqn:EQ. clear EQ. lia. }
    destruct (@roundQ_cases false n' 100 Hn'pos ltac:(lia))
      as (m2 & t2 & Ht2 & Hm2 & Hnorm2 & Hnear2 & _ & E2).
    specialize (Hnear2 (Z.pos p) t ltac:(lia) Ht). rewrite Ea in Hnear2.
    pose proof (@nearest_to_own_hundredths (Z.pos p) (2 ^ (t - 1068)) m2 t2 n'
                  Hfull Ha Hm2 Ht2 Hlo' Hhi' Hnear2) as EY.
    rewrite <- Ea in EY.
    assert (Hm2pos : 0 < m2).
    { destruct (Z_lt_le_dec 0 m2) as [|Hle]; [assumption|]. exfalso.
      assert (m2 = 0) by lia. subst m2.
      assert (0 < Z.pos p * 2 ^ t) by (apply Z.mul_pos_pos; lia). lia. }
    destruct (@canonical_unique m2 t2 (Z.pos p) t Ht2 Ht ltac:(lia) ltac:(lia)
                Hnorm2 (or_intror Hfull) EY) as [Em Et].
    rewrite E2, Em, Et.
    destruct (Z.leb_spec (t - 1074) 971) as [_|Hcontra]; [reflexivity | lia].
Qed.

Lemma decimalPattern_stableText v : decimalPattern v -> stableText v.
Proof.
  intros Hv. destruct (@decimalPattern_value v Hv) as [E|[E|(n & Hn & E)]].
  - left. subst v. reflexivity.
  - right. left. apply (@loneSeparator_invalid v E).
  - right. right. rewrite E. apply cent_value_stable, Hn.
Qed.

Lemma blur_output_stableText t :
  numericValueOf (replace chDot chComma (toFixed2 (numericValueOf t)))
  = numericValueOf t ->
  stableText (replace chDot chComma (toFixed2 (numericValueOf t))).
Proof. intros H. right. right. rewrite H. exact H. Qed.

Lemma textsStable_withValue id0 v s :
  stableText v -> textsStable s ->
  textsStable (setInputs (withValue id0 v (inputs s)) s).
Proof.
  intros Hv Hs. unfold textsStable. simpl.
  apply (@Forall_value_withValue stableText id0 v (inputs s) Hv Hs).
Qed.

Lemma strict_step_textsStable s op :
  textsStable s -> textsStable (Strict.step s op).
Proof.
  intros Hs. destruct op as [id0 v|id0| |id0| |]; simpl.
  - unfold Strict.handleInputChange.
    assert (Hs1 : textsStable
              (if isResultVisible s then setIsResultVisible false s else s))
      by (destruct (isResultVisible s); exact Hs).
    destruct (Regex.test decimalInput v) eqn:Ht; [|exact Hs1].
    assert (Hv : stableText v)
      by (apply decimalPattern_stableText, decimalInput_pattern; exact Ht).
    assert (H2 : textsStable
              (setInputs (withValue id0 v (inputs s))
                 (if isResultVisible s then setIsResultVisible false s else s))).
    { destruct (isResultVisible s); apply (@textsStable_withValue id0 v s Hv Hs). }
    destruct (negb (isEmpty (error s))); exact H2.
  - unfold Strict.handleInputBlur.
    destruct (find (fun i => id i =? id0) (inputs s)) as [input|] eqn:Hf; [|exact Hs].
    destruct (isBlank (value input)) eqn:Hb; [exact Hs|].
    destruct (isNaN (numericValueOf (value input))) eqn:Hn; [exact Hs|]. cbn [negb].
    apply textsStable_withValue; [|exact Hs].
    apply blur_output_stableText.
    destruct (@find_Forall (fun i => stableText (value i)) _ _ _ Hs Hf)
      as [H|[H|H]]; [congruence | congruence | exact H].
  - unfold textsStable. simpl. apply Forall_app. split; [exact Hs|].
    constructor; [left; reflexivity | constructor].
  - unfold Strict.removeInput.
    destruct (1 <? List.length (inputs s))%nat; [|exact Hs].
    unfold textsStable. simpl. apply Forall_filter. exact Hs.
  - unfold Strict.handleCalculation.
    destruct (Strict.sumInputs (inputs s) zero); exact Hs.
  - unfold textsStable. simpl. constructor; [left; reflexivity | constructor].
Qed.

Lemma strict_run_textsStable ops : forall s,
  textsStable s -> textsStable (Strict.run ops s).
Proof.
  induction ops as [|op ops IH]; simpl; intros s Hs; [exact Hs|].
  apply IH, strict_step_textsStable, Hs.
Qed.

Lemma textsStable_initialState : textsStable initialState.
Proof. constructor; [left; reflexivity | constructor]. Qed.

(** Rewriting the one row of an id to a text with the same reading
    keeps the readings of all rows. *)
Lemma withValue_reading l id0 out input :
  NoDup (map id l) ->
  find (fun i => id i =? id0) l = Some input ->
  isBlank out = isBlank (value input) ->
  numericValueOf out = numericValueOf (value input) ->
  map reading (withValue id0 out l) = map reading l.
Proof.
  intros Hnd Hf Hb Hv. induction l as [|a l IH]; [reflexivity|].
  inversion Hnd as [|? ? Hnotin Hnd']; subst.
  simpl in Hf. unfold withValue. cbn [map].
  destruct (Z.eqb_spec (id a) id0) as [Ea|Ea].
  - injection Hf as <-. f_equal.
    + unfold reading. cbn [value]. rewrite Hb, Hv. reflexivity.
    + fold (withValue id0 out l). rewrite withValue_absent; [reflexivity|].
      rewrite <- Ea. exact Hnotin.
  - f_equal. apply (IH Hnd' Hf).
Qed.

Lemma strict_sumInputs_readings l : forall l' sum,
  map reading l = map reading l' ->
  Strict.sumInputs l sum = Strict.sumInputs l' sum.
Proof.
  induction l as [|a l IH]; intros [|a' l'] sum H; try discriminate H;
    [reflexivity|].
  cbn [map] in H. unfold reading at 1 2 in H. injection H as Hb Hv Hl.
  simpl. rewrite Hb, Hv.
  destruct (isBlank (value a')); [reflexivity|].
  destruct (isInvalid (numericValueOf (value a'))); [reflexivity | apply IH, Hl].
Qed.

Lemma length_withValue id0 v l : List.length (withValue id0 v l) = List.length l.
Proof. unfold withValue. apply length_map. Qed.

Lemma calculation_after_rewrite s l' :
  map reading l' = map reading (inputs s) ->
  Strict.handleCalculation (setInputs l' s)
  = setInputs l' (Strict.handleCalculation s).
Proof.
  intros Hr. unfold Strict.handleCalculation. cbn [inputs setInputs].
  rewrite (@strict_sumInputs_readings l' (inputs s) zero Hr).
  destruct (Strict.sumInputs (inputs s) zero) as [sum|k]; [|reflexivity].
  unfold publish. cbn [inputs setInputs setError].
  assert (El : List.length l' = List.length (inputs s)).
  { rewrite <- (length_map reading l'), Hr. apply length_map. }
  rewrite El. reflexivity.
Qed.

(** On rows of distinct ids whose texts are plain and stable, a blur
    keeps what the calculation reads, and commutes with it. *)
Lemma blur_commutes_with_calculation s id0 :
  NoDup (map id (inputs s)) -> textsPlain s -> textsStable s ->
  map reading (inputs (Strict.handleInputBlur id0 s)) = map reading (inputs s)
  /\ Strict.handleCalculation (Strict.handleInputBlur id0 s)
     = Strict.handleInputBlur id0 (Strict.handleCalculation s).
Proof.
  intros Hnd Hp Hst.
  assert (Hci : inputs (Strict.handleCalculation s) = inputs s).
  { unfold Strict.handleCalculation.
    destruct (Strict.sumInputs (inputs s) zero); reflexivity. }
  assert (Hcases :
    (Strict.handleInputBlur id0 s = s
     /\ Strict.handleInputBlur id0 (Strict.handleCalculation s)
        = Strict.handleCalculation s)
    \/ exists l',
         map reading l' = map reading (inputs s)
         /\ Strict.handleInputBlur id0 s = setInputs l' s
         /\ Strict.handleInputBlur id0 (Strict.handleCalculation s)
            = setInputs l' (Strict.handleCalculation s)).
  { unfold Strict.handleInputBlur. rewrite Hci.
    destruct (find (fun i => id i =? id0) (inputs s)) as [input|] eqn:Hf;
      [|left; split; reflexivity].
    destruct (isBlank (value input)) eqn:Hb; [left; split; reflexivity|].
    destruct (isNaN (numericValueOf (value input))) eqn:Hn;
      [left; split; reflexivity|]. cbn [negb].
    right. eexists. split; [|split; reflexivity].
    assert (Hpv : plainValue (numericValueOf (value input))).
    { apply numericValueOf_plain.
      apply (@find_Forall (fun i => plainText (value i)) _ _ _ Hp Hf). }
    apply (@withValue_reading _ id0 _ input Hnd Hf).
    - rewrite Hb. apply digitHead_not_blank. apply (@normalize_stable _ Hpv Hn).
    - destruct (@find_Forall (fun i => stableText (value i)) _ _ _ Hst Hf)
        as [H|[H|H]]; [congruence | congruence | exact H]. }
  destruct Hcases as [[E1 E2] | (l' & Hr & E1 & E2)].
  - rewrite E1, E2. split; reflexivity.
  - rewrite E1, E2. split; [exact Hr|].
    apply (@calculation_after_rewrite s l' Hr).
Qed.

(** X18: in every state the strict page can reach, rewriting a row on
    blur does not change what the calculation reads from it: a blank row
    stays blank, and the rewritten text reads as the same number.  So
    the calculation gives the same outcome before and after a blur, and
    the two commute. *)
Theorem blur_does_not_change_the_calculation : forall ops id0,
  let s := Strict.run ops initialState in
  map reading (inputs (Strict.handleInputBlur id0 s)) = map reading (inputs s)
  /\ Strict.handleCalculation (Strict.handleInputBlur id0 s)
     = Strict.handleInputBlur id0 (Strict.handleCalculation s)
  /\ result (Strict.handleCalculation (Strict.handleInputBlur id0 s))
     = result (Strict.handleCalculation s)
  /\ error (Strict.handleCalculation (Strict.handleInputBlur id0 s))
     = error (Strict.handleCalculation s).
Proof.
  intros ops id0 s.
  destruct (@blur_commutes_with_calculation s id0) as [Hr Hc].
  - apply (strict_run_wellFormed ops wellFormed_initialState).
  - apply strict_run_textsPlain, textsPlain_initialState.
  - apply strict_run_textsStable, textsStable_initialState.
  - split; [exact Hr|]. split; [exact Hc|]. rewrite Hc.
    destruct (strict_handleInputBlur_inputs id0 (Strict.handleCalculation s))
      as [E|[v E]]; rewrite E; split; reflexivity.
Qed.

(** X19: leaving a field touches nothing but texts of rows with that id:
    the ids, their order and number, the counter, the stored result, the
    error message and the visibility of the result stay, and a row
    whose text is no number keeps its text. *)
Theorem blur_touches_only_that_text : forall s id0,
  map id (inputs (Strict.handleInputBlur id0 s)) = map id (inputs s)
  /\ (forall i, In i (inputs s) -> id i <> id0 ->
                In i (inputs (Strict.handleInputBlur id0 s)))
  /\ nextId (Strict.handleInputBlur id0 s) = nextId s
  /\ result (Strict.handleInputBlur id0 s) = result s
  /\ error (Strict.handleInputBlur id0 s) = error s
  /\ isResultVisible (Strict.handleInputBlur id0 s) = isResultVisible s
  /\ (forall input,
        find (fun i => id i =? id0) (inputs s) = Some input ->
        isNaN (numericValueOf (value input)) = true ->
        Strict.handleInputBlur id0 s = s).
Proof.
  intros s id0.
  assert (Hlast : forall input,
            find (fun i => id i =? id0) (inputs s) = Some input ->
            isNaN (numericValueOf (value input)) = true ->
            Strict.handleInputBlur id0 s = s).
  { intros input Hf Hn. unfold Strict.handleInputBlur. rewrite Hf, Hn.
    destruct (isBlank (value input)); reflexivity. }
  destruct (strict_handleInputBlur_inputs id0 s) as [E|[v E]]; rewrite E.
  - repeat split; auto.
  - cbn [inputs setInputs nextId result error isResultVisible].
    rewrite map_id_withValue. repeat split.
    + intros i Hin Hid. unfold withValue. apply in_map_iff. exists i.
      split; [|exact Hin]. destruct (Z.eqb_spec (id i) id0); [contradiction | reflexivity].
    + intros input Hf Hn. rewrite <- E. exact (Hlast _ Hf Hn).
Qed.

End BlurKeepsValue.

(* ================================================================== *)
(** ** A visible result and the rows it belongs to *)
(* ================================================================== *)

Section Current.
Local Open Scope Z_scope.

Lemma strict_handleInputChange_hides id0 v s :
  isResultVisible (Strict.handleInputChange id0 v s) = false.
Proof.
  unfold Strict.handleInputChange.
  destruct (Regex.test decimalInput v), (negb (isEmpty (error s)));
    destruct (isResultVisible s) eqn:Ev; simpl; try reflexivity; exact Ev.
Qed.

Lemma strict_handleCalculation_settles s :
  Strict.handleCalculation (Strict.handleCalculation s) = Strict.handleCalculation s.
Proof.
  assert (Hi : inputs (Strict.handleCalculation s) = inputs s).
  { unfold Strict.handleCalculation.
    destruct (Strict.sumInputs (inputs s) zero); reflexivity. }
  unfold Strict.handleCalculation at 1. rewrite Hi.
  unfold Strict.handleCalculation.
  destruct (Strict.sumInputs (inputs s) zero); reflexivity.
Qed.

Lemma strict_handleInputBlur_visible id0 s :
  isResultVisible (Strict.handleInputBlur id0 s) = isResultVisible s.
Proof.
  destruct (strict_handleInputBlur_inputs id0 s) as [E|[v E]]; rewrite E; reflexivity.
Qed.

Lemma strict_step_resultCurrent s op :
  wellFormed s -> textsPlain s -> textsStable s ->
  keepsRows op = true -> resultCurrent s -> resultCurrent (Strict.step s op).
Proof.
  intros Hwf Hp Hst Hop Hs. unfold resultCurrent.
  destruct op as [id0 v|id0| |id0| |]; simpl; try discriminate Hop.
  - rewrite strict_handleInputChange_hides. discriminate.
  - rewrite strict_handleInputBlur_visible. intros Hv.
    destruct Hwf as (_ & Hnd & _).
    destruct (@blur_commutes_with_calculation s id0 Hnd Hp Hst) as [_ Hc].
    rewrite Hc, (Hs Hv). reflexivity.
  - intros _. apply strict_handleCalculation_settles.
  - discriminate.
Qed.

Lemma strict_run_resultCurrent ops : forall s,
  wellFormed s -> textsPlain s -> textsStable s ->
  forallb keepsRows ops = true -> resultCurrent s ->
  resultCurrent (Strict.run ops s).
Proof.
  induction ops as [|op ops IH]; intros s Hwf Hp Hst Hops Hs; [exact Hs|].
  simpl in Hops. apply andb_true_iff in Hops. destruct Hops as [Hop Hops].
  apply IH; try assumption.
  - apply strict_step_wellFormed, Hwf.
  - apply strict_step_textsPlain, Hp.
  - apply strict_step_textsStable, Hst.
  - apply strict_step_resultCurrent; assumption.
Qed.

(** X20: in the strict page, from a calculation on and as long as no row
    is added or removed, a result that is visible is the result of the
    rows as they stand: typing hides it, and leaving a field rewrites
    the text without changing its number, so calculating again would
    change nothing. *)
Theorem visible_result_is_of_the_rows_shown pre post :
  forallb keepsRows post = true ->
  let s := Strict.run (pre ++ Strict.Calculation :: post) initialState in
  isResultVisible s = true -> Strict.handleCalculation s = s.
Proof.
  intros Hpost s. unfold s, Strict.run. rewrite fold_left_app. cbn [fold_left].
  fold (Strict.run pre initialState).
  set (s0 := Strict.run pre initialState).
  fold (Strict.run post (Strict.step s0 Strict.Calculation)).
  assert (Hwf : wellFormed s0)
    by (apply strict_run_wellFormed, wellFormed_initialState).
  assert (Hp : textsPlain s0)
    by (apply strict_run_textsPlain, textsPlain_initialState).
  assert (Hst : textsStable s0)
    by (apply strict_run_textsStable, textsStable_initialState).
  apply strict_run_resultCurrent; try assumption.
  - apply strict_step_wellFormed, Hwf.
  - apply strict_step_textsPlain, Hp.
  - apply strict_step_textsStable, Hst.
  - intros _. apply strict_handleCalculation_settles.
Qed.

Lemma visible_result_is_of_the_rows_shown_witness :
  let pre := [Strict.InputChange 1 (str "10"); Strict.AddInput;
              Strict.InputChange 2 (str "2,5")] in
  let post := [Strict.InputBlur 2; Strict.InputBlur 1] in
  let s := Strict.run (pre ++ Strict.Calculation :: post) initialState in
  map value (inputs s) = [str "10,00"; str "2,50"]
  /\ isResultVisible s = true
  /\ Strict.handleCalculation s = s.
Proof.
  intros pre post s.
  assert (Hv : isResultVisible s = true) by (vm_compute; reflexivity).
  split; [vm_compute; reflexivity|]. split; [exact Hv|].
  exact (@visible_result_is_of_the_rows_shown pre post eq_refl Hv).
Defined.

(** The double of a positive quotient is not a zero. *)
Lemma roundQ_positive sign num :
  0 < num ->
  roundQ sign num 1 = S754_infinity sign
  \/ exists m e, roundQ sign num 1 = S754_finite sign m e.
Proof.
  intros Hnum.
  destruct (@roundQ_cases sign num 1 Hnum ltac:(lia))
    as (m & t & Ht & Hm & _ & Hnear & _ & E).
  rewrite E. destruct m as [|p|p]; [|  |lia].
  - exfalso. pose proof scale_pos as HS.
    assert (1 * 2 ^ 1074 <= num * 2 ^ 1074)
      by (apply Z.mul_le_mono_nonneg_r; lia).
    specialize (Hnear 1 1074 ltac:(change (2 ^ 53) with 9007199254740992; lia) ltac:(lia)).
    remember (2 ^ 1074) as S eqn:ES. clear ES.
    remember (2 ^ t) as G eqn:EG. clear EG. lia.
  - destruct (t - 1074 <=? 971); [right; eauto | left; reflexivity].
Qed.

(** X21: digits with a minus sign before them are refused as an amount
    unless they are all zeros: the calculation takes ["-0"] as a number
    that is not below zero, and reports every other such text as
    invalid.  (The strict page lets no minus sign be typed.) *)
Theorem minus_sign_is_refused_unless_zero a :
  allDigits a -> a <> [] ->
  isBlank (chMinus :: a) = false
  /\ isInvalid (numericValueOf (chMinus :: a)) = negb (digitsVal a =? 0)
  /\ Regex.test decimalInput (chMinus :: a) = false.
Proof.
  intros Ha Hne. split; [apply isBlank_head; reflexivity|]. split.
  2:{ destruct (Regex.test decimalInput (chMinus :: a)) eqn:Ht; [|reflexivity].
      apply decimalInput_pattern, decimalPattern_plainText in Ht.
      destruct Ht as [_ Hm]. discriminate Hm. }
  assert (E : numericValueOf (chMinus :: a) = roundQ true (digitsVal a) 1).
  { unfold numericValueOf.
    rewrite (@replace_miss chComma chDot (chMinus :: a))
      by (constructor; [reflexivity | apply digits_no_comma, Ha]).
    change (parseFloat (chMinus :: a)) with (parseUnsigned true a).
    rewrite <- (app_nil_r a) at 1.
    rewrite (@parseUnsigned_integer true a [] Ha Hne I I).
    unfold decimalValue. change (0 <=? parseExponent [] - 0) with true. cbn iota.
    change (10 ^ (parseExponent [] - 0)) with 1. f_equal. ring. }
  rewrite E. pose proof (@digitsVal_nonneg a Ha) as Hpos.
  destruct (Z.eqb_spec (digitsVal a) 0) as [Hz|Hnz].
  - rewrite Hz. reflexivity.
  - destruct (@roundQ_positive true (digitsVal a) ltac:(lia)) as [Ei|(m & e & Ef)];
      [rewrite Ei | rewrite Ef]; reflexivity.
Qed.

Lemma minus_sign_is_refused_unless_zero_witness :
  isBlank (chMinus :: str "5") = false
  /\ isInvalid (numericValueOf (chMinus :: str "5")) = negb (digitsVal (str "5") =? 0)
  /\ Regex.test decimalInput (chMinus :: str "5") = false.
Proof.
  apply (@minus_sign_is_refused_unless_zero (str "5")).
  - repeat constructor.
  - discriminate.
Defined.

End Current.

(* ================================================================== *)
(** ** Checks of the model against known values *)
(* ================================================================== *)

Section Checks.
Local Open Scope Z_scope.

(** The doubles of 0.1, 0.05 and 12.5, and of a text with a comma. *)
Example parseFloat_known_doubles :
  parseFloat (str "0.1") = S754_finite false 7205759403792794 (-56)
  /\ parseFloat (str "0.05") = S754_finite false 7205759403792794 (-57)
  /\ parseFloat (str "12.50") = S754_finite false 7036874417766400 (-49)
  /\ numericValueOf (str "12,5") = parseFloat (str "12.5")
  /\ parseFloat (str "  +.5e1x") = parseFloat (str "5")
  /\ parseFloat (str ".") = S754_nan
  /\ parseFloat (str "abc") = S754_nan
  /\ parseFloat (str "-0") = S754_zero true.
Proof. repeat apply conj; vm_compute; reflexivity. Qed.

(** Rounding a quotient agrees with the division of the standard
    library's binary64 on these values. *)
Example roundQ_agrees_with_division :
  div (ofNat 1) (ofNat 10) = roundQ false 1 10
  /\ div (ofNat 5) (ofNat 100) = roundQ false 5 100
  /\ div (ofNat 1) (ofNat 3) = roundQ false 1 3
  /\ div (ofNat 2) (ofNat 3) = roundQ false 2 3
  /\ div (ofNat 123) (ofNat 1000) = roundQ false 123 1000
  /\ ofNat 3 = binary_normalize prec emax 3 0 false
  /\ ofNat 4097 = binary_normalize prec emax 4097 0 false.
Proof. repeat apply conj; vm_compute; reflexivity. Qed.

(** [toFixed(2)] on known values: 1.005 is below its decimal text, 0.125
    is a tie and goes up, and 10^21 leaves fixed notation. *)
Example toFixed2_known_texts :
  toFixed2 (parseFloat (str "1.005")) = str "1.00"
  /\ toFixed2 (parseFloat (str "0.125")) = str "0.13"
  /\ toFixed2 (parseFloat (str "1234.5678")) = str "1234.57"
  /\ toFixed2 (parseFloat (str "-1.5")) = str "-1.50"
  /\ toFixed2 (parseFloat (str "1e21")) = str "1e+21"
  /\ toFixed2 (S754_infinity false) = str "Infinity".
Proof. repeat apply conj; vm_compute; reflexivity. Qed.

(** The examples of the specification: rows ["10"] and ["20"] give 0.75,
    shown as ["0,75"] with the euro sign; a row ["abc"] fails with
    [InvalidAmount] and leaves the result; rows ["5"] and [""] fail with
    [MissingAmount] in the strict variant. *)
Example specification_examples :
  result (Strict.handleCalculation (withInputs [row 1 "10"; row 2 "20"]))
  = {| number := str "0,75"; currency := Intl.euroSign |}
  /\ result (Lenient.handleCalculation (withInputs [row 1 "10"; row 2 "20"]))
     = {| number := str "0,75"; currency := Intl.euroSign |}
  /\ Lenient.handleCalculation (withInputs [row 1 "abc"])
     = failWith InvalidAmount (withInputs [row 1 "abc"])
  /\ Strict.handleCalculation (withInputs [row 1 "abc"])
     = failWith InvalidAmount (withInputs [row 1 "abc"])
  /\ Strict.handleCalculation (withInputs [row 1 "5"; row 2 ""])
     = failWith MissingAmount (withInputs [row 1 "5"; row 2 ""]).
Proof. repeat apply conj; vm_compute; reflexivity. Qed.

End Checks.
